(** * Bee-Tek card shoe monitor: stream classification and link manager

    A shallow embedding of [main.py]: the four token patterns with the
    part of Python's [re] they use (leftmost, backtracking, greedy,
    non-overlapping scans), [parse_cards_from_buffer], [send_card_http]
    and the loop of [SerialMonitor.run], followed by the properties
    established about them. *)

From Stdlib Require Import String Ascii List ZArith Lia Bool Arith DecimalString.
Import ListNotations.
Open Scope string_scope.
Open Scope list_scope.

(** ** Text

    Python [str] values are lists of characters.  Everything the monitor
    handles went through [decode('ascii', errors='ignore')], so a character
    is a code below 128; the definitions are nevertheless total on all 256
    values of [ascii]. *)

Definition text := list ascii.

Coercion list_ascii_of_string : string >-> list.

Definition code (c : ascii) : nat := nat_of_ascii c.

Definition between (lo hi c : ascii) : bool :=
  ((code lo <=? code c) && (code c <=? code hi))%nat.

(** [str.lower] and [str.upper] on one ASCII character. *)
Definition lower_char (c : ascii) : ascii :=
  if between "A" "Z" c then ascii_of_nat (code c + 32) else c.

Definition upper_char (c : ascii) : ascii :=
  if between "a" "z" c then ascii_of_nat (code c - 32) else c.

Definition lower (s : text) : text := map lower_char s.
Definition upper (s : text) : text := map upper_char s.

Definition text_eqb (a b : text) : bool :=
  if list_eq_dec ascii_dec a b then true else false.

(** [s.startswith(p)] *)
Fixpoint startswith (p s : text) : bool :=
  match p, s with
  | [], _ => true
  | a :: p', b :: s' => Ascii.eqb a b && startswith p' s'
  | _ :: _, [] => false
  end.

(** [needle in hay] on strings. *)
Fixpoint contains (needle hay : text) : bool :=
  startswith needle hay ||
  match hay with
  | [] => false
  | _ :: hay' => contains needle hay'
  end.

(** [s.lstrip(c)] for a one-character strip set. *)
Fixpoint lstrip (c : ascii) (s : text) : text :=
  match s with
  | a :: s' => if Ascii.eqb a c then lstrip c s' else s
  | [] => []
  end.

(** [s[-n:]] for [n > 0]. *)
Definition last_chars (n : nat) (s : text) : text :=
  skipn (length s - n) s.

(** ** Regular expressions

    The fragment of [re] that the four patterns are written in and
    scanned with. *)

Module Re.

Inductive regex : Type :=
| Eps                                                  (* empty *)
| Lit (c : ascii)                                      (* literal character *)
| Class (negated : bool) (ranges : list (ascii * ascii)) (* [...] / [^...] *)
| PlusClass (negated : bool) (ranges : list (ascii * ascii)) (* [...]+ *)
| Seq (r1 r2 : regex)                                  (* r1 r2 *)
| Alt (r1 r2 : regex)                                  (* r1|r2 *)
| Group (r : regex).                                   (* ( r ) *)

(** [(?:r)?] *)
Definition Opt (r : regex) : regex := Alt r Eps.

(** A run of literal characters. *)
Fixpoint lit (s : text) : regex :=
  match s with
  | [] => Eps
  | [c] => Lit c
  | c :: s' => Seq (Lit c) (lit s')
  end.

(** A single character as a one-element range of a class. *)
Definition one (c : ascii) : ascii * ascii := (c, c).

Record pattern : Type := re_compile {
  expr : regex;
  IGNORECASE : bool
}.

Section Matcher.

Variable ic : bool.   (* the IGNORECASE flag of the pattern *)

Definition lit_match (c x : ascii) : bool :=
  if ic then Ascii.eqb (lower_char c) (lower_char x) else Ascii.eqb c x.

Definition in_ranges (ranges : list (ascii * ascii)) (x : ascii) : bool :=
  existsb (fun r => between (fst r) (snd r) x) ranges.

Definition class_match (negated : bool) (ranges : list (ascii * ascii))
                       (x : ascii) : bool :=
  xorb negated
       (if ic
        then in_ranges ranges x || in_ranges ranges (lower_char x)
             || in_ranges ranges (upper_char x)
        else in_ranges ranges x).

(** The state of a match attempt is the text still to be read and the
    groups captured so far; a continuation says whether the rest of the
    pattern succeeds from there. *)
Definition answer : Type := option (text * list text).
Definition cont : Type := text -> list text -> answer.

(** Greedy [[...]+]: take as many characters as possible, give back one at
    a time while the rest of the pattern fails. *)
Fixpoint plus_class (f : ascii -> bool) (s : text) (gs : list text)
                    (k : cont) : answer :=
  match s with
  | [] => None
  | c :: s' =>
      if f c then
        match plus_class f s' gs k with
        | Some a => Some a
        | None => k s' gs
        end
      else None
  end.

(** Backtracking match of [r] at the head of [s].  A group is recorded when
    it closes; in the four patterns no group lies inside another, so this is
    the order of their numbers. *)
Fixpoint run_re (r : regex) (s : text) (gs : list text) (k : cont) : answer :=
  match r with
  | Eps => k s gs
  | Lit c =>
      match s with
      | x :: s' => if lit_match c x then k s' gs else None
      | [] => None
      end
  | Class n rs =>
      match s with
      | x :: s' => if class_match n rs x then k s' gs else None
      | [] => None
      end
  | PlusClass n rs => plus_class (class_match n rs) s gs k
  | Seq r1 r2 => run_re r1 s gs (fun s1 gs1 => run_re r2 s1 gs1 k)
  | Alt r1 r2 =>
      match run_re r1 s gs k with
      | Some a => Some a
      | None => run_re r2 s gs k
      end
  | Group r1 =>
      run_re r1 s gs
        (fun s1 gs1 => k s1 (gs1 ++ [firstn (length s - length s1) s]))
  end.

End Matcher.

Definition accept : cont := fun s gs => Some (s, gs).

(** [p.match(s)] at the head of [s]: the length of the match and its groups. *)
Definition match_here (p : pattern) (s : text) : option (nat * list text) :=
  match run_re (IGNORECASE p) (expr p) s [] accept with
  | Some (rest, gs) => Some (length s - length rest, gs)
  | None => None
  end.

(** A match object: [m.start()], [m.end()], [m.group(0)], [m.groups()]. *)
Record Match : Type := mkMatch {
  m_start : nat;
  m_end : nat;
  group0 : text;
  groups : list text
}.

Definition group (m : Match) (i : nat) : text :=
  match i with
  | O => group0 m
  | S j => nth j (groups m) []
  end.

(** The scan shared by [finditer], [findall] and [sub]: leftmost match
    first, then on from the end of that match.  [skip] counts the characters
    of the current match that are still to be passed over; [pos] is the
    offset of the head of [s] in the scanned text.  None of the four
    patterns has an empty match; after one, the scan would move on by one
    character. *)
Fixpoint finditer_from (p : pattern) (pos skip : nat) (s : text) : list Match :=
  match s with
  | [] => []
  | _ :: s' =>
      match skip with
      | S n => finditer_from p (S pos) n s'
      | O =>
          match match_here p s with
          | Some (len, gs) =>
              mkMatch pos (pos + len) (firstn len s) gs
              :: finditer_from p (S pos) (len - 1) s'
          | None => finditer_from p (S pos) 0 s'
          end
      end
  end.

Definition finditer (p : pattern) (s : text) : list Match :=
  finditer_from p 0 0 s.

(** [p.findall(s)]: the whole match for a pattern without groups, the
    group for a pattern with one. *)
Definition findall (p : pattern) (s : text) : list text :=
  map (fun m => match groups m with
                | [] => group0 m
                | g :: _ => g
                end) (finditer p s).

(** [p.sub(repl, s)] for a replacement without back-references. *)
Fixpoint sub_from (p : pattern) (repl : text) (skip : nat) (s : text) : text :=
  match s with
  | [] => []
  | c :: s' =>
      match skip with
      | S n => sub_from p repl n s'
      | O =>
          match match_here p s with
          | Some (S n, _) => repl ++ sub_from p repl n s'
          | Some (O, _) => repl ++ c :: sub_from p repl 0 s'
          | None => c :: sub_from p repl 0 s'
          end
      end
  end.

Definition sub (p : pattern) (repl : text) (s : text) : text :=
  sub_from p repl 0 s.

End Re.

Import Re.

(** ** The four token patterns *)

Definition GAME : regex := lit "Game".
Definition MANUAL_BURN_CARDS : regex := lit "Manual Burn Cards".

(** [r' \[(?:Game|Manual Burn Cards)\]<Card:([2-9TJQKA]|10)([CDHS])> '] *)
Definition CARD_PATTERN : pattern :=
  re_compile
    (Seq (lit " [")
    (Seq (Alt GAME MANUAL_BURN_CARDS)
    (Seq (lit "]<Card:")
    (Seq (Group (Alt (Class false [("2", "9")%char; one "T"; one "J"; one "Q";
                                   one "K"; one "A"])
                     (lit "10")))
    (Seq (Group (Class false [one "C"; one "D"; one "H"; one "S"]))
         (lit "> "))))))
    true.

(** [r' \[(?:Game|Manual Burn Cards)\]<Game> '] *)
Definition FAILED_READ_PATTERN : pattern :=
  re_compile
    (Seq (lit " [")
    (Seq (Alt GAME MANUAL_BURN_CARDS)
         (lit "]<Game> ")))
    true.

(** [r' \[(?:Game(?:Alarm)?|Manual Burn Cards)\]<Alarm:([^>]+)> '] *)
Definition ALARM_PATTERN : pattern :=
  re_compile
    (Seq (lit " [")
    (Seq (Alt (Seq GAME (Opt (lit "Alarm"))) MANUAL_BURN_CARDS)
    (Seq (lit "]<Alarm:")
    (Seq (Group (PlusClass true [one ">"]))
         (lit "> ")))))
    true.

(** [r'<(W0x[0-9A-Fa-f]+)>'] *)
Definition WARNING_PATTERN : pattern :=
  re_compile
    (Seq (Lit "<")
    (Seq (Group (Seq (lit "W0x")
                     (PlusClass false [("0", "9"); ("A", "F"); ("a", "f")]%char)))
         (Lit ">")))
    true.

(** ** Card parsing *)

(** The body of the loop of [parse_cards_from_buffer] for one match. *)
Definition card_of_match (m : Match) : text :=
  let rank := upper (group m 1) in
  let suit := upper (group m 2) in
  let rank := if text_eqb rank "10" then ("T" : text) else rank in
  suit ++ rank.

Definition parse_cards_from_buffer (t : text) : list text :=
  fold_left (fun cards m => cards ++ [card_of_match m])
            (finditer CARD_PATTERN t) [].

(** ** Notifications, exceptions and the monitor's state *)

(** The four callbacks handed to [SerialMonitor]; a value of this type is one
    call queued with [Clock.schedule_once(..., 0)], with the arguments it
    will be called with. *)
Inductive notification : Type :=
| on_connected
| on_disconnected
| on_card (card : text) (success : bool)
| on_error (message : text).

(** The exceptions the primitives can raise; all are subclasses of
    [Exception]. *)
Inductive exn : Type :=
| SerialException (msg : text)      (* serial.SerialException *)
| Timeout                           (* requests.exceptions.Timeout *)
| ConnectionError (msg : text)      (* requests.exceptions.ConnectionError *)
| IndexError                        (* list index out of range *)
| OtherError (msg : text).          (* any other Exception, e.g. OSError *)

Definition is_SerialException (e : exn) : bool :=
  match e with
  | SerialException _ => true
  | _ => false
  end.

(** [str(e)] *)
Definition exn_str (e : exn) : text :=
  match e with
  | SerialException m => m
  | Timeout => "timed out"
  | ConnectionError m => m
  | IndexError => "list index out of range"
  | OtherError m => m
  end.

Inductive res (A : Type) : Type :=
| Ok (a : A)
| Raise (e : exn).

Arguments Ok {A} a.
Arguments Raise {A} e.

(** The arguments of one [requests.post] call. *)
Record request : Type := mkRequest {
  req_url : text;
  req_json : list (text * text);
  req_headers : list (text * text);
  req_timeout : Z
}.

(** [Config] *)
Record Config : Type := mkConfig {
  ip : text;
  port : Z;
  url : text
}.

Definition default_Config : Config :=
  mkConfig "192.168.1.140" 9000 "api/holdem/beetek/card".

(** A [serial.Serial] object, as far as the monitor looks at it. *)
Record Serial : Type := mkSerial { is_open : bool }.

(** Times are in milliseconds, so that the source's delays in seconds
    (2.5, 0.05, 0.1) are integers. *)
Definition RETRY_DELAY : Z := 2500.
Definition POLL_DELAY : Z := 50.       (* time.sleep(0.05) *)
Definition ERROR_PAUSE : Z := 100.     (* time.sleep(0.1) *)

(** The [timeout] argument handed to [requests.post], in seconds as in the
    source. *)
Definition HTTP_TIMEOUT : Z := 3.

(** What lies outside the program: the serial driver, the HTTP transport,
    the wall clock's rendering and the moment [stop()] is called.  The
    driver is asked at a time, the transport with the number of earlier
    posts; each returns or raises.  Of [stop()] only the setting of
    [_stop_event] is kept: the thread closes its handle itself when it
    leaves the loop. *)
Record world : Type := mkWorld {
  serial_Serial : Z -> res unit;            (* serial.Serial(port, ...) *)
  ser_in_waiting : Z -> res nat;            (* self.ser.in_waiting *)
  ser_read : Z -> nat -> res (list ascii);  (* self.ser.read(n) *)
  requests_post : nat -> request -> res Z;  (* status code of the response *)
  isoformat_now : Z -> text;   (* datetime.now().astimezone().isoformat() *)
  stop_time : option Z                      (* when _stop_event is set *)
}.

(** The mutable state of one [SerialMonitor] thread, with the queue of
    scheduled callbacks and the log of posts it leaves behind.  The clock
    [now] advances in [time.sleep] only: the time the thread takes between
    two sleeps is counted as nothing, so a moment of [now] is never later
    than the real one. *)
Record monitor : Type := mkMonitor {
  ser : option Serial;             (* self.ser *)
  text_buffer : text;              (* the local text_buffer of run *)
  scheduled : list notification;   (* Clock.schedule_once calls, oldest first *)
  posted : list request;           (* requests.post calls, oldest first *)
  now : Z;                         (* time elapsed, spent in time.sleep *)
  opened : nat;                    (* serial.Serial(...) calls so far *)
  closed : nat                     (* self.ser.close() calls so far *)
}.

Definition set_ser (h : option Serial) (w : monitor) : monitor :=
  mkMonitor h (text_buffer w) (scheduled w) (posted w) (now w) (opened w)
            (closed w).

Definition set_buffer (b : text) (w : monitor) : monitor :=
  mkMonitor (ser w) b (scheduled w) (posted w) (now w) (opened w) (closed w).

Definition schedule_once (n : notification) (w : monitor) : monitor :=
  mkMonitor (ser w) (text_buffer w) (scheduled w ++ [n]) (posted w) (now w)
            (opened w) (closed w).

Definition log_post (r : request) (w : monitor) : monitor :=
  mkMonitor (ser w) (text_buffer w) (scheduled w) (posted w ++ [r]) (now w)
            (opened w) (closed w).

Definition sleep (d : Z) (w : monitor) : monitor :=
  mkMonitor (ser w) (text_buffer w) (scheduled w) (posted w) (now w + d)
            (opened w) (closed w).

Definition count_open (w : monitor) : monitor :=
  mkMonitor (ser w) (text_buffer w) (scheduled w) (posted w) (now w)
            (S (opened w)) (closed w).

(** [self.ser.close()] on the handle [self.ser]: the object is closed and
    stays where it is. *)
Definition close_handle (w : monitor) : monitor :=
  mkMonitor (Some (mkSerial false)) (text_buffer w) (scheduled w) (posted w)
            (now w) (opened w) (S (closed w)).

(** Statements that can raise: a state transformer with a result or an
    exception. *)
Definition M (A : Type) : Type := monitor -> monitor * res A.

Definition ret {A : Type} (a : A) : M A := fun w => (w, Ok a).

Definition bind {A B : Type} (m : M A) (f : A -> M B) : M B :=
  fun w =>
    match m w with
    | (w', Ok a) => f a w'
    | (w', Raise e) => (w', Raise e)
    end.

Definition raise {A : Type} (e : exn) : M A := fun w => (w, Raise e).

(** A statement that cannot raise. *)
Definition exec (f : monitor -> monitor) : M unit := fun w => (f w, Ok tt).

(** [try: body  except ... as e: handler(e)]; the handler tells the
    [except] clauses apart by the class of [e]. *)
Definition try_except {A : Type} (body : M A) (handler : exn -> M A) : M A :=
  fun w =>
    match body w with
    | (w', Ok a) => (w', Ok a)
    | (w', Raise e) => handler e w'
    end.

Declare Scope monad_scope.
Delimit Scope monad_scope with monad.
Notation "x <- m ;; k" := (bind m (fun x => k))
  (at level 61, m at next level, right associativity) : monad_scope.
Notation "m ;;; k" := (bind m (fun _ => k))
  (at level 61, right associativity) : monad_scope.
Open Scope monad_scope.

(** [for x in xs: body(x)] *)
Fixpoint for_each {A : Type} (xs : list A) (body : A -> M unit) : M unit :=
  match xs with
  | [] => ret tt
  | x :: xs' => body x ;;; for_each xs' body
  end.

(** How the thread stands after at most [fuel] iterations of its loop: it
    has left the loop and cleaned up, an exception has escaped from the loop
    body, or it is still looping. *)
Inductive outcome : Type :=
| Exited (w : monitor)
| Crashed (w : monitor) (e : exn)
| Running (w : monitor).

(** ** HTTP client *)

(** [str(n)] for a Python [int]. *)
Definition str_int (n : Z) : text := NilZero.string_of_int (Z.to_int n).

Definition full_url (ip : text) (port : Z) (url : text) : text :=
  let url_path := lstrip "/" url in
  "http://" ++ ip ++ ":" ++ str_int port ++ "/" ++ url_path.

Section Program.

Variable W : world.

Definition post_request (ip : text) (port : Z) (url card : text)
                        (w : monitor) : request :=
  mkRequest (full_url ip port url)
            [("card" : text, card); ("timestamp" : text, isoformat_now W (now w))]
            [("Content-Type" : text, "application/json" : text)]
            HTTP_TIMEOUT.

(** [requests.post(full_url, json=payload, headers=..., timeout=...)] *)
Definition do_post (r : request) : M Z :=
  fun w => (log_post r w, requests_post W (List.length (posted w)) r).

Definition send_card_http (ip : text) (port : Z) (url card : text) : M bool :=
  try_except
    (fun w =>
       (response_status_code <- do_post (post_request ip port url card w) ;;
        let success := (200 <=? response_status_code)
                       && (response_status_code <? 300) in
        ret success) w)%Z
    (fun e => ret false).

(** ** One read cycle of [SerialMonitor.run] *)

Variable config : Config.     (* self.config *)

(** PRIORITY 1: hardware alarms. *)
Definition alarm_body (w : monitor) (alarm_msg : text) : monitor :=
  let w := schedule_once (on_error ("ALARM: " ++ alarm_msg)) w in
  if contains "card not read" (lower alarm_msg)
     || contains "e3" (lower alarm_msg)
  then schedule_once (on_card ("FAIL: " ++ alarm_msg) false) w
  else w.

Definition alarm_pass (w : monitor) : monitor :=
  let alarm_matches := findall ALARM_PATTERN (text_buffer w) in
  match alarm_matches with
  | [] => w
  | _ :: _ =>
      let w := fold_left alarm_body alarm_matches w in
      set_buffer (sub ALARM_PATTERN "" (text_buffer w)) w
  end.

(** PRIORITY 2: warning codes. *)
Definition warning_body (w : monitor) (warning_code : text) : monitor :=
  schedule_once (on_error ("Warning: " ++ warning_code)) w.

Definition warning_pass (w : monitor) : monitor :=
  let warning_matches := findall WARNING_PATTERN (text_buffer w) in
  match warning_matches with
  | [] => w
  | _ :: _ =>
      let w := fold_left warning_body warning_matches w in
      set_buffer (sub WARNING_PATTERN "" (text_buffer w)) w
  end.

(** PRIORITY 3: failed card reads. *)
Definition failed_body (w : monitor) (_ : text) : monitor :=
  schedule_once (on_card "FAIL: Unreadable" false) w.

Definition failed_pass (w : monitor) : monitor :=
  let failed_reads := findall FAILED_READ_PATTERN (text_buffer w) in
  match failed_reads with
  | [] => w
  | _ :: _ =>
      let w := fold_left failed_body failed_reads w in
      set_buffer (sub FAILED_READ_PATTERN "" (text_buffer w)) w
  end.

(** [xs[-1]] *)
Definition last_item {A : Type} (xs : list A) : M A :=
  match rev xs with
  | x :: _ => ret x
  | [] => raise IndexError
  end.

(** Successful card reads: trim to the tail after the last match, then
    send and notify each card. *)
Definition card_body (card : text) : M unit :=
  _success <- send_card_http (ip config) (port config) (url config) card ;;
  exec (schedule_once (on_card card true)).

Definition card_pass : M unit :=
  fun w =>
    let cards := parse_cards_from_buffer (text_buffer w) in
    match cards with
    | [] => ret tt w
    | _ :: _ =>
        (last_match <- last_item (finditer CARD_PATTERN (text_buffer w)) ;;
         exec (set_buffer (skipn (m_end last_match) (text_buffer w))) ;;;
         for_each cards card_body) w
    end.

(** Limit buffer size. *)
Definition limit_buffer (w : monitor) : monitor :=
  if (2000 <? List.length (text_buffer w))%nat
  then set_buffer (last_chars 1000 (text_buffer w)) w
  else w.

(** Lines 317-388: everything done with the buffer once a chunk has been
    appended to it. *)
Definition four_passes : M unit :=
  exec alarm_pass ;;;
  exec warning_pass ;;;
  exec failed_pass ;;;
  card_pass.

Definition classify : M unit :=
  four_passes ;;;
  exec limit_buffer.

(** [chunk.decode('ascii', errors='ignore')] *)
Definition decode_ascii_ignore (chunk : list ascii) : text :=
  filter (fun b => (code b <? 128)%nat) chunk.

(** [self.ser.in_waiting] and [self.ser.read(n)] *)
Definition in_waiting : M nat :=
  fun w => (w, ser_in_waiting W (now w)).

Definition read (n : nat) : M (list ascii) :=
  fun w => (w, ser_read W (now w) n).

(** The body of the second [try] of the loop. *)
Definition read_cycle : M unit :=
  n <- in_waiting ;;
  (if (0 <? n)%nat then
     chunk <- read n ;;
     exec (fun w => set_buffer (text_buffer w ++ decode_ascii_ignore chunk) w) ;;;
     classify
   else ret tt) ;;;
  exec (sleep POLL_DELAY).

(** ** The loop of [SerialMonitor.run] *)

Variable port_name : text.    (* self.port *)

(** [not self.ser or not self.ser.is_open] *)
Definition needs_open (w : monitor) : bool :=
  match ser w with
  | None => true
  | Some h => negb (is_open h)
  end.

Definition open_error_message (e : exn) : text :=
  let error_msg := exn_str e in
  if contains "Permission denied" error_msg then
    "Permission denied. Run: sudo usermod -a -G dialout $USER"
  else if contains "No such file" error_msg then
    "Device not found: " ++ port_name
  else
    "Serial error: " ++ error_msg.

(** [self.ser = serial.Serial(...)]: the assignment happens only when the
    constructor returns. *)
Definition open_serial : M unit :=
  fun w =>
    match serial_Serial W (now w) with
    | Ok _ => (set_ser (Some (mkSerial true)) (count_open w), Ok tt)
    | Raise e => (count_open w, Raise e)
    end.

(** The first [try] of the loop; the result is [false] when the iteration
    ends there with [continue]. *)
Definition connect : M bool :=
  try_except
    (open_serial ;;;
     exec (schedule_once on_connected) ;;;
     exec (set_buffer "") ;;;
     ret true)
    (fun e =>
       if is_SerialException e then
         exec (schedule_once (on_error (open_error_message e))) ;;;
         exec (sleep RETRY_DELAY) ;;;
         ret false
       else
         exec (schedule_once (on_error (exn_str e))) ;;;
         exec (sleep RETRY_DELAY) ;;;
         ret false).

(** [self.ser.close()] with its exceptions passed over. *)
Definition close (w : monitor) : monitor :=
  match ser w with
  | Some _ => close_handle w
  | None => w
  end.

(** The second [try] of the loop with its two handlers. *)
Definition read_block : M unit :=
  try_except read_cycle
    (fun e =>
       if is_SerialException e then
         exec (schedule_once on_disconnected) ;;;
         exec (fun w => match ser w with
                        | Some _ => set_ser None (close w)
                        | None => w
                        end) ;;;
         exec (sleep RETRY_DELAY)
       else
         exec (sleep ERROR_PAUSE)).

(** One pass through the body of [while not self._stop_event.is_set()]. *)
Definition iteration : M unit :=
  fun w =>
    (go_on <- (if needs_open w then connect else ret true) ;;
     if go_on then read_block else ret tt) w.

(** [self._stop_event.is_set()]: the event is set by [stop()] and never
    cleared. *)
Definition stop_is_set (w : monitor) : bool :=
  match stop_time W with
  | Some t => (t <=? now w)%Z
  | None => false
  end.

(** The cleanup after the loop. *)
Definition cleanup (w : monitor) : monitor := close w.

Fixpoint run_loop (fuel : nat) (w : monitor) : outcome :=
  if stop_is_set w then Exited (cleanup w)
  else
    match fuel with
    | O => Running w
    | S fuel' =>
        match iteration w with
        | (w', Ok _) => run_loop fuel' w'
        | (w', Raise e) => Crashed w' e
        end
    end.

(** The state [run] starts from: no handle, an empty buffer. *)
Definition initial : monitor := mkMonitor None [] [] [] 0 0 0.

Definition run (fuel : nat) : outcome := run_loop fuel initial.

End Program.

(** * Vocabulary of the properties

    Functions and predicates in which the properties are stated, and the
    sample buffers and worlds they are tried on. *)

(** A world in which the port opens, nothing ever arrives, every post is
    answered 200 and nobody stops the thread. *)
Definition calm_world : world :=
  mkWorld (fun _ => Ok tt) (fun _ => Ok 0) (fun _ _ => Ok [])
          (fun _ _ => Ok 200%Z) (fun _ => "2024-01-01T00:00:00+00:00") None.

(** A connected monitor holding the buffer [b], nothing queued yet. *)
Definition holding (b : text) : monitor :=
  mkMonitor (Some (mkSerial true)) b [] [] 0 1 0.

(** Whether the transport's answer is a response with a 2xx status. *)
Definition status_ok (r : res Z) : bool :=
  match r with
  | Ok status => ((200 <=? status) && (status <? 300))%Z
  | Raise _ => false
  end.

(** What the card pass leaves in the buffer. *)
Definition tail_after_last_card (b : text) : text :=
  match rev (finditer CARD_PATTERN b) with
  | [] => b
  | last_match :: _ => skipn (m_end last_match) b
  end.

(** A monitor with more notifications queued and nothing else changed. *)
Definition add_notes (ns : list notification) (w : monitor) : monitor :=
  mkMonitor (ser w) (text_buffer w) (scheduled w ++ ns) (posted w) (now w)
            (opened w) (closed w).

(** The condition under which an alarm also counts as a failed read. *)
Definition mentions_failed_read (alarm_msg : text) : bool :=
  contains "card not read" (lower alarm_msg) || contains "e3" (lower alarm_msg).

(** What one alarm match queues. *)
Definition alarm_notes (alarm_msg : text) : list notification :=
  on_error ("ALARM: " ++ alarm_msg)
  :: (if mentions_failed_read alarm_msg
      then [on_card ("FAIL: " ++ alarm_msg) false]
      else []).

(** The buffer after each pass, as a function of the buffer the cycle
    starts from. *)
Definition after_alarms (b : text) : text := sub ALARM_PATTERN "" b.

Definition after_warnings (b : text) : text :=
  sub WARNING_PATTERN "" (after_alarms b).

Definition after_failed (b : text) : text :=
  sub FAILED_READ_PATTERN "" (after_warnings b).

Definition buffer_after_passes (b : text) : text :=
  tail_after_last_card (after_failed b).

(** The notifications of a whole read cycle, in the order they are
    queued. *)
Definition notes_of_pass (b : text) : list notification :=
  flat_map alarm_notes (findall ALARM_PATTERN b)
  ++ flat_map (fun c => [on_error ("Warning: " ++ c)])
              (findall WARNING_PATTERN (after_alarms b))
  ++ flat_map (fun _ => [on_card "FAIL: Unreadable" false])
              (findall FAILED_READ_PATTERN (after_warnings b))
  ++ map (fun c => on_card c true) (parse_cards_from_buffer (after_failed b)).

(** The spec's sample buffer, and the same two tokens each with its own
    pair of spaces. *)
Definition two_cards_sharing_a_space : text :=
  " [Game]<Card:4S> [Game]<Card:KH> ".

Definition two_cards_own_spaces : text :=
  " [Game]<Card:4S>  [Game]<Card:KH> ".

(** The ranks, suits and tags of the card pattern, in upper case. *)
Definition RANKS : list text :=
  map list_ascii_of_string
      ["2"; "3"; "4"; "5"; "6"; "7"; "8"; "9"; "10"; "T"; "J"; "Q"; "K"; "A"].

Definition SUITS : list text :=
  map list_ascii_of_string ["C"; "D"; "H"; "S"].

Definition TAGS : list text :=
  map list_ascii_of_string ["Game"; "Manual Burn Cards"].

(** A list of upper-case names in either letter case. *)
Definition any_case (names : list text) : list text :=
  names ++ map lower names.

(** The token the shoe sends for a card. *)
Definition card_token (tag rank suit : text) : text :=
  " [" ++ tag ++ "]<Card:" ++ rank ++ suit ++ "> ".

(** The canonical rank: upper case, with ten as T. *)
Definition canonical_rank (rank : text) : text :=
  if text_eqb (upper rank) "10" then "T" else upper rank.

(** Membership of a text in a list of texts, by computation. *)
Definition mem (t : text) (l : list text) : bool := existsb (text_eqb t) l.

(** The thirteen ranks of a card code, and the fifty-two codes, suit
    first. *)
Definition CODE_RANKS : list text :=
  map list_ascii_of_string
      ["2"; "3"; "4"; "5"; "6"; "7"; "8"; "9"; "T"; "J"; "Q"; "K"; "A"].

Definition DECK : list text :=
  flat_map (fun suit => map (fun rank => suit ++ rank) CODE_RANKS) SUITS.

(** The character that stands in a card code for each spelling of a rank
    and of a suit, written out. *)
Definition RANK_LETTERS : list (text * ascii) :=
  map (fun e => (list_ascii_of_string (fst e), snd e))
      [("2", "2"%char); ("3", "3"%char); ("4", "4"%char); ("5", "5"%char);
       ("6", "6"%char); ("7", "7"%char); ("8", "8"%char); ("9", "9"%char);
       ("10", "T"%char); ("T", "T"%char); ("t", "T"%char); ("J", "J"%char);
       ("j", "J"%char); ("Q", "Q"%char); ("q", "Q"%char); ("K", "K"%char);
       ("k", "K"%char); ("A", "A"%char); ("a", "A"%char)].

Definition SUIT_LETTERS : list (text * ascii) :=
  map (fun e => (list_ascii_of_string (fst e), snd e))
      [("C", "C"%char); ("c", "C"%char); ("D", "D"%char); ("d", "D"%char);
       ("H", "H"%char); ("h", "H"%char); ("S", "S"%char); ("s", "S"%char)].

Definition letter_of (table : list (text * ascii)) (name : text)
  : option ascii :=
  option_map snd (find (fun e => text_eqb (fst e) name) table).

Definition is_letter (o : option ascii) (c : ascii) : bool :=
  match o with
  | Some x => Ascii.eqb x c
  | None => false
  end.

(** The card pattern finds exactly one match in [t], with the given groups,
    and the code made from it is [card]. *)
Definition extracts (t rank suit card : text) : bool :=
  match finditer CARD_PATTERN t with
  | [m] => text_eqb (group m 1) rank && text_eqb (group m 2) suit
           && text_eqb (card_of_match m) card
  | _ => false
  end.

(** Extraction and code from a token and from the token written with the
    letters of its code, checked by computation. *)
Definition round_trip_check (tag rank suit : text) : bool :=
  match letter_of RANK_LETTERS rank, letter_of SUIT_LETTERS suit with
  | Some rk, Some st =>
      mem [st; rk] DECK
      && extracts (card_token tag rank suit) rank suit [st; rk]
      && extracts (card_token tag [rk] [st]) [rk] [st] [st; rk]
      && is_letter (letter_of RANK_LETTERS [rk]) rk
      && is_letter (letter_of SUIT_LETTERS [st]) st
      && text_eqb (upper suit) [st]
      && text_eqb (canonical_rank rank) [rk]
  | _, _ => false
  end.

(** None of the four patterns matches anywhere in [b]. *)
Definition no_token (b : text) : Prop :=
  finditer ALARM_PATTERN b = [] /\ finditer WARNING_PATTERN b = []
  /\ finditer FAILED_READ_PATTERN b = [] /\ finditer CARD_PATTERN b = [].

(** A stretch of 2500 characters without any token. *)
Definition noise : text := repeat "x"%char 2500.

(** [frag], written in lower case, occurs in [msg] in some letter case. *)
Definition occurs_in_any_case (frag msg : text) : Prop :=
  exists pre mid post, msg = pre ++ mid ++ post /\ lower mid = frag.

(** The notifications made by [on_error]. *)
Definition is_on_error (n : notification) : bool :=
  match n with
  | on_error _ => true
  | _ => false
  end.

(** The characters matched by the scan, all matches together. *)
Definition matched_length (ms : list Match) : nat :=
  list_sum (map (fun m => m_end m - m_start m) ms).

(** The spec's sample alarm. *)
Definition one_alarm : text := " [Game]<Alarm:E3 Card Not Read> ".

(** The state after the handler of a serial read error. *)
Definition after_read_error (w : monitor) : monitor :=
  sleep RETRY_DELAY
        (match ser (schedule_once on_disconnected w) with
         | Some _ => set_ser None (close (schedule_once on_disconnected w))
         | None => schedule_once on_disconnected w
         end).

(** The state after a failed attempt to open the port. *)
Definition after_open_error (port_name : text) (e : exn) (w : monitor) : monitor :=
  sleep RETRY_DELAY
        (schedule_once
           (on_error (if is_SerialException e
                      then open_error_message port_name e
                      else exn_str e))
           (count_open w)).

(** The state after a successful one. *)
Definition after_open (w : monitor) : monitor :=
  set_buffer [] (schedule_once on_connected
                   (set_ser (Some (mkSerial true)) (count_open w))).

(** A shoe that is unplugged while connected: the driver raises a serial
    error on every call; stop is requested after five seconds. *)
Definition unplugged_world : world :=
  mkWorld (fun _ => Raise (SerialException "could not open port"))
          (fun _ => Raise (SerialException "device disconnected"))
          (fun _ _ => Raise (SerialException "device disconnected"))
          (fun _ _ => Ok 200%Z) (fun _ => "2024-01-01T00:00:00+00:00")
          (Some 5000%Z).

(** A driver whose calls fail with an error that is not a serial one. *)
Definition faulty_world : world :=
  mkWorld (fun _ => Ok tt)
          (fun _ => Raise (OtherError "Input/output error"))
          (fun _ _ => Ok [])
          (fun _ _ => Ok 200%Z) (fun _ => "2024-01-01T00:00:00+00:00")
          (Some 5000%Z).

(** [SERIAL_PORT] *)
Definition DEVICE : text := "/dev/ttyUSB0".

(** The spec's bound: a thread that is asked to stop while it waits out the
    retry delay after a failed open has left the loop one polling interval
    after the request. *)
Definition stops_within_one_poll (W : world) (config : Config)
                                 (port_name : text) (w : monitor) : Prop :=
  forall t_req e w',
    stop_time W = Some t_req ->
    needs_open w = true ->
    serial_Serial W (now w) = Raise e ->
    (now w < t_req <= now w + RETRY_DELAY)%Z ->
    run_loop W config port_name 1 w = Exited w' ->
    (now w' - t_req <= POLL_DELAY)%Z.

(** No shoe is plugged in, and stop is requested one millisecond after the
    first attempt to open the port. *)
Definition stopped_early_world : world :=
  mkWorld (fun _ => Raise (SerialException
                      "[Errno 2] No such file or directory: '/dev/ttyUSB0'"))
          (fun _ => Ok 0) (fun _ _ => Ok [])
          (fun _ _ => Ok 200%Z) (fun _ => "2024-01-01T00:00:00+00:00")
          (Some 1%Z).

(** One more character in front of the first of a list of stretches. *)
Definition cons_head (c : ascii) (segs : list text) : list text :=
  match segs with
  | [] => [[c]]
  | g :: gs => (c :: g) :: gs
  end.

(** The stretches of text that [sub] keeps: before the first match, between
    consecutive matches, after the last; the scan is that of [sub_from]. *)
Fixpoint kept_from (p : pattern) (skip : nat) (s : text) : list text :=
  match s with
  | [] => [[]]
  | c :: s' =>
      match skip with
      | S n => kept_from p n s'
      | O =>
          match match_here p s with
          | Some (S n, _) => [] :: kept_from p n s'
          | Some (O, _) => [] :: cons_head c (kept_from p 0 s')
          | None => cons_head c (kept_from p 0 s')
          end
      end
  end.

Definition kept (p : pattern) (s : text) : list text := kept_from p 0 s.

(** The text of [s] that lies between the matches [ms] of a scan: from
    [pos] to the start of the first match, from the end of each match to the
    start of the next, and from the end of the last match on. *)
Fixpoint between_matches (ms : list Match) (pos : nat) (s : text)
  : list text :=
  match ms with
  | [] => [skipn pos s]
  | m :: ms' =>
      firstn (m_start m - pos) (skipn pos s) :: between_matches ms' (m_end m) s
  end.

(** The stretches with the matched texts put back between them. *)
Fixpoint weave (gaps : list text) (ms : list Match) : text :=
  match gaps with
  | [] => []
  | g :: gaps' =>
      match ms with
      | [] => g
      | m :: ms' => g ++ group0 m ++ weave gaps' ms'
      end
  end.

(** A pass with the pattern [p] turns [b] into [b'] by taking out the
    matches that [finditer] reports: [b] is the stretches between these
    matches with the matched texts in their places, [b'] is the stretches
    alone, and no stretch holds a match of [p]. *)
Definition removes_its_matches (p : pattern) (b b' : text) : Prop :=
  let ms := finditer p b in
  let gaps := between_matches ms 0 b in
  List.length gaps = S (List.length ms)
  /\ b = weave gaps ms
  /\ b' = concat gaps
  /\ Forall (fun g => finditer p g = []) gaps.

(** Two alarms with a single space between them, followed by a card. *)
Definition alarm_before_card : text :=
  "  [Game]<Alarm:E1> [Game]<Alarm:E2>  [Game]<Card:4S> ".

(** Whether every match of [r] takes at least one character. *)
Fixpoint consumes (r : regex) : bool :=
  match r with
  | Eps => false
  | Lit _ | Class _ _ | PlusClass _ _ => true
  | Seq r1 r2 => consumes r1 || consumes r2
  | Alt r1 r2 => consumes r1 && consumes r2
  | Group r1 => consumes r1
  end.

(** No match of the pattern starts at any position of [g] when [g] is
    followed by [rest]. *)
Fixpoint quiet (p : pattern) (g rest : text) : Prop :=
  match g with
  | [] => True
  | _ :: g' => match_here p (g ++ rest) = None /\ quiet p g' rest
  end.

(** The spec's invariant for a buffer [b]: once the warnings are removed no
    alarm is left in the buffer, and once the failed reads are removed
    neither an alarm nor a warning is. *)
Definition higher_classes_gone (b : text) : Prop :=
  let w2 := warning_pass (alarm_pass (holding b)) in
  let w3 := failed_pass w2 in
  finditer ALARM_PATTERN (text_buffer w2) = []
  /\ finditer ALARM_PATTERN (text_buffer w3) = []
  /\ finditer WARNING_PATTERN (text_buffer w3) = [].

(** A warning code sent in the middle of an alarm message. *)
Definition alarm_split_by_warning : text := " [Game]<Alarm:E3 <W0x01>Jam> ".

(** ** Vocabulary of the further properties *)

(** What a pattern means: [sem ic r u gs] says that the text [u] is matched
    by [r], with the groups [gs] in the order they close. *)
Inductive sem (ic : bool) : regex -> text -> list text -> Prop :=
| sem_Eps : sem ic Eps [] []
| sem_Lit (c x : ascii) :
    lit_match ic c x = true -> sem ic (Lit c) [x] []
| sem_Class (n : bool) (rs : list (ascii * ascii)) (x : ascii) :
    class_match ic n rs x = true -> sem ic (Class n rs) [x] []
| sem_PlusClass (n : bool) (rs : list (ascii * ascii)) (u : text) :
    u <> [] -> forallb (class_match ic n rs) u = true ->
    sem ic (PlusClass n rs) u []
| sem_Seq (r1 r2 : regex) (u1 u2 : text) (g1 g2 : list text) :
    sem ic r1 u1 g1 -> sem ic r2 u2 g2 ->
    sem ic (Seq r1 r2) (u1 ++ u2) (g1 ++ g2)
| sem_Alt_l (r1 r2 : regex) (u : text) (g : list text) :
    sem ic r1 u g -> sem ic (Alt r1 r2) u g
| sem_Alt_r (r1 r2 : regex) (u : text) (g : list text) :
    sem ic r2 u g -> sem ic (Alt r1 r2) u g
| sem_Group (r : regex) (u : text) (g : list text) :
    sem ic r u g -> sem ic (Group r) u (g ++ [u]).

(** The two character classes of the card pattern. *)
Definition RANK_CLASS : list (ascii * ascii) :=
  [("2", "9")%char; one "T"; one "J"; one "Q"; one "K"; one "A"].

Definition SUIT_CLASS : list (ascii * ascii) :=
  [one "C"; one "D"; one "H"; one "S"].

(** A hexadecimal digit in either case. *)
Definition is_hex (c : ascii) : bool :=
  between "0" "9" c || between "A" "F" c || between "a" "f" c.

(** Sample buffers with an alarm and a warning in them. *)
Definition alarm_then_warning : text :=
  "x [GameAlarm]<Alarm:E5 Door Open> <W0x1F> ".

(** The card named in the JSON body of a request. *)
Definition posted_card (r : request) : text :=
  match req_json r with
  | (_, card) :: _ => card
  | [] => []
  end.

(** The cards of the card notifications of a queue, in order. *)
Definition notified_cards (ns : list notification) : list text :=
  flat_map (fun n => match n with
                     | on_card card true => [card]
                     | _ => []
                     end) ns.

(** The monitor an outcome speaks of. *)
Definition state_of (o : outcome) : monitor :=
  match o with
  | Exited w => w
  | Crashed w _ => w
  | Running w => w
  end.

(** What holds of the buffer between two iterations of the loop. *)
Definition buffer_ok (b : text) : Prop :=
  List.length b <= 2000
  /\ Forall (fun c => code c < 128) b
  /\ finditer CARD_PATTERN b = [].

(** No shoe is plugged in and nobody stops the thread. *)
Definition absent_shoe_world : world :=
  mkWorld (fun _ => Raise (SerialException
                      "[Errno 2] No such file or directory: '/dev/ttyUSB0'"))
          (fun _ => Ok 0) (fun _ _ => Ok [])
          (fun _ _ => Ok 200%Z) (fun _ => "2024-01-01T00:00:00+00:00")
          None.

(** The shoe is plugged in after the first attempt to open the port has
    failed; it has nothing to say yet. *)
Definition late_shoe_world : world :=
  mkWorld (fun t => if (t <? 2500)%Z
                    then Raise (SerialException
                           "[Errno 13] Permission denied: '/dev/ttyUSB0'")
                    else Ok tt)
          (fun _ => Ok 0) (fun _ _ => Ok [])
          (fun _ _ => Ok 200%Z) (fun _ => "2024-01-01T00:00:00+00:00")
          None.

(** ** The configuration file

    A file holds text that [json.load] parses to a value or rejects; the
    values are kept as far as [Config] looks at them.  Opening a file,
    writing to it and replacing one can fail, as the file system decides. *)

Inductive json : Type :=
| JStr (s : text)
| JInt (n : Z)
| JOther.      (* null, a bool, a float, an array, an object *)

Inductive file : Type :=
| JObject (members : list (text * json))
    (* text that json.load parses to an object: its members, in order *)
| JNotObject   (* text that json.load parses to anything else *)
| Garbage.     (* text that json.load rejects *)

Record filesystem : Type := mkFS {
  files : text -> option file;            (* what is at a path, if anything *)
  open_w_fails : text -> bool;            (* open(path, 'w') raises *)
  dump_fails : text -> option file;
    (* json.dump into the file opened at the path, or the close of that
       file, raises, and this is what the file is left with *)
  open_r_fails : text -> bool;            (* open(path, 'r') raises *)
  replace_fails : text -> text -> bool    (* os.replace(src, dst) raises *)
}.

(** The file at [path] created or overwritten with the content [f]. *)
Definition write_file (path : text) (f : file) (fs : filesystem) : filesystem :=
  mkFS (fun q => if text_eqb q path then Some f else files fs q)
       (open_w_fails fs) (dump_fails fs) (open_r_fails fs) (replace_fails fs).

(** [with open(path, 'w') as f: json.dump(v, f, indent=2)], when the file is
    open and the writing goes through. *)
Definition write_json (path : text) (members : list (text * json))
                      (fs : filesystem) : filesystem :=
  write_file path (JObject members) fs.

(** [os.replace(src, dst)], once it is allowed. *)
Definition os_replace (src dst : text) (fs : filesystem) : filesystem :=
  mkFS (fun q => if text_eqb q dst then files fs src
                 else if text_eqb q src then None
                 else files fs q)
       (open_w_fails fs) (dump_fails fs) (open_r_fails fs) (replace_fails fs).

(** [asdict(config)] *)
Definition asdict (config : Config) : list (text * json) :=
  [("ip" : text, JStr (ip config));
   ("port" : text, JInt (port config));
   ("url" : text, JStr (url config))].

Definition save_config (config : Config) (filepath : text) (fs : filesystem)
  : filesystem * bool :=
  let temp_path := filepath ++ ".tmp" in
  if open_w_fails fs temp_path then (fs, false)
  else
    match dump_fails fs temp_path with
    | Some left_over => (write_file temp_path left_over fs, false)
    | None =>
        let fs := write_json temp_path (asdict config) fs in
        if replace_fails fs temp_path filepath then (fs, false)
        else (os_replace temp_path filepath fs, true)
    end.

(** A [Config] object as the call of [Config] with the members of the file
    as keywords builds it: the fields hold whatever values the file gave, of
    whatever type. *)
Record ConfigObject : Type := mkConfigObject {
  ip_value : json;
  port_value : json;
  url_value : json
}.

(** The object whose fields have the types that [Config] declares. *)
Definition instance (config : Config) : ConfigObject :=
  mkConfigObject (JStr (ip config)) (JInt (port config)) (JStr (url config)).

(** [data.get(key, default)] on the dict that [json.load] builds from the
    members of an object: of two members with the same key the later one
    stays. *)
Definition dict_get (key : text) (default : json) (data : list (text * json))
  : json :=
  match find (fun kv => text_eqb (fst kv) key) (rev data) with
  | Some kv => snd kv
  | None => default
  end.

Definition FIELDS : list text := map list_ascii_of_string ["ip"; "port"; "url"].

(** [Config] called with the keywords of [data]: [None] stands for the
    [TypeError] for a keyword that is not a field. *)
Definition Config_kwargs (data : list (text * json)) : option ConfigObject :=
  if forallb (fun kv => mem (fst kv) FIELDS) data then
    Some (mkConfigObject
            (dict_get "ip" (JStr (ip default_Config)) data)
            (dict_get "port" (JInt (port default_Config)) data)
            (dict_get "url" (JStr (url default_Config)) data))
  else None.

Definition load_config (filepath : text) (fs : filesystem)
  : filesystem * ConfigObject :=
  let fall_back :=
    let config := default_Config in
    (fst (save_config config filepath fs), instance config) in
  match files fs filepath with
  | Some f =>
      if open_r_fails fs filepath then fall_back
      else
        match f with
        | JObject data =>
            match Config_kwargs data with
            | Some config => (fs, config)
            | None => fall_back
            end
        | JNotObject | Garbage => fall_back
        end
  | None => fall_back
  end.

(** A file system on which nothing fails, holding the given file at
    shoe.json. *)
Definition disk (f : option file) : filesystem :=
  mkFS (fun q => if text_eqb q "shoe.json" then f else None)
       (fun _ => false) (fun _ => None) (fun _ => false) (fun _ _ => false).

(** A configuration other than the default one. *)
Definition table_7 : Config := mkConfig "10.0.0.7" 8080 "api/card".

(** The field of a [Config] object with a given name. *)
Definition field_of (key : text) (config : ConfigObject) : json :=
  if text_eqb key "ip" then ip_value config
  else if text_eqb key "port" then port_value config
  else url_value config.

(** A file that names the port twice and nothing else. *)
Definition port_twice : list (text * json) :=
  [("port" : text, JStr "8000"); ("port" : text, JInt 8000)].

(** ** The observer: [StatusIndicator] and [ShoeMonitorApp]

    Of the widgets only what the methods read and write is kept: the colour
    of the dot and the text of the label of the status indicator, the list
    [history] and the labels of [history_container], the text and the
    [disabled] flag of the three inputs, the [disabled] flag of the Save
    button, and the text and colour of the Start/Stop button. *)

Definition SERIAL_BAUDRATE : Z := 9600.
Definition SERIAL_TIMEOUT : Z := 2.

(** The colours the methods use. *)
Inductive colour : Type :=
| RED           (* (1, 0, 0, 1) *)
| DOT_GREEN     (* (0, 0.8, 0, 1) *)
| OK_GREEN      (* (0.18, 0.62, 0.28, 1) *)
| RICH_RED.     (* (0.82, 0.18, 0.18, 1) *)

(** [str.isspace] on one character: the white space among the first 256
    code points. *)
Definition isspace (c : ascii) : bool :=
  (((9 <=? code c) && (code c <=? 13))
   || ((28 <=? code c) && (code c <=? 32))
   || (code c =? 133) || (code c =? 160))%nat.

Fixpoint lstrip_space (s : text) : text :=
  match s with
  | c :: s' => if isspace c then lstrip_space s' else s
  | [] => []
  end.

(** [s.strip()] *)
Definition strip (s : text) : text :=
  rev (lstrip_space (rev (lstrip_space s))).

Definition isdigit (c : ascii) : bool := between "0" "9" c.

Definition digit_value (c : ascii) : Z := Z.of_nat (code c - 48).

(** The digits of a decimal literal after its first digit: digits, with
    single underscores between them. *)
Fixpoint digits_from (acc : Z) (s : text) : option Z :=
  match s with
  | [] => Some acc
  | c :: s' =>
      if isdigit c then digits_from (acc * 10 + digit_value c) s'
      else if Ascii.eqb c "_" then
        match s' with
        | d :: s'' =>
            if isdigit d then digits_from (acc * 10 + digit_value d) s''
            else None
        | [] => None
        end
      else None
  end.

Definition unsigned (s : text) : option Z :=
  match s with
  | d :: s' => if isdigit d then digits_from (digit_value d) s' else None
  | [] => None
  end.

(** [sys.get_int_max_str_digits()], as Python sets it. *)
Definition MAX_STR_DIGITS : nat := 4300.

(** [int(s)] for a string: white space around, an optional sign, decimal
    digits; [None] stands for [ValueError]. *)
Definition int_of_str (s : text) : option Z :=
  let s := strip s in
  if (MAX_STR_DIGITS <? List.length (filter isdigit s))%nat then None
  else
    match s with
    | c :: s' =>
        if Ascii.eqb c "-" then option_map Z.opp (unsigned s')
        else if Ascii.eqb c "+" then unsigned s'
        else unsigned s
    | [] => None
    end.

Module StatusIndicator.

Record t : Type := mk {
  dot_color : colour;      (* self.dot_color.rgba *)
  label_text : text        (* self.label.text *)
}.

(** The indicator as [__init__] leaves it. *)
Definition init : t := mk RED "Disconnected".

Definition set_connected (connected : bool) (message : text) (s : t) : t :=
  if connected then
    mk DOT_GREEN ("Connected (" ++ DEVICE ++ " @" ++ str_int SERIAL_BAUDRATE ++ ")")
  else
    mk RED (match message with
            | [] => "Disconnected"
            | _ :: _ => message
            end).

End StatusIndicator.

Module ShoeMonitorApp.

(** An entry of [self.history], and a label of the grid made from it. *)
Record entry : Type := mkEntry {
  symbol : text;
  color : colour
}.

Record Label : Type := mkLabel {
  label_text : text;
  label_color : colour
}.

Record TextInput : Type := mkTextInput {
  text_of : text;          (* .text *)
  disabled : bool          (* .disabled *)
}.

Record Button : Type := mkButton {
  button_text : text;           (* .text *)
  background_color : colour     (* .background_color *)
}.

(** The arguments a [SerialMonitor] is made with, but for its [config]:
    that is the application's own [app_config] object, which the thread
    reads each time it sends. *)
Record SerialMonitor : Type := mkSerialMonitor {
  serial_port : text;
  baudrate : Z;
  timeout : Z
}.

Record t : Type := mk {
  app_config : ConfigObject;          (* self.app_config *)
  monitor : option SerialMonitor;     (* self.monitor *)
  is_monitoring : bool;               (* self.is_monitoring *)
  history : list entry;               (* self.history *)
  status_indicator : StatusIndicator.t;
  history_container : list Label;     (* the widgets of the grid *)
  ip_input : TextInput;
  port_input : TextInput;
  url_input : TextInput;
  save_btn_disabled : bool;           (* self.save_btn.disabled *)
  start_stop_btn : Button
}.

(** The application once [__init__] and [build] have run, [load_config]
    having returned a configuration whose fields have the declared
    types. *)
Definition init (config : Config) : t :=
  mk (instance config) None false [] StatusIndicator.init []
     (mkTextInput (ip config) false)
     (mkTextInput (str_int (port config)) false)
     (mkTextInput (url config) false)
     false
     (mkButton "Start" OK_GREEN).

Definition set_status (s : StatusIndicator.t) (a : t) : t :=
  mk (app_config a) (monitor a) (is_monitoring a) (history a) s
     (history_container a) (ip_input a) (port_input a) (url_input a)
     (save_btn_disabled a) (start_stop_btn a).

Definition set_history (h : list entry) (widgets : list Label) (a : t) : t :=
  mk (app_config a) (monitor a) (is_monitoring a) h (status_indicator a)
     widgets (ip_input a) (port_input a) (url_input a)
     (save_btn_disabled a) (start_stop_btn a).

Definition set_app_config (config : ConfigObject) (a : t) : t :=
  mk config (monitor a) (is_monitoring a) (history a) (status_indicator a)
     (history_container a) (ip_input a) (port_input a) (url_input a)
     (save_btn_disabled a) (start_stop_btn a).

Definition set_disabled (d : bool) (i : TextInput) : TextInput :=
  mkTextInput (text_of i) d.

Definition render_history (a : t) : t :=
  set_history (history a)
    (fold_left (fun widgets e => widgets ++ [mkLabel (symbol e) (color e)])
               (history a) [])
    a.

Definition clear_history (a : t) : t := set_history [] [] a.

Definition on_connected (a : t) : t :=
  set_status (StatusIndicator.set_connected true [] (status_indicator a)) a.

Definition on_disconnected (a : t) : t :=
  set_status (StatusIndicator.set_connected false "Disconnected (retrying...)"
                (status_indicator a)) a.

Definition on_error (message : text) (a : t) : t :=
  set_status (StatusIndicator.set_connected false
                ("Error: " ++ firstn 30 message) (status_indicator a)) a.

Definition on_card_received (card : text) (success : bool) (a : t) : t :=
  let e :=
    if startswith "FAIL:" card then mkEntry "[FAIL]" RED
    else if negb (text_eqb card []) && success then mkEntry "[OK]" OK_GREEN
    else mkEntry "[X]" RED in
  render_history (set_history (history a ++ [e]) (history_container a) a).

(** The inputs as both [toggle_monitoring] and [save_configuration] check
    them: [None] when the method logs an error and returns. *)
Definition checked_inputs (a : t) : option Config :=
  let ip := strip (text_of (ip_input a)) in
  let port_text := strip (text_of (port_input a)) in
  let url := strip (text_of (url_input a)) in
  if text_eqb ip [] || text_eqb port_text [] || text_eqb url [] then None
  else
    match int_of_str port_text with
    | Some port =>
        if negb ((1 <=? port) && (port <=? 65535))%Z then None
        else Some (mkConfig ip port url)
    | None => None
    end.

Definition toggle_monitoring (a : t) : t :=
  if negb (is_monitoring a) then
    match checked_inputs a with
    | None => a
    | Some config =>
        mk (instance config)
           (Some (mkSerialMonitor DEVICE SERIAL_BAUDRATE SERIAL_TIMEOUT))
           true (history a) (status_indicator a) (history_container a)
           (set_disabled true (ip_input a))
           (set_disabled true (port_input a))
           (set_disabled true (url_input a))
           true
           (mkButton "Stop" RICH_RED)
    end
  else
    mk (app_config a) None false (history a)
       (StatusIndicator.set_connected false "Stopped" (status_indicator a))
       (history_container a)
       (set_disabled false (ip_input a))
       (set_disabled false (port_input a))
       (set_disabled false (url_input a))
       false
       (mkButton "Start" OK_GREEN).

Definition save_configuration (a : t) (fs : filesystem) : t * filesystem :=
  match checked_inputs a with
  | None => (a, fs)
  | Some config =>
      (set_app_config (instance config) a,
       fst (save_config config "shoe.json" fs))
  end.

End ShoeMonitorApp.

(** One scheduled callback run by the clock, and a queue of them run in the
    order in which they were scheduled. *)
Definition deliver (a : ShoeMonitorApp.t) (n : notification) : ShoeMonitorApp.t :=
  match n with
  | on_connected => ShoeMonitorApp.on_connected a
  | on_disconnected => ShoeMonitorApp.on_disconnected a
  | on_card card success => ShoeMonitorApp.on_card_received card success a
  | on_error message => ShoeMonitorApp.on_error message a
  end.

Definition deliver_all (ns : list notification) (a : ShoeMonitorApp.t)
  : ShoeMonitorApp.t :=
  fold_left deliver ns a.

(** What the monitor puts in a card notification: a code of the deck with
    [True], a text beginning with FAIL: with [False]. *)
Definition expected_note (n : notification) : Prop :=
  match n with
  | on_card card true => In card DECK
  | on_card card false => startswith "FAIL:" card = true
  | _ => True
  end.

(** The entries that the card notifications of a queue add to the
    history. *)
Definition entries_of (ns : list notification) : list ShoeMonitorApp.entry :=
  flat_map (fun n => match n with
                     | on_card _ true => [ShoeMonitorApp.mkEntry "[OK]" OK_GREEN]
                     | on_card _ false => [ShoeMonitorApp.mkEntry "[FAIL]" RED]
                     | _ => []
                     end) ns.

(** What holds of what the application shows, between two callbacks. *)
Definition app_ok (a : ShoeMonitorApp.t) : Prop :=
  ShoeMonitorApp.history_container a
  = map (fun e => ShoeMonitorApp.mkLabel (ShoeMonitorApp.symbol e)
                                         (ShoeMonitorApp.color e))
        (ShoeMonitorApp.history a)
  /\ List.length (StatusIndicator.label_text (ShoeMonitorApp.status_indicator a))
     <= 37
  /\ (StatusIndicator.dot_color (ShoeMonitorApp.status_indicator a) = DOT_GREEN
      <-> StatusIndicator.label_text (ShoeMonitorApp.status_indicator a)
          = "Connected (/dev/ttyUSB0 @9600)").

(** A configuration that [checked_inputs] lets through. *)
Definition valid_config (config : Config) : Prop :=
  (1 <= port config <= 65535)%Z
  /\ ip config <> [] /\ url config <> []
  /\ strip (ip config) = ip config /\ strip (url config) = url config.

(** What holds of the controls of the application between two events. *)
Definition controls_ok (a : ShoeMonitorApp.t) : Prop :=
  (ShoeMonitorApp.is_monitoring a = true <-> ShoeMonitorApp.monitor a <> None)
  /\ ShoeMonitorApp.disabled (ShoeMonitorApp.ip_input a)
     = ShoeMonitorApp.is_monitoring a
  /\ ShoeMonitorApp.disabled (ShoeMonitorApp.port_input a)
     = ShoeMonitorApp.is_monitoring a
  /\ ShoeMonitorApp.disabled (ShoeMonitorApp.url_input a)
     = ShoeMonitorApp.is_monitoring a
  /\ ShoeMonitorApp.save_btn_disabled a = ShoeMonitorApp.is_monitoring a
  /\ ShoeMonitorApp.button_text (ShoeMonitorApp.start_stop_btn a)
     = (if ShoeMonitorApp.is_monitoring a then "Stop" else "Start")
  /\ (ShoeMonitorApp.is_monitoring a = true ->
      exists config,
        ShoeMonitorApp.app_config a = instance config /\ valid_config config).

(** A text that neither begins nor ends with white space. *)
Definition clean_head (s : text) : Prop :=
  match s with
  | c :: _ => isspace c = false
  | [] => True
  end.

(** The three inputs pass the check of [toggle_monitoring] and
    [save_configuration], with the port they give. *)
Definition inputs_accepted (a : ShoeMonitorApp.t) (port : Z) : Prop :=
  strip (ShoeMonitorApp.text_of (ShoeMonitorApp.ip_input a)) <> []
  /\ strip (ShoeMonitorApp.text_of (ShoeMonitorApp.port_input a)) <> []
  /\ strip (ShoeMonitorApp.text_of (ShoeMonitorApp.url_input a)) <> []
  /\ int_of_str (strip (ShoeMonitorApp.text_of (ShoeMonitorApp.port_input a)))
     = Some port
  /\ (1 <= port <= 65535)%Z.

(** The configuration that accepted inputs give. *)
Definition config_of_inputs (a : ShoeMonitorApp.t) (port : Z) : Config :=
  mkConfig (strip (ShoeMonitorApp.text_of (ShoeMonitorApp.ip_input a)))
           port
           (strip (ShoeMonitorApp.text_of (ShoeMonitorApp.url_input a))).

(** The application as built, after the user has typed an address with
    blanks around it and another port. *)
Definition typed_in : ShoeMonitorApp.t :=
  ShoeMonitorApp.mk
    (instance default_Config) None false [] StatusIndicator.init []
    (ShoeMonitorApp.mkTextInput "  10.0.0.7 " false)
    (ShoeMonitorApp.mkTextInput "8080" false)
    (ShoeMonitorApp.mkTextInput "api/card" false)
    false
    (ShoeMonitorApp.mkButton "Start" OK_GREEN).

(** A shoe that sends one card token in two pieces, 50 ms apart, and one
    that sends it whole; and a connected shoe that has nothing to say while
    stop is requested 20 ms into the poll. *)
Definition split_token_world : world :=
  mkWorld (fun _ => Ok tt)
          (fun t => if (t =? 0)%Z then Ok 14 else Ok 3)
          (fun t _ => if (t =? 0)%Z then Ok (" [Game]<Card:4" : text)
                      else Ok ("S> " : text))
          (fun _ _ => Ok 200%Z) (fun _ => "2024-01-01T00:00:00+00:00") None.

Definition whole_token_world : world :=
  mkWorld (fun _ => Ok tt)
          (fun _ => Ok 17)
          (fun _ _ => Ok (" [Game]<Card:4S> " : text))
          (fun _ _ => Ok 200%Z) (fun _ => "2024-01-01T00:00:00+00:00") None.

Definition stop_while_idle_world : world :=
  mkWorld (fun _ => Ok tt) (fun _ => Ok 0) (fun _ _ => Ok [])
          (fun _ _ => Ok 200%Z) (fun _ => "2024-01-01T00:00:00+00:00")
          (Some 20%Z).

(** * Properties *)

(** ** Card parsing *)

Lemma fold_left_snoc (A B : Type) (f : A -> B) (l : list A) (acc : list B) :
  fold_left (fun cards m => cards ++ [f m]) l acc = acc ++ map f l.
Proof.
  revert acc; induction l as [|x l IH]; intros acc; simpl.
  - now rewrite app_nil_r.
  - rewrite IH, <- app_assoc. reflexivity.
Qed.

Lemma parse_cards_map (t : text) :
  parse_cards_from_buffer t = map card_of_match (finditer CARD_PATTERN t).
Proof. unfold parse_cards_from_buffer. now rewrite fold_left_snoc. Qed.

(** ** The dispatcher never raises *)

Lemma send_card_http_eq (W : world) (ip : text) (port : Z) (url card : text)
                        (w : monitor) :
  let r := post_request W ip port url card w in
  send_card_http W ip port url card w
  = (log_post r w, Ok (status_ok (requests_post W (List.length (posted w)) r))).
Proof.
  unfold send_card_http, try_except, bind, do_post, ret. simpl.
  destruct (requests_post W _ _); reflexivity.
Qed.

(** The loop over the parsed cards: one notification per card, in order,
    each with [True]; nothing else of the monitor changes but the log of
    posts. *)
Lemma card_loop_spec (W : world) (config : Config) (cards : list text)
                     (w : monitor) :
  exists w',
    for_each cards (card_body W config) w = (w', Ok tt)
    /\ scheduled w' = scheduled w ++ map (fun c => on_card c true) cards
    /\ text_buffer w' = text_buffer w
    /\ ser w' = ser w /\ now w' = now w /\ opened w' = opened w
    /\ List.length (posted w') = List.length (posted w) + List.length cards.
Proof.
  revert w; induction cards as [|c cards IH]; intros w.
  - exists w. simpl. rewrite app_nil_r. repeat split; lia.
  - simpl for_each. unfold bind at 1. unfold card_body at 1. unfold bind at 1.
    rewrite send_card_http_eq. cbv zeta. unfold exec at 1.
    match goal with |- context [for_each cards _ ?w1] =>
      destruct (IH w1) as (w' & E & Hs & Hb & Hh & Hn & Ho & Hp) end.
    exists w'. rewrite E. simpl in *.
    rewrite Hs, <- app_assoc, length_app in *. simpl in *.
    repeat split; try assumption; lia.
Qed.

Lemma card_pass_spec (W : world) (config : Config) (w : monitor) :
  exists w',
    card_pass W config w = (w', Ok tt)
    /\ scheduled w'
       = scheduled w
         ++ map (fun c => on_card c true) (parse_cards_from_buffer (text_buffer w))
    /\ text_buffer w' = tail_after_last_card (text_buffer w)
    /\ ser w' = ser w /\ now w' = now w /\ opened w' = opened w.
Proof.
  unfold card_pass, tail_after_last_card.
  destruct (parse_cards_from_buffer (text_buffer w)) as [|c cards] eqn:E.
  - exists w. rewrite parse_cards_map in E.
    destruct (finditer CARD_PATTERN (text_buffer w)); [|discriminate].
    simpl. rewrite app_nil_r. repeat split.
  - unfold bind at 1. unfold last_item.
    destruct (rev (finditer CARD_PATTERN (text_buffer w))) as [|m r] eqn:R.
    + apply (f_equal (@rev Match)) in R. rewrite rev_involutive in R.
      rewrite parse_cards_map, R in E. discriminate.
    + unfold ret at 1. unfold bind at 1. unfold exec at 1.
      match goal with |- context [for_each _ _ ?w1] =>
        destruct (card_loop_spec W config (c :: cards) w1)
          as (w' & E' & Hs & Hb & Hh & Hn & Ho & _) end.
      exists w'. rewrite E'. simpl in *. repeat split; assumption.
Qed.

(** ** The three removal passes *)

Lemma add_notes_nil (w : monitor) : add_notes [] w = w.
Proof. destruct w; unfold add_notes; simpl. now rewrite app_nil_r. Qed.

Lemma add_notes_app (ns ns' : list notification) (w : monitor) :
  add_notes ns' (add_notes ns w) = add_notes (ns ++ ns') w.
Proof. unfold add_notes; simpl. now rewrite app_assoc. Qed.

Lemma fold_notes (A : Type) (body : monitor -> A -> monitor)
                 (notes : A -> list notification) :
  (forall w x, body w x = add_notes (notes x) w) ->
  forall xs w, fold_left body xs w = add_notes (flat_map notes xs) w.
Proof.
  intros H xs; induction xs as [|x xs IH]; intros w; simpl.
  - now rewrite add_notes_nil.
  - now rewrite IH, H, add_notes_app.
Qed.

Lemma alarm_body_notes (w : monitor) (alarm_msg : text) :
  alarm_body w alarm_msg = add_notes (alarm_notes alarm_msg) w.
Proof.
  unfold alarm_body, alarm_notes, mentions_failed_read, add_notes, schedule_once.
  destruct (_ || _); simpl; [rewrite <- app_assoc|]; reflexivity.
Qed.

Lemma alarm_loop (ms : list text) (w : monitor) :
  fold_left alarm_body ms w = add_notes (flat_map alarm_notes ms) w.
Proof. apply fold_notes, alarm_body_notes. Qed.

Lemma warning_loop (ms : list text) (w : monitor) :
  fold_left warning_body ms w
  = add_notes (flat_map (fun c => [on_error ("Warning: " ++ c)]) ms) w.
Proof. apply fold_notes. reflexivity. Qed.

Lemma failed_loop (ms : list text) (w : monitor) :
  fold_left failed_body ms w
  = add_notes (flat_map (fun _ => [on_card "FAIL: Unreadable" false]) ms) w.
Proof. apply fold_notes. reflexivity. Qed.

(** A scan that finds nothing leaves the text as it is. *)
Lemma sub_from_no_match (p : pattern) (repl : text) (s : text) :
  forall pos skip,
    finditer_from p pos skip s = [] -> sub_from p repl skip s = skipn skip s.
Proof.
  induction s as [|c s IH]; intros pos skip H; simpl in *.
  - now destruct skip.
  - destruct skip as [|n].
    + destruct (match_here p (c :: s)) as [[len gs]|]; [discriminate|].
      rewrite (IH _ _ H). reflexivity.
    + apply (IH _ _ H).
Qed.

Lemma sub_no_match (p : pattern) (repl : text) (s : text) :
  finditer p s = [] -> sub p repl s = s.
Proof. intros H. apply (sub_from_no_match p repl s 0 0 H). Qed.

Lemma findall_nil (p : pattern) (s : text) :
  findall p s = [] -> finditer p s = [].
Proof. unfold findall. now destruct (finditer p s). Qed.

Lemma set_buffer_same (w : monitor) : set_buffer (text_buffer w) w = w.
Proof. now destruct w. Qed.

(** Each removal pass, whether or not it finds anything, queues the
    notifications of its matches and leaves [sub] of the buffer. *)
Lemma alarm_pass_eq (w : monitor) :
  alarm_pass w
  = set_buffer (sub ALARM_PATTERN "" (text_buffer w))
      (add_notes (flat_map alarm_notes (findall ALARM_PATTERN (text_buffer w))) w).
Proof.
  unfold alarm_pass.
  destruct (findall ALARM_PATTERN (text_buffer w)) eqn:E.
  - rewrite (sub_no_match _ _ _ (findall_nil _ _ E)). simpl flat_map.
    now rewrite add_notes_nil, set_buffer_same.
  - rewrite alarm_loop. reflexivity.
Qed.

Lemma warning_pass_eq (w : monitor) :
  warning_pass w
  = set_buffer (sub WARNING_PATTERN "" (text_buffer w))
      (add_notes (flat_map (fun c => [on_error ("Warning: " ++ c)])
                           (findall WARNING_PATTERN (text_buffer w))) w).
Proof.
  unfold warning_pass.
  destruct (findall WARNING_PATTERN (text_buffer w)) eqn:E.
  - rewrite (sub_no_match _ _ _ (findall_nil _ _ E)). simpl flat_map.
    now rewrite add_notes_nil, set_buffer_same.
  - rewrite warning_loop. reflexivity.
Qed.

Lemma failed_pass_eq (w : monitor) :
  failed_pass w
  = set_buffer (sub FAILED_READ_PATTERN "" (text_buffer w))
      (add_notes (flat_map (fun _ => [on_card "FAIL: Unreadable" false])
                           (findall FAILED_READ_PATTERN (text_buffer w))) w).
Proof.
  unfold failed_pass.
  destruct (findall FAILED_READ_PATTERN (text_buffer w)) eqn:E.
  - rewrite (sub_no_match _ _ _ (findall_nil _ _ E)). simpl flat_map.
    now rewrite add_notes_nil, set_buffer_same.
  - rewrite failed_loop. reflexivity.
Qed.

Lemma four_passes_spec (W : world) (config : Config) (w : monitor) :
  exists w',
    four_passes W config w = (w', Ok tt)
    /\ scheduled w' = scheduled w ++ notes_of_pass (text_buffer w)
    /\ text_buffer w' = buffer_after_passes (text_buffer w)
    /\ ser w' = ser w /\ now w' = now w /\ opened w' = opened w.
Proof.
  unfold four_passes, bind, exec.
  destruct (card_pass_spec W config (failed_pass (warning_pass (alarm_pass w))))
    as (w' & E & Hs & Hb & Hh & Hn & Ho).
  exists w'. rewrite E.
  rewrite failed_pass_eq, warning_pass_eq, alarm_pass_eq in Hs, Hb, Hh, Hn, Ho.
  simpl in Hs, Hb, Hh, Hn, Ho.
  repeat split; try assumption.
  rewrite Hs. unfold notes_of_pass, after_failed, after_warnings, after_alarms.
  now rewrite <- !app_assoc.
Qed.

Lemma classify_spec (W : world) (config : Config) (w : monitor) :
  exists w',
    classify W config w = (w', Ok tt)
    /\ scheduled w' = scheduled w ++ notes_of_pass (text_buffer w)
    /\ text_buffer w'
       = (let b := buffer_after_passes (text_buffer w) in
          if (2000 <? List.length b)%nat then last_chars 1000 b else b)
    /\ ser w' = ser w /\ now w' = now w /\ opened w' = opened w.
Proof.
  destruct (four_passes_spec W config w) as (w1 & E & Hs & Hb & Hh & Hn & Ho).
  unfold classify, bind. rewrite E. unfold exec.
  exists (limit_buffer w1). split; [reflexivity|].
  unfold limit_buffer. cbv zeta. rewrite Hb.
  destruct (2000 <? _)%nat; simpl; auto.
Qed.

(** ** One pass over two card tokens *)

(** C1, as the spec has it, fails on its own sample: two card notifications
    and an empty buffer are not what one pass leaves. *)
Lemma C1_two_events_refuted :
  ~ (let w := fst (classify calm_world default_Config
                            (holding two_cards_sharing_a_space)) in
     scheduled w = [on_card "S4" true; on_card "HK" true]
     /\ text_buffer w = []).
Proof. vm_compute. intros [H _]. discriminate H. Qed.

(** C1 (amended): on the sample buffer the first match takes the space that
    the second token would need in front of it, so one pass reports the
    single card 4 of spades and keeps the text after that match, the second
    token without its leading space; when each token has its own two spaces
    the pass reports 4S then KH and leaves the buffer empty.  This holds
    whatever the transport answers. *)
Theorem C1_shared_space_yields_one_card (W : world) (config : Config) :
  (let w := fst (classify W config (holding two_cards_sharing_a_space)) in
   scheduled w = [on_card "S4" true]
   /\ text_buffer w = "[Game]<Card:KH> ")
  /\
  (let w := fst (classify W config (holding two_cards_own_spaces)) in
   scheduled w = [on_card "S4" true; on_card "HK" true]
   /\ text_buffer w = []).
Proof.
  split.
  - destruct (classify_spec W config (holding two_cards_sharing_a_space))
      as (w & E & Hs & Hb & _).
    cbv zeta. rewrite E. cbn [fst]. rewrite Hs, Hb.
    split; vm_compute; reflexivity.
  - destruct (classify_spec W config (holding two_cards_own_spaces))
      as (w & E & Hs & Hb & _).
    cbv zeta. rewrite E. cbn [fst]. rewrite Hs, Hb.
    split; vm_compute; reflexivity.
Qed.

(** ** The last card match *)

(** C9: when [parse_cards_from_buffer] returns cards for a buffer, the list
    of card matches recomputed over the same buffer has as many elements (at
    least one), so its last element exists: [[-1]] returns it and the card
    pass ends without an exception. *)
Theorem C9_last_match_exists (W : world) (config : Config) (w : monitor) :
  parse_cards_from_buffer (text_buffer w) <> [] ->
  List.length (finditer CARD_PATTERN (text_buffer w))
  = List.length (parse_cards_from_buffer (text_buffer w))
  /\ finditer CARD_PATTERN (text_buffer w) <> []
  /\ (exists last_match,
        last_item (finditer CARD_PATTERN (text_buffer w)) w = (w, Ok last_match)
        /\ In last_match (finditer CARD_PATTERN (text_buffer w)))
  /\ snd (card_pass W config w) = Ok tt.
Proof.
  intros H. rewrite parse_cards_map in *. rewrite length_map.
  assert (N : finditer CARD_PATTERN (text_buffer w) <> [])
    by (intros E; rewrite E in H; now apply H).
  repeat split; trivial.
  - unfold last_item.
    destruct (rev (finditer CARD_PATTERN (text_buffer w))) as [|m r] eqn:R.
    + apply (f_equal (@rev Match)) in R. rewrite rev_involutive in R.
      now destruct N.
    + exists m. split; [reflexivity|].
      apply in_rev. rewrite R. now left.
  - destruct (card_pass_spec W config w) as (w' & E & _). now rewrite E.
Qed.

Lemma C9_last_match_exists_witness :
  List.length (finditer CARD_PATTERN (text_buffer (holding two_cards_own_spaces)))
  = List.length
      (parse_cards_from_buffer (text_buffer (holding two_cards_own_spaces)))
  /\ finditer CARD_PATTERN (text_buffer (holding two_cards_own_spaces)) <> []
  /\ (exists last_match,
        last_item (finditer CARD_PATTERN
                     (text_buffer (holding two_cards_own_spaces)))
                  (holding two_cards_own_spaces)
        = (holding two_cards_own_spaces, Ok last_match)
        /\ In last_match
              (finditer CARD_PATTERN
                 (text_buffer (holding two_cards_own_spaces))))
  /\ snd (card_pass calm_world default_Config (holding two_cards_own_spaces))
     = Ok tt.
Proof.
  apply (C9_last_match_exists calm_world default_Config
           (holding two_cards_own_spaces)).
  vm_compute. discriminate.
Defined.

(** ** Normalisation of rank and suit *)

Lemma text_eqb_eq (a b : text) : text_eqb a b = true -> a = b.
Proof. unfold text_eqb. now destruct (list_eq_dec ascii_dec a b). Qed.

Lemma mem_In (t : text) (l : list text) : mem t l = true <-> In t l.
Proof.
  unfold mem. rewrite existsb_exists. split.
  - intros (x & H & E). apply text_eqb_eq in E. now subst.
  - intros H. exists t. split; [exact H|].
    unfold text_eqb. now destruct (list_eq_dec ascii_dec t t).
Qed.

Lemma extracts_sound (t rank suit card : text) :
  extracts t rank suit card = true ->
  exists m, finditer CARD_PATTERN t = [m]
            /\ group m 1 = rank /\ group m 2 = suit
            /\ card_of_match m = card.
Proof.
  unfold extracts. destruct (finditer CARD_PATTERN t) as [|m [|]]; try discriminate.
  intros H. apply andb_true_iff in H. destruct H as [H H3].
  apply andb_true_iff in H. destruct H as [H1 H2].
  exists m. auto using text_eqb_eq.
Qed.

Lemma is_letter_eq (o : option ascii) (c : ascii) :
  is_letter o c = true -> o = Some c.
Proof.
  destruct o as [x|]; simpl; [|discriminate].
  intros H. apply Ascii.eqb_eq in H. now subst.
Qed.

Lemma round_trip_all :
  forallb (fun tag => forallb (fun rank => forallb (fun suit =>
    round_trip_check tag rank suit) (any_case SUITS)) (any_case RANKS))
    (any_case TAGS) = true.
Proof. vm_compute. reflexivity. Qed.

(** C8: for every rank among 2-9, 10, T, J, Q, K, A and suit among C, D, H,
    S, in either letter case and under either tag, the card pattern extracts
    exactly that rank and suit from the token, and the code built from them
    is the capital letter of the suit followed by the character of the rank,
    a capital letter or a digit, with T for 10 as for T: one of the
    fifty-two codes.  The token written with these two characters is
    extracted as that pair and yields the same code again, and the two
    characters stand for themselves. *)
Theorem C8_normalise_round_trip (tag rank suit : text) :
  In tag (any_case TAGS) -> In rank (any_case RANKS) ->
  In suit (any_case SUITS) ->
  exists rk st : ascii,
    letter_of RANK_LETTERS rank = Some rk
    /\ letter_of SUIT_LETTERS suit = Some st
    /\ In [st; rk] DECK
    /\ (exists m, finditer CARD_PATTERN (card_token tag rank suit) = [m]
                  /\ group m 1 = rank /\ group m 2 = suit
                  /\ card_of_match m = [st; rk])
    /\ parse_cards_from_buffer (card_token tag rank suit) = [[st; rk]]
    /\ (exists m', finditer CARD_PATTERN (card_token tag [rk] [st]) = [m']
                   /\ group m' 1 = [rk] /\ group m' 2 = [st]
                   /\ card_of_match m' = [st; rk])
    /\ parse_cards_from_buffer (card_token tag [rk] [st]) = [[st; rk]]
    /\ letter_of RANK_LETTERS [rk] = Some rk
    /\ letter_of SUIT_LETTERS [st] = Some st
    /\ upper suit = [st]
    /\ canonical_rank rank = [rk].
Proof.
  intros Ht Hr Hs.
  pose proof round_trip_all as F.
  rewrite forallb_forall in F. specialize (F tag Ht).
  rewrite forallb_forall in F. specialize (F rank Hr).
  rewrite forallb_forall in F. specialize (F suit Hs).
  unfold round_trip_check in F.
  destruct (letter_of RANK_LETTERS rank) as [rk|]; [|discriminate].
  destruct (letter_of SUIT_LETTERS suit) as [st|]; [|discriminate].
  exists rk, st.
  apply andb_true_iff in F. destruct F as [F Hcr].
  apply andb_true_iff in F. destruct F as [F Hup].
  apply andb_true_iff in F. destruct F as [F HS].
  apply andb_true_iff in F. destruct F as [F HR].
  apply andb_true_iff in F. destruct F as [F E2].
  apply andb_true_iff in F. destruct F as [D E1].
  apply mem_In in D.
  apply text_eqb_eq in Hcr, Hup.
  apply is_letter_eq in HS, HR.
  destruct (extracts_sound _ _ _ _ E1) as (m & Em & G1 & G2 & C).
  destruct (extracts_sound _ _ _ _ E2) as (m' & Em' & G1' & G2' & C').
  split; [reflexivity|]. split; [reflexivity|]. split; [exact D|].
  split; [exists m; auto|].
  split; [rewrite parse_cards_map, Em; simpl; now rewrite C|].
  split; [exists m'; auto|].
  split; [rewrite parse_cards_map, Em'; simpl; now rewrite C'|].
  auto.
Qed.

Lemma C8_normalise_round_trip_witness :
  In ("HT" : text) DECK
  /\ parse_cards_from_buffer (card_token "Game" "10" "h") = ["HT" : text]
  /\ parse_cards_from_buffer (card_token "Game" "T" "H") = ["HT" : text]
  /\ upper "h" = "H" /\ canonical_rank "10" = "T".
Proof.
  destruct (C8_normalise_round_trip "Game" "10" "h")
    as (rk & st & Hr & Hs & D & _ & P & _ & P' & _ & _ & U & C);
    [vm_compute; tauto ..|].
  vm_compute in Hr, Hs. injection Hr as <-. injection Hs as <-.
  split; [exact D|]. split; [exact P|]. split; [exact P'|].
  split; [exact U|exact C].
Defined.

(** ** The size limit of the buffer *)

Lemma last_chars_length (n : nat) (s : text) :
  n <= List.length s -> List.length (last_chars n s) = n.
Proof. intros H. unfold last_chars. rewrite length_skipn. lia. Qed.

Lemma no_token_passes (b : text) : no_token b -> buffer_after_passes b = b.
Proof.
  intros (Ha & Hw & Hf & Hc).
  unfold buffer_after_passes, after_failed, after_warnings, after_alarms.
  rewrite (sub_no_match _ _ _ Ha), (sub_no_match _ _ _ Hw),
    (sub_no_match _ _ _ Hf).
  unfold tail_after_last_card. now rewrite Hc.
Qed.

(** C4: the buffer a read cycle leaves is the buffer left by the four passes
    when that has at most 2000 characters, and exactly its last 1000
    characters when it has more; so it never has more than 2000 characters,
    and a buffer of 2500 characters in which no pattern matches comes out as
    its last 1000 characters. *)
Theorem C4_buffer_limit (W : world) (config : Config) (w : monitor) :
  let w' := fst (classify W config w) in
  (exists w4,
      four_passes W config w = (w4, Ok tt)
      /\ text_buffer w'
         = (if (2000 <? List.length (text_buffer w4))%nat
            then last_chars 1000 (text_buffer w4)
            else text_buffer w4)
      /\ (2000 < List.length (text_buffer w4) ->
          List.length (text_buffer w') = 1000))
  /\ List.length (text_buffer w') <= 2000
  /\ (List.length (text_buffer w) = 2500 -> no_token (text_buffer w) ->
      text_buffer w' = last_chars 1000 (text_buffer w)
      /\ List.length (text_buffer w') = 1000).
Proof.
  cbv zeta.
  destruct (four_passes_spec W config w) as (w4 & E4 & _ & Hb4 & _).
  destruct (classify_spec W config w) as (w' & E & _ & Hb & _).
  rewrite E. cbn [fst]. cbv zeta in Hb. rewrite <- Hb4 in Hb.
  assert (L : List.length (text_buffer w') <= 2000
              /\ (2000 < List.length (text_buffer w4) ->
                  List.length (text_buffer w') = 1000)).
  { rewrite Hb. destruct (2000 <? _)%nat eqn:C.
    - apply Nat.ltb_lt in C. rewrite last_chars_length by lia. lia.
    - apply Nat.ltb_ge in C. lia. }
  split; [|split].
  - exists w4. tauto.
  - tauto.
  - intros Hl Hn. rewrite Hb4, (no_token_passes _ Hn) in Hb.
    rewrite Hb, Hl. change (2000 <? 2500)%nat with true. cbv iota.
    split; [reflexivity|]. apply last_chars_length. lia.
Qed.

Lemma C4_buffer_limit_witness :
  text_buffer (fst (classify calm_world default_Config (holding noise)))
  = last_chars 1000 (text_buffer (holding noise))
  /\ List.length
       (text_buffer (fst (classify calm_world default_Config (holding noise))))
     = 1000.
Proof.
  apply (C4_buffer_limit calm_world default_Config (holding noise)).
  - vm_compute. reflexivity.
  - unfold no_token. split; [|split; [|split]]; vm_compute; reflexivity.
Defined.

(** ** Alarms *)

Lemma startswith_iff (p s : text) :
  startswith p s = true <-> exists post, s = p ++ post.
Proof.
  revert s; induction p as [|a p IH]; intros s; simpl.
  - split; [intros _; now exists s | reflexivity].
  - destruct s as [|b s].
    + split; [discriminate | intros [post H]; discriminate].
    + rewrite andb_true_iff, Ascii.eqb_eq, IH. split.
      * intros [-> [post ->]]. now exists post.
      * intros [post H]. injection H as -> ->. split; [reflexivity|now exists post].
Qed.

Lemma contains_iff (needle hay : text) :
  contains needle hay = true <-> exists pre post, hay = pre ++ needle ++ post.
Proof.
  induction hay as [|c hay IH]; simpl; rewrite orb_true_iff, startswith_iff.
  - split.
    + intros [[post H]|H]; [|discriminate]. now exists [], post.
    + intros (pre & post & H). left.
      destruct pre; [now exists post|discriminate].
  - rewrite IH. split.
    + intros [[post H]|(pre & post & H)].
      * now exists [], post.
      * exists (c :: pre), post. now rewrite H.
    + intros (pre & post & H). destruct pre as [|a pre].
      * left. now exists post.
      * right. injection H as _ H. now exists pre, post.
Qed.

Lemma contains_lower_iff (frag msg : text) :
  contains frag (lower msg) = true <-> occurs_in_any_case frag msg.
Proof.
  rewrite contains_iff. unfold occurs_in_any_case, lower. split.
  - intros (pre & post & H).
    apply map_eq_app in H. destruct H as (pre' & rest & -> & _ & H).
    apply map_eq_app in H. destruct H as (mid & post' & -> & H & _).
    now exists pre', mid, post'.
  - intros (pre & mid & post & -> & <-).
    exists (map lower_char pre), (map lower_char post).
    now rewrite !map_app.
Qed.

Lemma match_here_length (p : pattern) (s : text) (len : nat) (gs : list text) :
  match_here p s = Some (len, gs) -> len <= List.length s.
Proof.
  unfold match_here. destruct (run_re _ _ _ _ _) as [[rest g]|]; [|discriminate].
  intros H. injection H as <- _. lia.
Qed.

(** [sub] with an empty replacement takes out exactly the characters of the
    matches that the scan reports. *)
Lemma sub_from_length (p : pattern) (s : text) :
  forall pos skip,
    skip <= List.length s ->
    List.length (sub_from p [] skip s) + skip
    + matched_length (finditer_from p pos skip s)
    = List.length s.
Proof.
  unfold matched_length.
  induction s as [|c s IH]; intros pos skip H; simpl in *.
  - destruct skip; simpl; lia.
  - destruct skip as [|n].
    + destruct (match_here p (c :: s)) as [[len gs]|] eqn:E.
      * apply match_here_length in E. simpl in E.
        destruct len as [|n]; simpl.
        -- specialize (IH (S pos) 0). simpl in IH. lia.
        -- specialize (IH (S pos) n). rewrite Nat.sub_0_r. lia.
      * specialize (IH (S pos) 0). simpl. lia.
    + specialize (IH (S pos) n). lia.
Qed.

Lemma sub_length (p : pattern) (s : text) :
  List.length (sub p [] s) + matched_length (finditer p s) = List.length s.
Proof.
  pose proof (sub_from_length p s 0 0 (Nat.le_0_l _)) as H.
  unfold sub, finditer. lia.
Qed.

Lemma alarm_notes_one_error (ms : list text) :
  List.length (filter is_on_error (flat_map alarm_notes ms)) = List.length ms.
Proof.
  induction ms as [|m ms IH]; simpl; [reflexivity|].
  rewrite filter_app, length_app, IH.
  destruct (mentions_failed_read m); reflexivity.
Qed.

(** C3: the alarm pass queues, for each alarm match in scan order, one
    ALARM error notification and, exactly when the message contains
    "card not read" or "e3" in some letter case, one failed-card
    notification carrying the message; the buffer it hands to the warning
    pass is the buffer with the characters of all those matches taken out.
    A buffer holding the one alarm "E3 Card Not Read" gives one notification
    of each kind and an empty buffer. *)
Theorem C3_alarm_events (w : monitor) :
  let alarm_matches := findall ALARM_PATTERN (text_buffer w) in
  scheduled (alarm_pass w)
  = scheduled w
    ++ flat_map
         (fun msg =>
            on_error ("ALARM: " ++ msg)
            :: (if contains "card not read" (lower msg)
                   || contains "e3" (lower msg)
                then [on_card ("FAIL: " ++ msg) false]
                else []))
         alarm_matches
  /\ List.length (filter is_on_error
                    (skipn (List.length (scheduled w)) (scheduled (alarm_pass w))))
     = List.length alarm_matches
  /\ (forall msg,
        contains "card not read" (lower msg) || contains "e3" (lower msg) = true
        <-> occurs_in_any_case "card not read" msg
            \/ occurs_in_any_case "e3" msg)
  /\ text_buffer (alarm_pass w) = sub ALARM_PATTERN "" (text_buffer w)
  /\ List.length (text_buffer (alarm_pass w))
     + matched_length (finditer ALARM_PATTERN (text_buffer w))
     = List.length (text_buffer w)
  /\ text_buffer (warning_pass (alarm_pass w))
     = sub WARNING_PATTERN "" (sub ALARM_PATTERN "" (text_buffer w))
  /\ scheduled (alarm_pass (holding one_alarm))
     = [on_error "ALARM: E3 Card Not Read";
        on_card "FAIL: E3 Card Not Read" false]
  /\ text_buffer (alarm_pass (holding one_alarm)) = [].
Proof.
  cbv zeta. rewrite warning_pass_eq, !alarm_pass_eq. simpl.
  repeat split.
  - rewrite skipn_app, skipn_all, Nat.sub_diag. simpl.
    apply alarm_notes_one_error.
  - rewrite orb_true_iff, !contains_lower_iff. tauto.
  - rewrite orb_true_iff, !contains_lower_iff. tauto.
  - apply (sub_length ALARM_PATTERN).
Qed.

(** ** The dispatcher *)

Lemma lstrip_spec (c : ascii) (s : text) :
  (exists n, s = repeat c n ++ lstrip c s)
  /\ startswith [c] (lstrip c s) = false.
Proof.
  induction s as [|a s [[n IH1] IH2]]; simpl.
  - split; [now exists 0|reflexivity].
  - destruct (Ascii.eqb a c) eqn:E.
    + apply Ascii.eqb_eq in E. subst a. split; [|assumption].
      exists (S n). simpl. now rewrite <- IH1.
    + split; [now exists 0|]. simpl.
      destruct (Ascii.eqb c a) eqn:E'; [|reflexivity].
      apply Ascii.eqb_eq in E'. subst a. now rewrite Ascii.eqb_refl in E.
Qed.

(** C5: [send_card_http] issues one POST, to
    http://ip:port/path where path is [url] without its leading slashes, with
    the JSON body of card and timestamp, the Content-Type header
    application/json and timeout 3; it returns normally in every case, with
    [True] exactly when the transport hands back a response whose status is
    at least 200 and below 300, and with [False] when the transport raises
    (a timeout or any other error). *)
Theorem C5_send_card_http (W : world) (ip : text) (port : Z) (url card : text)
                          (w : monitor) :
  let path := lstrip "/" url in
  let r := mkRequest ("http://" ++ ip ++ ":" ++ str_int port ++ "/" ++ path)
                     [("card" : text, card);
                      ("timestamp" : text, isoformat_now W (now w))]
                     [("Content-Type" : text, "application/json" : text)]
                     3 in
  let answer := requests_post W (List.length (posted w)) r in
  (exists n, url = repeat "/"%char n ++ path)
  /\ startswith "/" path = false
  /\ (exists b, send_card_http W ip port url card w = (log_post r w, Ok b)
                /\ (b = true <->
                    exists status,
                      answer = Ok status /\ (200 <= status < 300)%Z))
  /\ (forall e, answer = Raise e ->
                snd (send_card_http W ip port url card w) = Ok false).
Proof.
  cbv zeta. pose proof (lstrip_spec "/" url) as [Hn Hs].
  rewrite send_card_http_eq. cbv zeta.
  change (post_request W ip port url card w)
    with (mkRequest ("http://" ++ ip ++ ":" ++ str_int port ++ "/" ++ lstrip "/" url)
                    [("card" : text, card);
                     ("timestamp" : text, isoformat_now W (now w))]
                    [("Content-Type" : text, "application/json" : text)]
                    3).
  repeat split; trivial.
  - eexists. split; [reflexivity|].
    destruct (requests_post W _ _) as [status|e]; simpl.
    + rewrite andb_true_iff, Z.leb_le, Z.ltb_lt. split.
      * intros H. now exists status.
      * intros (st & H & Hr). injection H as ->. exact Hr.
    + split; [discriminate|]. intros (st & H & _). discriminate.
  - intros e ->. reflexivity.
Qed.

(** ** The loop: what one iteration can do *)

(** The read cycle either raises straight from the driver, before the
    buffer or the queue is touched, or runs to its [sleep]. *)
Lemma read_cycle_cases (W : world) (config : Config) (w : monitor) :
  (exists e,
      read_cycle W config w = (w, Raise e)
      /\ (ser_in_waiting W (now w) = Raise e
          \/ exists n, ser_in_waiting W (now w) = Ok n
                       /\ ser_read W (now w) n = Raise e))
  \/ (exists w',
         read_cycle W config w = (w', Ok tt)
         /\ now w' = (now w + POLL_DELAY)%Z
         /\ ser w' = ser w /\ opened w' = opened w).
Proof.
  unfold read_cycle, bind, in_waiting.
  destruct (ser_in_waiting W (now w)) as [n|e] eqn:En.
  - destruct (0 <? n)%nat.
    + unfold read. destruct (ser_read W (now w) n) as [chunk|e] eqn:Er.
      * right. unfold exec at 1.
        match goal with |- context [classify W config ?w1] =>
          destruct (classify_spec W config w1) as (w' & E & _ & _ & Hh & Hn & Ho)
        end.
        rewrite E. exists (sleep POLL_DELAY w'). simpl in *.
        rewrite Hh, Hn, Ho. auto.
      * left. exists e. split; [reflexivity|]. right. now exists n.
    + right. exists (sleep POLL_DELAY w). simpl. auto.
  - left. exists e. auto.
Qed.

Lemma read_block_cases (W : world) (config : Config) (w : monitor) :
  match read_cycle W config w with
  | (w', Ok _) => read_block W config w = (w', Ok tt)
  | (w', Raise e) =>
      read_block W config w
      = (if is_SerialException e then after_read_error w'
         else sleep ERROR_PAUSE w', Ok tt)
  end.
Proof.
  unfold read_block, try_except.
  destruct (read_cycle W config w) as [w' [[]|e]]; [reflexivity|].
  destruct (is_SerialException e); reflexivity.
Qed.

Lemma connect_cases (W : world) (port_name : text) (w : monitor) :
  connect W port_name w
  = match serial_Serial W (now w) with
    | Ok _ => (after_open w, Ok true)
    | Raise e => (after_open_error port_name e w, Ok false)
    end.
Proof.
  unfold connect, try_except, bind, open_serial, after_open_error.
  destruct (serial_Serial W (now w)) as [[]|e]; [reflexivity|].
  destruct (is_SerialException e); reflexivity.
Qed.

Lemma read_block_ok (W : world) (config : Config) (w : monitor) :
  exists w', read_block W config w = (w', Ok tt)
             /\ (now w + POLL_DELAY <= now w')%Z.
Proof.
  pose proof (read_block_cases W config w) as H.
  destruct (read_cycle_cases W config w) as [(e & E & _)|(w' & E & Hn & _)];
    rewrite E in H.
  - eexists. split; [exact H|].
    destruct (is_SerialException e); unfold after_read_error, close; simpl;
      [destruct (ser w)|]; simpl;
      unfold RETRY_DELAY, ERROR_PAUSE, POLL_DELAY; lia.
  - exists w'. split; [exact H|]. lia.
Qed.

(** No exception leaves the body of the loop, and every iteration sleeps at
    least one polling interval. *)
Lemma iteration_ok (W : world) (config : Config) (port_name : text)
                   (w : monitor) :
  exists w', iteration W config port_name w = (w', Ok tt)
             /\ (now w + POLL_DELAY <= now w')%Z.
Proof.
  unfold iteration, bind.
  destruct (needs_open w).
  - rewrite connect_cases. destruct (serial_Serial W (now w)) as [[]|e].
    + destruct (read_block_ok W config (after_open w)) as (w' & E & Hn).
      exists w'. split; [exact E|]. simpl in Hn. exact Hn.
    + eexists. split; [reflexivity|]. simpl.
      unfold RETRY_DELAY, POLL_DELAY. lia.
  - unfold ret. apply read_block_ok.
Qed.

(** C6: whatever the transport answers, a read cycle queues the same
    notifications and leaves the same buffer: after the notifications of the
    alarms, warnings and failed reads comes one card notification with
    [True] for every parsed card, in order.  A post answered 500 makes
    [send_card_http] return [False], and neither the cycle nor an iteration
    of the loop ends with an exception. *)
Theorem C6_notification_ignores_dispatch
    (W W' : world) (config : Config) (port_name : text) (w : monitor) :
  let b := text_buffer w in
  exists w1 w1',
    classify W config w = (w1, Ok tt)
    /\ classify W' config w = (w1', Ok tt)
    /\ scheduled w1' = scheduled w1
    /\ text_buffer w1' = text_buffer w1
    /\ scheduled w1
       = scheduled w
         ++ (flat_map alarm_notes (findall ALARM_PATTERN b)
             ++ flat_map (fun c => [on_error ("Warning: " ++ c)])
                         (findall WARNING_PATTERN (after_alarms b))
             ++ flat_map (fun _ => [on_card "FAIL: Unreadable" false])
                         (findall FAILED_READ_PATTERN (after_warnings b)))
         ++ map (fun card => on_card card true)
                (parse_cards_from_buffer (after_failed b))
    /\ (forall card r,
          requests_post W (List.length (posted w)) r = Ok 500%Z ->
          r = post_request W (ip config) (port config) (url config) card w ->
          snd (send_card_http W (ip config) (port config) (url config) card w)
          = Ok false)
    /\ snd (iteration W config port_name w) = Ok tt.
Proof.
  cbv zeta.
  destruct (classify_spec W config w) as (w1 & E & Hs & Hb & _).
  destruct (classify_spec W' config w) as (w1' & E' & Hs' & Hb' & _).
  exists w1, w1'. repeat split; trivial.
  - congruence.
  - congruence.
  - rewrite Hs. unfold notes_of_pass. now rewrite <- !app_assoc.
  - intros card r H ->. rewrite send_card_http_eq. cbv zeta. now rewrite H.
  - destruct (iteration_ok W config port_name w) as (w2 & E2 & _).
    now rewrite E2.
Qed.

(** ** The loop: exceptions and stopping *)

Lemma read_cycle_raise_unchanged (W : world) (config : Config)
                                 (w w1 : monitor) (e : exn) :
  read_cycle W config w = (w1, Raise e) -> w1 = w.
Proof.
  intros H.
  destruct (read_cycle_cases W config w) as [(e0 & E & _)|(w' & E & _)];
    rewrite E in H; [now injection H|discriminate].
Qed.

Lemma iteration_opens (W : world) (config : Config) (port_name : text)
                      (w : monitor) :
  needs_open w = true ->
  opened (fst (iteration W config port_name w)) = S (opened w).
Proof.
  intros H. unfold iteration, bind. rewrite H, connect_cases.
  destruct (serial_Serial W (now w)) as [[]|e]; [|reflexivity].
  pose proof (read_block_cases W config (after_open w)) as B.
  destruct (read_cycle_cases W config (after_open w))
    as [(e & E & _)|(w' & E & _ & _ & Ho)]; rewrite E in B; rewrite B.
  - destruct (is_SerialException e); reflexivity.
  - simpl. rewrite Ho. reflexivity.
Qed.

Lemma cleanup_now (w : monitor) : now (cleanup w) = now w.
Proof. unfold cleanup, close. now destruct (ser w). Qed.

Lemma stop_is_set_cleanup (W : world) (w : monitor) :
  stop_is_set W (cleanup w) = stop_is_set W w.
Proof. unfold stop_is_set. now rewrite cleanup_now. Qed.

Lemma run_loop_exits_stopped (W : world) (config : Config) (port_name : text) :
  forall fuel w w',
    run_loop W config port_name fuel w = Exited w' -> stop_is_set W w' = true.
Proof.
  induction fuel as [|fuel IH]; intros w w'; simpl;
    destruct (stop_is_set W w) eqn:S.
  - intros H. injection H as <-. now rewrite stop_is_set_cleanup.
  - discriminate.
  - intros H. injection H as <-. now rewrite stop_is_set_cleanup.
  - destruct (iteration_ok W config port_name w) as (w1 & E & _).
    rewrite E. apply IH.
Qed.

Lemma run_loop_never_crashes (W : world) (config : Config) (port_name : text) :
  forall fuel w w' e, run_loop W config port_name fuel w <> Crashed w' e.
Proof.
  induction fuel as [|fuel IH]; intros w w' e; simpl;
    destruct (stop_is_set W w); try discriminate.
  destruct (iteration_ok W config port_name w) as (w1 & E & _).
  rewrite E. apply IH.
Qed.

Lemma run_loop_exits (W : world) (config : Config) (port_name : text) (T : Z) :
  stop_time W = Some T ->
  forall fuel w,
    (T - now w <= Z.of_nat fuel * POLL_DELAY)%Z ->
    exists w', run_loop W config port_name fuel w = Exited w'.
Proof.
  intros HT. induction fuel as [|fuel IH]; intros w H; simpl;
    destruct (stop_is_set W w) eqn:S; try (eexists; reflexivity).
  - unfold stop_is_set in S. rewrite HT in S. apply Z.leb_gt in S.
    unfold POLL_DELAY in H. lia.
  - destruct (iteration_ok W config port_name w) as (w1 & E & Hn).
    rewrite E. apply IH. unfold POLL_DELAY in *. lia.
Qed.

(** C10: no exception ends the loop.  An iteration always returns
    normally, so the thread is never found crashed and is found exited only
    with the stop flag set; once the flag is set it does exit.  When the
    read cycle raises a serial error, the handler queues a disconnected
    notification, calls [close] on the handle it holds, once, and clears it,
    sleeps the retry delay, and the next iteration opens the port again;
    when it raises anything else, the handler only sleeps 0.1: queue, handle
    and buffer are as before and nothing is closed. *)
Theorem C10_loop_survives_exceptions
    (W : world) (config : Config) (port_name : text) :
  (forall w, snd (iteration W config port_name w) = Ok tt)
  /\ (forall fuel w w' e, run_loop W config port_name fuel w <> Crashed w' e)
  /\ (forall fuel w w',
        run_loop W config port_name fuel w = Exited w' ->
        stop_is_set W w' = true)
  /\ (forall T fuel w,
        stop_time W = Some T ->
        (T - now w <= Z.of_nat fuel * POLL_DELAY)%Z ->
        exists w', run_loop W config port_name fuel w = Exited w')
  /\ (forall w w1 e,
        read_cycle W config w = (w1, Raise e) ->
        is_SerialException e = true ->
        exists w2,
          read_block W config w = (w2, Ok tt)
          /\ scheduled w2 = scheduled w ++ [on_disconnected]
          /\ ser w2 = None
          /\ closed w2 = match ser w with
                         | Some _ => S (closed w)
                         | None => closed w
                         end
          /\ now w2 = (now w + RETRY_DELAY)%Z
          /\ text_buffer w2 = text_buffer w
          /\ opened w2 = opened w
          /\ needs_open w2 = true
          /\ opened (fst (iteration W config port_name w2)) = S (opened w2))
  /\ (forall w w1 e,
        read_cycle W config w = (w1, Raise e) ->
        is_SerialException e = false ->
        exists w2,
          read_block W config w = (w2, Ok tt)
          /\ scheduled w2 = scheduled w
          /\ ser w2 = ser w
          /\ closed w2 = closed w
          /\ text_buffer w2 = text_buffer w
          /\ now w2 = (now w + ERROR_PAUSE)%Z
          /\ opened w2 = opened w).
Proof.
  repeat apply conj.
  - intros w. destruct (iteration_ok W config port_name w) as (w' & E & _).
    now rewrite E.
  - apply run_loop_never_crashes.
  - apply run_loop_exits_stopped.
  - intros T fuel w HT. now apply run_loop_exits.
  - intros w w1 e Hr He.
    pose proof (read_cycle_raise_unchanged _ _ _ _ _ Hr) as ->.
    pose proof (read_block_cases W config w) as B. rewrite Hr, He in B.
    exists (after_read_error w).
    assert (N : needs_open (after_read_error w) = true)
      by (destruct w as [[h|] b q l t n cl]; reflexivity).
    split; [exact B|].
    repeat split; try exact N;
      try (destruct w as [[h|] b q l t n cl]; reflexivity).
    now apply iteration_opens.
  - intros w w1 e Hr He.
    pose proof (read_cycle_raise_unchanged _ _ _ _ _ Hr) as ->.
    pose proof (read_block_cases W config w) as B. rewrite Hr, He in B.
    exists (sleep ERROR_PAUSE w).
    split; [exact B|]. repeat split.
Qed.

Lemma C10_loop_survives_exceptions_witness :
  (exists w', run_loop unplugged_world default_Config DEVICE 100
                       (holding "partial") = Exited w')
  /\ (exists w2,
         read_block unplugged_world default_Config (holding "partial")
         = (w2, Ok tt)
         /\ scheduled w2 = scheduled (holding "partial") ++ [on_disconnected]
         /\ ser w2 = None
         /\ closed w2 = S (closed (holding "partial"))
         /\ now w2 = (now (holding "partial") + RETRY_DELAY)%Z
         /\ text_buffer w2 = text_buffer (holding "partial")
         /\ opened w2 = opened (holding "partial")
         /\ needs_open w2 = true
         /\ opened (fst (iteration unplugged_world default_Config DEVICE w2))
            = S (opened w2))
  /\ (exists w2,
         read_block faulty_world default_Config (holding "partial")
         = (w2, Ok tt)
         /\ scheduled w2 = scheduled (holding "partial")
         /\ ser w2 = ser (holding "partial")
         /\ closed w2 = closed (holding "partial")
         /\ text_buffer w2 = text_buffer (holding "partial")
         /\ now w2 = (now (holding "partial") + ERROR_PAUSE)%Z
         /\ opened w2 = opened (holding "partial")).
Proof.
  split; [|split].
  - apply (proj1 (proj2 (proj2 (proj2
             (C10_loop_survives_exceptions unplugged_world default_Config DEVICE))))
             5000%Z 100 (holding "partial")).
    + reflexivity.
    + vm_compute. discriminate.
  - apply (proj1 (proj2 (proj2 (proj2 (proj2
             (C10_loop_survives_exceptions unplugged_world default_Config DEVICE)))))
             (holding "partial") (holding "partial")
             (SerialException "device disconnected")); reflexivity.
  - apply (proj2 (proj2 (proj2 (proj2 (proj2
             (C10_loop_survives_exceptions faulty_world default_Config DEVICE)))))
             (holding "partial") (holding "partial")
             (OtherError "Input/output error")); reflexivity.
Defined.

(** ** Stopping during the retry delay *)

(** C7, as the spec has it, fails: the request made 1 ms into the delay is
    honoured only when the 2.5 s sleep is over. *)
Lemma C7_one_poll_bound_refuted :
  ~ stops_within_one_poll stopped_early_world default_Config DEVICE initial.
Proof.
  intros H.
  assert (R : (now initial < 1 <= now initial + RETRY_DELAY)%Z)
    by (vm_compute; split; [reflexivity|discriminate]).
  specialize (H 1%Z
                (SerialException
                   "[Errno 2] No such file or directory: '/dev/ttyUSB0'")
                (cleanup
                   (after_open_error DEVICE
                      (SerialException
                         "[Errno 2] No such file or directory: '/dev/ttyUSB0'")
                      initial))
                eq_refl eq_refl eq_refl R eq_refl).
  vm_compute in H. now apply H.
Qed.

(** C7 (amended): when stop is requested during the retry delay that
    follows a failed open, the thread makes no further attempt to open the
    port and leaves the loop when the delay is over, with no open handle;
    that is less than the retry delay (2.5 s) after the request, not within
    one polling interval. *)
Theorem C7_stop_during_retry_delay
    (W : world) (config : Config) (port_name : text)
    (w : monitor) (t_req : Z) (e : exn) (fuel : nat) :
  stop_time W = Some t_req ->
  needs_open w = true ->
  serial_Serial W (now w) = Raise e ->
  (now w < t_req <= now w + RETRY_DELAY)%Z ->
  exists w',
    run_loop W config port_name (S fuel) w = Exited w'
    /\ opened w' = S (opened w)
    /\ needs_open w' = true
    /\ now w' = (now w + RETRY_DELAY)%Z
    /\ (0 <= now w' - t_req < RETRY_DELAY)%Z
    /\ scheduled w'
       = scheduled w
         ++ [on_error (if is_SerialException e
                       then open_error_message port_name e
                       else exn_str e)].
Proof.
  intros HT Hopen He Hreq.
  exists (cleanup (after_open_error port_name e w)).
  assert (S0 : stop_is_set W w = false)
    by (unfold stop_is_set; rewrite HT; apply Z.leb_gt; lia).
  assert (S1 : stop_is_set W (after_open_error port_name e w) = true)
    by (unfold stop_is_set; rewrite HT; apply Z.leb_le; simpl; lia).
  split.
  - simpl. rewrite S0. unfold iteration, bind.
    rewrite Hopen, connect_cases, He. unfold ret.
    destruct fuel; simpl; now rewrite S1.
  - unfold needs_open in Hopen.
    unfold cleanup, close, needs_open, after_open_error. simpl.
    destruct (ser w) as [h|] eqn:Hs; simpl; rewrite ?Hs;
      unfold RETRY_DELAY in *; repeat split; trivial; lia.
Qed.

Lemma C7_stop_during_retry_delay_witness :
  exists w',
    run_loop stopped_early_world default_Config DEVICE 1 initial = Exited w'
    /\ opened w' = S (opened initial)
    /\ needs_open w' = true
    /\ now w' = (now initial + RETRY_DELAY)%Z
    /\ (0 <= now w' - 1 < RETRY_DELAY)%Z
    /\ scheduled w'
       = scheduled initial
         ++ [on_error
               (if is_SerialException
                     (SerialException
                        "[Errno 2] No such file or directory: '/dev/ttyUSB0'")
                then open_error_message DEVICE
                       (SerialException
                          "[Errno 2] No such file or directory: '/dev/ttyUSB0'")
                else exn_str
                       (SerialException
                          "[Errno 2] No such file or directory: '/dev/ttyUSB0'"))].
Proof.
  apply (C7_stop_during_retry_delay stopped_early_world default_Config DEVICE
           initial 1%Z
           (SerialException "[Errno 2] No such file or directory: '/dev/ttyUSB0'")
           0).
  - reflexivity.
  - reflexivity.
  - reflexivity.
  - vm_compute. split; [reflexivity|discriminate].
Defined.

(** ** What a removal pass leaves behind *)

Lemma concat_cons_head (c : ascii) (segs : list text) :
  concat (cons_head c segs) = c :: concat segs.
Proof. now destruct segs. Qed.

Lemma sub_from_kept (p : pattern) (s : text) :
  forall skip, sub_from p [] skip s = concat (kept_from p skip s).
Proof.
  induction s as [|c s IH]; intros skip; simpl; [reflexivity|].
  destruct skip as [|n]; [|apply IH].
  destruct (match_here p (c :: s)) as [[[|n] gs]|]; simpl;
    rewrite ?concat_cons_head, IH; reflexivity.
Qed.

Section Engine.

Variable ic : bool.

(** A successful match is an answer of the continuation, given on a text
    no longer than the one the match started from. *)
Lemma plus_class_answer (f : ascii -> bool) (k : cont) (a : text * list text) :
  forall s gs,
    plus_class f s gs k = Some a ->
    exists s1 gs1, k s1 gs1 = Some a /\ List.length s1 < List.length s.
Proof.
  induction s as [|c s IH]; intros gs; simpl; [discriminate|].
  destruct (f c); [|discriminate].
  destruct (plus_class f s gs k) as [b|] eqn:E.
  - intros H. injection H as ->.
    destruct (IH _ E) as (s1 & gs1 & H1 & H2). exists s1, gs1. split; [assumption|lia].
  - intros H. exists s, gs. split; [assumption|lia].
Qed.

Lemma run_re_answer (r : regex) :
  forall s gs k a,
    run_re ic r s gs k = Some a ->
    exists s1 gs1,
      k s1 gs1 = Some a
      /\ List.length s1 <= List.length s
      /\ (consumes r = true -> List.length s1 < List.length s).
Proof.
  induction r as [|c|n rs|n rs|r1 IH1 r2 IH2|r1 IH1 r2 IH2|r1 IH1];
    intros s gs k a; simpl.
  - intros H. exists s, gs. repeat split; [assumption|lia|discriminate].
  - destruct s as [|x s]; [discriminate|].
    destruct (lit_match ic c x); [|discriminate].
    intros H. exists s, gs. simpl. repeat split; [assumption|lia|lia].
  - destruct s as [|x s]; [discriminate|].
    destruct (class_match ic n rs x); [|discriminate].
    intros H. exists s, gs. simpl. repeat split; [assumption|lia|lia].
  - intros H. destruct (plus_class_answer _ _ _ _ _ H) as (s1 & gs1 & H1 & H2).
    exists s1, gs1. repeat split; [assumption|lia|lia].
  - intros H. destruct (IH1 _ _ _ _ H) as (s1 & gs1 & H1 & L1 & C1).
    destruct (IH2 _ _ _ _ H1) as (s2 & gs2 & H2 & L2 & C2).
    exists s2, gs2. repeat split; [assumption|lia|].
    intros C. apply orb_true_iff in C. destruct C as [C|C];
      [specialize (C1 C)|specialize (C2 C)]; lia.
  - destruct (run_re ic r1 s gs k) as [b|] eqn:E.
    + intros H. injection H as ->.
      destruct (IH1 _ _ _ _ E) as (s1 & gs1 & H1 & L1 & C1).
      exists s1, gs1. repeat split; [assumption|lia|].
      intros C. apply andb_true_iff in C. tauto.
    + intros H. destruct (IH2 _ _ _ _ H) as (s1 & gs1 & H1 & L1 & C1).
      exists s1, gs1. repeat split; [assumption|lia|].
      intros C. apply andb_true_iff in C. tauto.
  - intros H. destruct (IH1 _ _ _ _ H) as (s1 & gs1 & H1 & L1 & C1).
    eexists s1, _. repeat split; [exact H1|lia|assumption].
Qed.

(** A match found in a text is still found when more text follows: the
    match attempt may end elsewhere, but it does not fail. *)
Lemma plus_class_extend (f : ascii -> bool) (y : text) (k k' : cont) :
  (forall s1 g1 g1', k s1 g1 <> None -> k' (s1 ++ y) g1' <> None) ->
  forall s gs gs',
    plus_class f s gs k <> None -> plus_class f (s ++ y) gs' k' <> None.
Proof.
  intros Hk. induction s as [|c s IH]; intros gs gs'; simpl; [congruence|].
  destruct (f c); [|congruence].
  destruct (plus_class f s gs k) eqn:E.
  - intros _. specialize (IH gs gs'). rewrite E in IH.
    destruct (plus_class f (s ++ y) gs' k'); [discriminate|].
    now destruct IH.
  - intros H. destruct (plus_class f (s ++ y) gs' k'); [discriminate|].
    now apply (Hk s gs gs').
Qed.

Lemma run_re_extend (r : regex) (y : text) :
  forall (k k' : cont),
    (forall s1 g1 g1', k s1 g1 <> None -> k' (s1 ++ y) g1' <> None) ->
    forall s gs gs',
      run_re ic r s gs k <> None -> run_re ic r (s ++ y) gs' k' <> None.
Proof.
  induction r as [|c|n rs|n rs|r1 IH1 r2 IH2|r1 IH1 r2 IH2|r1 IH1];
    intros k k' Hk s gs gs'; simpl.
  - apply Hk.
  - destruct s as [|x s]; simpl; [congruence|].
    destruct (lit_match ic c x); [apply Hk|congruence].
  - destruct s as [|x s]; simpl; [congruence|].
    destruct (class_match ic n rs x); [apply Hk|congruence].
  - now apply plus_class_extend.
  - apply IH1. intros s1 g1 g1'. now apply IH2.
  - destruct (run_re ic r1 s gs k) eqn:E.
    + intros _. pose proof (IH1 k k' Hk s gs gs') as H. rewrite E in H.
      destruct (run_re ic r1 (s ++ y) gs' k'); [discriminate|].
      now destruct H.
    + intros H. destruct (run_re ic r1 (s ++ y) gs' k'); [discriminate|].
      now apply (IH2 k k' Hk s gs gs').
  - apply IH1. intros s1 g1 g1'. apply Hk.
Qed.

End Engine.

Lemma match_here_consumes (p : pattern) (s : text) (len : nat) (gs : list text) :
  consumes (expr p) = true -> match_here p s = Some (len, gs) -> 0 < len.
Proof.
  unfold match_here. intros C.
  destruct (run_re _ _ _ _ _) as [[rest g]|] eqn:E; [|discriminate].
  intros H. injection H as <- _.
  destruct (run_re_answer _ _ _ _ _ _ E) as (s1 & gs1 & H1 & _ & L).
  unfold accept in H1. injection H1 as -> _. specialize (L C). lia.
Qed.

Lemma match_here_extend (p : pattern) (x y : text) :
  match_here p (x ++ y) = None -> match_here p x = None.
Proof.
  unfold match_here. intros H.
  destruct (run_re (IGNORECASE p) (expr p) x [] accept) as [[rest g]|] eqn:E;
    [|reflexivity].
  assert (N : run_re (IGNORECASE p) (expr p) (x ++ y) [] accept <> None).
  { apply (run_re_extend (IGNORECASE p) (expr p) y accept accept)
      with (gs := []).
    - intros s1 g1 g1' _. discriminate.
    - rewrite E. discriminate. }
  destruct (run_re (IGNORECASE p) (expr p) (x ++ y) [] accept) as [[r' g']|];
    [discriminate|now destruct N].
Qed.

(** A stretch in which no match starts holds no match when scanned on its
    own. *)
Lemma quiet_finditer (p : pattern) (rest : text) :
  forall g pos, quiet p g rest -> finditer_from p pos 0 g = [].
Proof.
  induction g as [|c g IH]; intros pos; simpl; [reflexivity|].
  intros [H Q]. change (c :: g ++ rest) with ((c :: g) ++ rest) in H.
  rewrite (match_here_extend _ _ _ H). now apply IH.
Qed.

(** Every kept stretch is such a stretch. *)
Lemma kept_from_quiet (p : pattern) :
  consumes (expr p) = true ->
  forall s,
    (forall skip, Forall (fun g => exists rest, quiet p g rest)
                         (kept_from p skip s))
    /\ (exists g gs rest, kept_from p 0 s = g :: gs
                          /\ s = g ++ rest /\ quiet p g rest).
Proof.
  intros C. induction s as [|c s [IHa (g & gs & rest & Ek & Es & Q)]].
  - split.
    + intros skip. simpl. constructor; [now exists []|constructor].
    + exists [], [], []. simpl. auto.
  - assert (Z : Forall (fun g => exists rest, quiet p g rest)
                       (kept_from p 0 (c :: s))
                /\ exists g gs rest, kept_from p 0 (c :: s) = g :: gs
                                     /\ c :: s = g ++ rest /\ quiet p g rest).
    { simpl. destruct (match_here p (c :: s)) as [[[|n] gr]|] eqn:E.
      - apply match_here_consumes in E; [lia|assumption].
      - split.
        + constructor; [now exists []|apply IHa].
        + exists [], (kept_from p n s), (c :: s). simpl. auto.
      - rewrite Ek. simpl.
        assert (Q' : quiet p (c :: g) rest)
          by (simpl; rewrite <- Es; auto).
        split.
        + constructor; [now exists rest|].
          specialize (IHa 0). rewrite Ek in IHa. now inversion IHa.
        + exists (c :: g), gs, rest. rewrite Es. auto. }
    split; [|apply Z].
    intros [|n]; [apply Z|apply IHa].
Qed.

Lemma kept_clean (p : pattern) (s : text) :
  consumes (expr p) = true ->
  Forall (fun g => finditer p g = []) (kept p s).
Proof.
  intros C. destruct (kept_from_quiet p C s) as [H _].
  eapply Forall_impl; [|apply (H 0)].
  intros g [rest Q]. now apply (quiet_finditer p rest).
Qed.

Lemma kept_from_cons (p : pattern) (s : text) :
  forall skip, exists g gs, kept_from p skip s = g :: gs.
Proof.
  induction s as [|c s IH]; intros skip; simpl; [now exists [], []|].
  destruct skip as [|n]; [|apply IH].
  destruct (IH 0) as (g & gs & E).
  destruct (match_here p (c :: s)) as [[[|n] gr]|];
    rewrite ?E; simpl; eauto.
Qed.

Lemma weave_cons_head (c : ascii) (g : text) (gs : list text) (ms : list Match) :
  weave (cons_head c (g :: gs)) ms = c :: weave (g :: gs) ms.
Proof. now destruct ms. Qed.

(** The stretches of the scan of [sub] and the matches of the scan of
    [finditer] make up the scanned text. *)
Lemma scan_weave (p : pattern) (s : text) :
  forall skip pos,
    skipn skip s = weave (kept_from p skip s) (finditer_from p pos skip s)
    /\ List.length (kept_from p skip s)
       = S (List.length (finditer_from p pos skip s)).
Proof.
  induction s as [|c s IH]; intros skip pos.
  - simpl. now rewrite skipn_nil.
  - destruct skip as [|n]; [|apply IH].
    cbn [kept_from finditer_from skipn].
    destruct (match_here p (c :: s)) as [[[|n] gr]|].
    + destruct (IH 0 (S pos)) as [E L].
      destruct (kept_from_cons p s 0) as (g & gs & K).
      cbn [Nat.sub]. rewrite K in *.
      cbn [weave group0 firstn app]. rewrite weave_cons_head. split.
      * f_equal. exact E.
      * cbn [cons_head List.length] in *. lia.
    + destruct (IH n (S pos)) as [E L].
      replace (S n - 1) with n by lia.
      cbn [weave group0 List.length app firstn]. split.
      * f_equal. rewrite <- E. now rewrite firstn_skipn.
      * lia.
    + destruct (IH 0 (S pos)) as [E L].
      destruct (kept_from_cons p s 0) as (g & gs & K).
      rewrite K in *. rewrite weave_cons_head. split.
      * f_equal. cbn [skipn] in E. exact E.
      * cbn [cons_head List.length] in *. lia.
Qed.

Lemma finditer_from_start (p : pattern) (s : text) :
  forall pos skip m ms,
    finditer_from p pos skip s = m :: ms -> pos + skip <= m_start m.
Proof.
  induction s as [|c s IH]; intros pos skip m ms; simpl; [discriminate|].
  destruct skip as [|n].
  - destruct (match_here p (c :: s)) as [[len gr]|].
    + intros H. injection H as <- _. simpl. lia.
    + intros H. apply IH in H. lia.
  - intros H. apply IH in H. lia.
Qed.

Lemma skipn_past (pre s : text) (c : ascii) :
  skipn (List.length pre) (pre ++ c :: s) = c :: s
  /\ skipn (S (List.length pre)) (pre ++ c :: s) = s.
Proof.
  induction pre as [|x pre [IH1 IH2]]; [now split|].
  split; [exact IH1|exact IH2].
Qed.

Lemma between_cons_head (ms : list Match) (pre s : text) (c : ascii) :
  (forall m ms', ms = m :: ms' -> S (List.length pre) <= m_start m) ->
  cons_head c (between_matches ms (S (List.length pre)) (pre ++ c :: s))
  = between_matches ms (List.length pre) (pre ++ c :: s).
Proof.
  intros H. destruct (skipn_past pre s c) as [E1 E2].
  destruct ms as [|m ms']; cbn [between_matches]; rewrite E1, E2.
  - reflexivity.
  - specialize (H m ms' eq_refl).
    replace (m_start m - List.length pre)
      with (S (m_start m - S (List.length pre))) by lia.
    reflexivity.
Qed.

(** The stretches that [sub] keeps are the text between the matches that
    [finditer] reports. *)
Lemma kept_between (p : pattern) :
  consumes (expr p) = true ->
  forall s pre skip,
    kept_from p skip s
    = between_matches (finditer_from p (List.length pre) skip s)
                      (List.length pre + skip) (pre ++ s).
Proof.
  intros C. induction s as [|c s IH]; intros pre skip.
  - simpl. rewrite app_nil_r, skipn_all2; [reflexivity|lia].
  - assert (A : pre ++ c :: s = (pre ++ [c]) ++ s) by now rewrite <- app_assoc.
    assert (L : List.length (pre ++ [c]) = S (List.length pre))
      by (rewrite length_app; simpl; lia).
    destruct skip as [|n].
    + cbn [kept_from finditer_from].
      destruct (match_here p (c :: s)) as [[[|n] gr]|] eqn:E.
      * apply match_here_consumes in E; [lia|assumption].
      * replace (S n - 1) with n by lia.
        cbn [between_matches m_start m_end].
        replace (List.length pre - (List.length pre + 0)) with 0 by lia.
        cbn [firstn]. f_equal.
        rewrite (IH (pre ++ [c]) n), L, <- A. f_equal. lia.
      * rewrite (IH (pre ++ [c]) 0), L, <- A.
        rewrite !Nat.add_0_r. apply between_cons_head.
        intros m ms' H. apply finditer_from_start in H. lia.
    + cbn [kept_from finditer_from].
      rewrite (IH (pre ++ [c]) n), L, <- A. f_equal. lia.
Qed.

Lemma sub_removes_its_matches (p : pattern) (b : text) :
  consumes (expr p) = true -> removes_its_matches p b (sub p "" b).
Proof.
  intros C. unfold removes_its_matches. cbv zeta.
  pose proof (kept_between p C b [] 0) as K.
  cbn [List.length app Nat.add] in K.
  change (finditer_from p 0 0 b) with (finditer p b) in K.
  change (kept_from p 0 b) with (kept p b) in K.
  rewrite <- K.
  destruct (scan_weave p b 0 0) as [E L].
  split; [exact L|]. split; [exact E|].
  split; [apply sub_from_kept|now apply kept_clean].
Qed.

(** C2, as the spec has it, fails: the alarm pattern does not match the
    token that a warning code splits, and matches what is left once the
    warning pass has taken the code out. *)
Lemma C2_alarm_appears_after_warnings :
  ~ higher_classes_gone alarm_split_by_warning.
Proof.
  unfold higher_classes_gone. cbv zeta. intros [H _].
  vm_compute in H. discriminate H.
Qed.

(** C2 (amended): each of the three removal passes takes out exactly the
    matches that its one scan of the buffer reports: the buffer is the
    stretches before, between and after these matches with the matched
    texts in their places, the pass leaves the stretches joined together,
    and no stretch contains a match of the pattern of that pass.  Text that
    matches a processed pattern can appear where stretches are joined or
    where a later pass takes something out; it is not reported in that
    cycle, whose notifications are those of one scan per pattern.  A later
    cycle reports it when it is still in the buffer, as for the alarm that a
    warning code splits; it is lost when the card pass of the same cycle
    drops it with the text before the last card, as for the second of two
    alarms that share a space in front of a card. *)
Theorem C2_kept_stretches_are_clean
    (W : world) (config : Config) (w : monitor) :
  removes_its_matches ALARM_PATTERN (text_buffer w)
                      (text_buffer (alarm_pass w))
  /\ removes_its_matches WARNING_PATTERN (text_buffer w)
                         (text_buffer (warning_pass w))
  /\ removes_its_matches FAILED_READ_PATTERN (text_buffer w)
                         (text_buffer (failed_pass w))
  /\ scheduled (fst (classify W config w))
     = scheduled w ++ notes_of_pass (text_buffer w)
  /\ (let w1 := fst (classify W config (holding alarm_split_by_warning)) in
      let w2 := fst (classify W config w1) in
      scheduled w1 = [on_error "Warning: W0x01"]
      /\ text_buffer w1 = " [Game]<Alarm:E3 Jam> "
      /\ scheduled w2 = [on_error "Warning: W0x01"; on_error "ALARM: E3 Jam";
                         on_card "FAIL: E3 Jam" false]
      /\ text_buffer w2 = [])
  /\ (let w1 := fst (classify W config (holding alarm_before_card)) in
      findall ALARM_PATTERN (after_alarms alarm_before_card) = ["E2" : text]
      /\ scheduled w1 = [on_error "ALARM: E1"; on_card "S4" true]
      /\ text_buffer w1 = []).
Proof.
  rewrite alarm_pass_eq, warning_pass_eq, failed_pass_eq.
  cbn [text_buffer set_buffer].
  split; [now apply sub_removes_its_matches|].
  split; [now apply sub_removes_its_matches|].
  split; [now apply sub_removes_its_matches|].
  split.
  { destruct (classify_spec W config w) as (w' & E & Hs & _).
    now rewrite E. }
  split.
  - cbv zeta.
    destruct (classify_spec W config (holding alarm_split_by_warning))
      as (w1 & E1 & Hs1 & Hb1 & _).
    rewrite E1. cbn [fst].
    destruct (classify_spec W config w1) as (w2 & E2 & Hs2 & Hb2 & _).
    rewrite E2. cbn [fst].
    assert (B1 : text_buffer w1 = " [Game]<Alarm:E3 Jam> ")
      by (rewrite Hb1; vm_compute; reflexivity).
    assert (S1 : scheduled w1 = [on_error "Warning: W0x01"])
      by (rewrite Hs1; vm_compute; reflexivity).
    rewrite Hs2, Hb2, S1, B1.
    split; [reflexivity|]. split; [reflexivity|].
    split; vm_compute; reflexivity.
  - cbv zeta.
    destruct (classify_spec W config (holding alarm_before_card))
      as (w1 & E1 & Hs1 & Hb1 & _).
    rewrite E1. cbn [fst]. rewrite Hs1, Hb1.
    split; [|split]; vm_compute; reflexivity.
Qed.

(** * Further properties *)

(** ** What a match is made of *)

Lemma plus_class_sound (f : ascii -> bool) (k : cont) (a : text * list text) :
  forall s gs,
    plus_class f s gs k = Some a ->
    exists u s1, s = u ++ s1 /\ u <> [] /\ forallb f u = true
                 /\ k s1 gs = Some a.
Proof.
  induction s as [|c s IH]; intros gs; simpl; [discriminate|].
  destruct (f c) eqn:F; [|discriminate].
  destruct (plus_class f s gs k) as [b|] eqn:E.
  - intros H. injection H as ->.
    destruct (IH _ E) as (u & s1 & -> & _ & Hu & Hk).
    exists (c :: u), s1. simpl. rewrite F, Hu. repeat split; [discriminate|exact Hk].
  - intros H. exists [c], s. simpl. rewrite F. repeat split; [discriminate|exact H].
Qed.

(** Whatever the matcher accepts is matched by the pattern: the text it
    passed over is in the meaning of the pattern, with the groups it
    recorded. *)
Lemma run_re_sound (ic : bool) (r : regex) :
  forall s gs k a,
    run_re ic r s gs k = Some a ->
    exists u s1 g, s = u ++ s1 /\ sem ic r u g /\ k s1 (gs ++ g) = Some a.
Proof.
  induction r as [|c|n rs|n rs|r1 IH1 r2 IH2|r1 IH1 r2 IH2|r1 IH1];
    intros s gs k a; simpl.
  - intros H. exists [], s, []. rewrite app_nil_r. repeat split; [constructor|exact H].
  - destruct s as [|x s]; [discriminate|].
    destruct (lit_match ic c x) eqn:L; [|discriminate].
    intros H. exists [x], s, []. rewrite app_nil_r.
    repeat split; [now constructor|exact H].
  - destruct s as [|x s]; [discriminate|].
    destruct (class_match ic n rs x) eqn:L; [|discriminate].
    intros H. exists [x], s, []. rewrite app_nil_r.
    repeat split; [now constructor|exact H].
  - intros H. destruct (plus_class_sound _ _ _ _ _ H) as (u & s1 & -> & N & F & Hk).
    exists u, s1, []. rewrite app_nil_r. repeat split; [now constructor|exact Hk].
  - intros H. destruct (IH1 _ _ _ _ H) as (u1 & s1 & g1 & -> & S1 & H1).
    destruct (IH2 _ _ _ _ H1) as (u2 & s2 & g2 & -> & S2 & H2).
    exists (u1 ++ u2), s2, (g1 ++ g2). rewrite <- !app_assoc in *.
    repeat split; [now constructor|exact H2].
  - destruct (run_re ic r1 s gs k) as [b|] eqn:E.
    + intros H. injection H as ->.
      destruct (IH1 _ _ _ _ E) as (u & s1 & g & -> & S1 & H1).
      exists u, s1, g. repeat split; [now apply sem_Alt_l|exact H1].
    + intros H. destruct (IH2 _ _ _ _ H) as (u & s1 & g & -> & S1 & H1).
      exists u, s1, g. repeat split; [now apply sem_Alt_r|exact H1].
  - intros H. destruct (IH1 _ _ _ _ H) as (u & s1 & g & -> & S1 & H1).
    exists u, s1, (g ++ [u]). repeat split; [now constructor|].
    rewrite length_app, Nat.add_sub, firstn_app, Nat.sub_diag, firstn_all in H1.
    simpl in H1. rewrite app_nil_r, <- app_assoc in H1. exact H1.
Qed.

Lemma match_here_sound (p : pattern) (s : text) (len : nat) (gs : list text) :
  match_here p s = Some (len, gs) ->
  exists u s1, s = u ++ s1 /\ len = List.length u
               /\ firstn len s = u
               /\ sem (IGNORECASE p) (expr p) u gs.
Proof.
  unfold match_here.
  destruct (run_re _ _ _ _ _) as [[rest g]|] eqn:E; [|discriminate].
  intros H. injection H as <- <-.
  destruct (run_re_sound _ _ _ _ _ _ E) as (u & s1 & g' & -> & S & K).
  unfold accept in K. injection K as <- <-.
  exists u, s1. rewrite length_app, Nat.add_sub, firstn_app, Nat.sub_diag, firstn_all.
  simpl. rewrite app_nil_r. auto.
Qed.

(** Every match of a scan is a stretch of the scanned text, at the offsets
    it reports, and matched by the pattern. *)
Lemma finditer_from_sound (p : pattern) (m : Match) :
  forall s pos skip,
    In m (finditer_from p pos skip s) ->
    exists pre post,
      s = pre ++ group0 m ++ post
      /\ m_start m = pos + List.length pre
      /\ m_end m = m_start m + List.length (group0 m)
      /\ sem (IGNORECASE p) (expr p) (group0 m) (groups m).
Proof.
  induction s as [|c s IH]; intros pos skip; simpl; [contradiction|].
  assert (Step : forall n,
            In m (finditer_from p (S pos) n s) ->
            exists pre post,
              c :: s = pre ++ group0 m ++ post
              /\ m_start m = pos + List.length pre
              /\ m_end m = m_start m + List.length (group0 m)
              /\ sem (IGNORECASE p) (expr p) (group0 m) (groups m)).
  { intros n H. destruct (IH _ _ H) as (pre & post & -> & Hs & He & S).
    exists (c :: pre), post. simpl. repeat split; trivial; lia. }
  destruct skip as [|n]; [|apply Step].
  destruct (match_here p (c :: s)) as [[len gs]|] eqn:E; [|apply Step].
  intros [<-|H]; [|now apply (Step _ H)].
  destruct (match_here_sound _ _ _ _ E) as (u & s1 & Es & El & Ef & S).
  exists [], s1. simpl. rewrite Ef, <- Es, <- El. repeat split; trivial; lia.
Qed.

Lemma finditer_sound (p : pattern) (s : text) (m : Match) :
  In m (finditer p s) ->
  exists pre post,
    s = pre ++ group0 m ++ post
    /\ m_start m = List.length pre
    /\ m_end m = m_start m + List.length (group0 m)
    /\ sem (IGNORECASE p) (expr p) (group0 m) (groups m).
Proof. intros H. apply (finditer_from_sound p m s 0 0 H). Qed.

Lemma sem_Seq_inv (ic : bool) (r1 r2 : regex) (u : text) (g : list text) :
  sem ic (Seq r1 r2) u g ->
  exists u1 u2 g1 g2,
    u = u1 ++ u2 /\ g = g1 ++ g2 /\ sem ic r1 u1 g1 /\ sem ic r2 u2 g2.
Proof. intros H. inversion H; subst. now exists u1, u2, g1, g2. Qed.

Lemma sem_Alt_inv (ic : bool) (r1 r2 : regex) (u : text) (g : list text) :
  sem ic (Alt r1 r2) u g -> sem ic r1 u g \/ sem ic r2 u g.
Proof. intros H. inversion H; subst; auto. Qed.

Lemma sem_Group_inv (ic : bool) (r : regex) (u : text) (g : list text) :
  sem ic (Group r) u g -> exists g', g = g' ++ [u] /\ sem ic r u g'.
Proof. intros H. inversion H; subst. now eexists. Qed.

Lemma sem_Class_inv (ic n : bool) (rs : list (ascii * ascii)) (u : text)
                    (g : list text) :
  sem ic (Class n rs) u g ->
  exists x, u = [x] /\ g = [] /\ class_match ic n rs x = true.
Proof. intros H. inversion H; subst. now eexists. Qed.

Lemma sem_Lit_inv (ic : bool) (c : ascii) (u : text) (g : list text) :
  sem ic (Lit c) u g -> exists x, u = [x] /\ g = [] /\ lit_match ic c x = true.
Proof. intros H. inversion H; subst. now eexists. Qed.

Lemma sem_PlusClass_inv (ic n : bool) (rs : list (ascii * ascii)) (u : text)
                        (g : list text) :
  sem ic (PlusClass n rs) u g ->
  u <> [] /\ g = [] /\ forallb (class_match ic n rs) u = true.
Proof. intros H. inversion H; subst. auto. Qed.

(** A run of literals records no group and matches character by
    character. *)
Lemma sem_lit_inv (ic : bool) (t : text) :
  forall u g,
    sem ic (lit t) u g ->
    g = [] /\ Forall2 (fun c x => lit_match ic c x = true) t u.
Proof.
  induction t as [|c t IH]; intros u g H.
  - inversion H; subst. split; [reflexivity|constructor].
  - destruct t as [|c' t].
    + apply sem_Lit_inv in H. destruct H as (x & -> & -> & L).
      split; [reflexivity|]. repeat constructor. exact L.
    + change (lit (c :: c' :: t)) with (Seq (Lit c) (lit (c' :: t))) in H.
      apply sem_Seq_inv in H. destruct H as (u1 & u2 & g1 & g2 & -> & -> & H1 & H2).
      apply sem_Lit_inv in H1. destruct H1 as (x & -> & -> & L).
      destruct (IH _ _ H2) as [-> F]. split; [reflexivity|].
      simpl. now constructor.
Qed.

(** The characters the classes and the digits of the card pattern accept. *)
Lemma rank_class_chars (x : ascii) :
  class_match true false RANK_CLASS x = true -> mem [x] (any_case RANKS) = true.
Proof.
  destruct x as [[|] [|] [|] [|] [|] [|] [|] [|]]; vm_compute; intros H;
    first [discriminate H | reflexivity].
Qed.

Lemma suit_class_chars (x : ascii) :
  class_match true false SUIT_CLASS x = true -> mem [x] (any_case SUITS) = true.
Proof.
  destruct x as [[|] [|] [|] [|] [|] [|] [|] [|]]; vm_compute; intros H;
    first [discriminate H | reflexivity].
Qed.

Lemma ten_chars (x y : ascii) :
  lit_match true "1" x = true -> lit_match true "0" y = true ->
  mem [x; y] (any_case RANKS) = true.
Proof.
  intros Hx Hy.
  assert (Ex : x = "1"%char)
    by (revert Hx; destruct x as [[|] [|] [|] [|] [|] [|] [|] [|]]; vm_compute;
        intros H; first [discriminate H | reflexivity]).
  assert (Ey : y = "0"%char)
    by (revert Hy; destruct y as [[|] [|] [|] [|] [|] [|] [|] [|]]; vm_compute;
        intros H; first [discriminate H | reflexivity]).
  subst. reflexivity.
Qed.

(** The groups of a card match are a rank and a suit of the pattern, in
    some letter case. *)
Lemma card_groups (u : text) (gs : list text) :
  sem (IGNORECASE CARD_PATTERN) (expr CARD_PATTERN) u gs ->
  exists rank suit,
    gs = [rank; suit]
    /\ mem rank (any_case RANKS) = true /\ mem suit (any_case SUITS) = true.
Proof.
  unfold CARD_PATTERN. cbn [IGNORECASE expr]. intros H.
  apply sem_Seq_inv in H. destruct H as (u1 & ua & g1 & ga & -> & -> & H1 & H).
  apply sem_lit_inv in H1. destruct H1 as [-> _].
  apply sem_Seq_inv in H. destruct H as (u2 & ub & g2 & gb & -> & -> & H2 & H).
  assert (g2 = []) as ->
    by (apply sem_Alt_inv in H2; destruct H2 as [H2|H2];
        apply sem_lit_inv in H2; tauto).
  apply sem_Seq_inv in H. destruct H as (u3 & uc & g3 & gc & -> & -> & H3 & H).
  apply sem_lit_inv in H3. destruct H3 as [-> _].
  apply sem_Seq_inv in H. destruct H as (rank & ud & g4 & gd & -> & -> & H4 & H).
  apply sem_Seq_inv in H. destruct H as (suit & ue & g5 & ge & -> & -> & H5 & H).
  apply sem_lit_inv in H. destruct H as [-> _].
  apply sem_Group_inv in H4. destruct H4 as (g & -> & H4).
  apply sem_Group_inv in H5. destruct H5 as (g' & -> & H5).
  apply sem_Class_inv in H5. destruct H5 as (y & -> & -> & Hy).
  exists rank, [y]. split; [|split].
  - apply sem_Alt_inv in H4. destruct H4 as [H4|H4].
    + apply sem_Class_inv in H4. now destruct H4 as (x & _ & -> & _).
    + apply sem_lit_inv in H4. now destruct H4 as [-> _].
  - apply sem_Alt_inv in H4. destruct H4 as [H4|H4].
    + apply sem_Class_inv in H4. destruct H4 as (x & -> & _ & Hx).
      now apply rank_class_chars.
    + apply sem_lit_inv in H4. destruct H4 as [_ F].
      inversion F as [|c1 x t1 r1 Hx F1]; subst.
      inversion F1 as [|c2 y' t2 r2 Hy' F2]; subst.
      inversion F2; subst. now apply ten_chars.
  - now apply suit_class_chars.
Qed.

Lemma deck_of_groups :
  forallb (fun rank => forallb (fun suit =>
             mem (upper suit ++ canonical_rank rank) DECK
             && (List.length (upper suit ++ canonical_rank rank) =? 2)%nat)
           (any_case SUITS)) (any_case RANKS) = true.
Proof. vm_compute. reflexivity. Qed.

Lemma card_of_match_in_deck (b : text) (m : Match) :
  In m (finditer CARD_PATTERN b) ->
  In (card_of_match m) DECK /\ List.length (card_of_match m) = 2.
Proof.
  intros H. destruct (finditer_sound _ _ _ H) as (pre & post & _ & _ & _ & S).
  destruct (card_groups _ _ S) as (rank & suit & G & Hr & Hs).
  assert (C : card_of_match m = upper suit ++ canonical_rank rank)
    by (unfold card_of_match, canonical_rank, group; now rewrite G).
  rewrite C. pose proof deck_of_groups as F.
  rewrite forallb_forall in F. specialize (F rank (proj1 (mem_In _ _) Hr)).
  rewrite forallb_forall in F. specialize (F suit (proj1 (mem_In _ _) Hs)).
  apply andb_true_iff in F. destruct F as [F1 F2].
  split; [now apply mem_In|now apply Nat.eqb_eq].
Qed.

(** X1: whatever the buffer holds, every code that
    [parse_cards_from_buffer] returns is one of the fifty-two two-character
    codes, a suit among C, D, H, S followed by a rank among 2-9, T, J, Q, K,
    A, in upper case; the rank is never written 10. *)
Theorem X1_parsed_cards_are_in_the_deck (b : text) :
  Forall (fun card => In card DECK /\ List.length card = 2)
         (parse_cards_from_buffer b).
Proof.
  rewrite parse_cards_map. apply Forall_forall. intros card H.
  apply in_map_iff in H. destruct H as (m & <- & H).
  now apply (card_of_match_in_deck b).
Qed.

(** ** The payload of alarms and warnings *)

Lemma not_gt_chars (x : ascii) :
  class_match true true [one ">"%char] x = true -> x <> ">"%char.
Proof.
  destruct x as [[|] [|] [|] [|] [|] [|] [|] [|]]; vm_compute; intros H;
    first [discriminate H | discriminate].
Qed.

Lemma hex_class_chars (x : ascii) :
  class_match true false [("0", "9"); ("A", "F"); ("a", "f")]%char x = true ->
  is_hex x = true.
Proof.
  destruct x as [[|] [|] [|] [|] [|] [|] [|] [|]]; vm_compute; intros H;
    first [discriminate H | reflexivity].
Qed.

Lemma lit_match_lower (t u : text) :
  Forall2 (fun c x => lit_match true c x = true) t u -> lower u = lower t.
Proof.
  induction 1 as [|c x t u L F IH]; simpl; [reflexivity|].
  unfold lit_match in L. apply Ascii.eqb_eq in L. now rewrite IH, L.
Qed.

Lemma forallb_impl (A : Type) (f g : A -> bool) (l : list A) :
  (forall x, f x = true -> g x = true) ->
  forallb f l = true -> forallb g l = true.
Proof.
  intros H. rewrite !forallb_forall. auto.
Qed.

Lemma alarm_groups (u : text) (gs : list text) :
  sem (IGNORECASE ALARM_PATTERN) (expr ALARM_PATTERN) u gs ->
  exists msg, gs = [msg] /\ msg <> [] /\ ~ In ">"%char msg.
Proof.
  unfold ALARM_PATTERN. cbn [IGNORECASE expr]. intros H.
  apply sem_Seq_inv in H. destruct H as (u1 & ua & g1 & ga & -> & -> & H1 & H).
  apply sem_lit_inv in H1. destruct H1 as [-> _].
  apply sem_Seq_inv in H. destruct H as (u2 & ub & g2 & gb & -> & -> & H2 & H).
  assert (g2 = []) as ->.
  { apply sem_Alt_inv in H2. destruct H2 as [H2|H2].
    - apply sem_Seq_inv in H2.
      destruct H2 as (v1 & v2 & h1 & h2 & -> & -> & K1 & K2).
      apply sem_lit_inv in K1. destruct K1 as [-> _].
      apply sem_Alt_inv in K2. destruct K2 as [K2|K2].
      + apply sem_lit_inv in K2. tauto.
      + now inversion K2.
    - apply sem_lit_inv in H2. tauto. }
  apply sem_Seq_inv in H. destruct H as (u3 & uc & g3 & gc & -> & -> & H3 & H).
  apply sem_lit_inv in H3. destruct H3 as [-> _].
  apply sem_Seq_inv in H. destruct H as (msg & ud & g4 & gd & -> & -> & H4 & H).
  apply sem_lit_inv in H. destruct H as [-> _].
  apply sem_Group_inv in H4. destruct H4 as (g & -> & H4).
  apply sem_PlusClass_inv in H4. destruct H4 as (N & -> & F).
  exists msg. repeat split; trivial.
  intros I. rewrite forallb_forall in F. now apply (not_gt_chars _ (F _ I)).
Qed.

Lemma warning_groups (u : text) (gs : list text) :
  sem (IGNORECASE WARNING_PATTERN) (expr WARNING_PATTERN) u gs ->
  exists prefix digits,
    gs = [prefix ++ digits] /\ lower prefix = "w0x"
    /\ digits <> [] /\ forallb is_hex digits = true.
Proof.
  unfold WARNING_PATTERN. cbn [IGNORECASE expr]. intros H.
  apply sem_Seq_inv in H. destruct H as (u1 & ua & g1 & ga & -> & -> & H1 & H).
  apply sem_Lit_inv in H1. destruct H1 as (x & -> & -> & _).
  apply sem_Seq_inv in H. destruct H as (code & ub & g2 & gb & -> & -> & H2 & H).
  apply sem_Lit_inv in H. destruct H as (y & -> & -> & _).
  apply sem_Group_inv in H2. destruct H2 as (g & -> & H2).
  apply sem_Seq_inv in H2.
  destruct H2 as (prefix & digits & h1 & h2 & -> & -> & K1 & K2).
  apply sem_lit_inv in K1. destruct K1 as [-> K1].
  apply sem_PlusClass_inv in K2. destruct K2 as (N & -> & F).
  exists prefix, digits. repeat split; trivial.
  - now rewrite (lit_match_lower _ _ K1).
  - revert F. apply forallb_impl, hex_class_chars.
Qed.

Lemma findall_one_group (p : pattern) (b : text) (t : text) (Q : text -> Prop) :
  (forall u gs, sem (IGNORECASE p) (expr p) u gs -> exists g, gs = [g] /\ Q g) ->
  In t (findall p b) -> Q t.
Proof.
  intros G H. unfold findall in H. apply in_map_iff in H.
  destruct H as (m & <- & H).
  destruct (finditer_sound _ _ _ H) as (pre & post & _ & _ & _ & S).
  destruct (G _ _ S) as (g & -> & HQ). exact HQ.
Qed.

(** X2: an alarm message taken from the buffer is never empty and never
    contains the character >: the message ends at the first > after
    "<Alarm:". *)
Theorem X2_alarm_message_shape (b msg : text) :
  In msg (findall ALARM_PATTERN b) -> msg <> [] /\ ~ In ">"%char msg.
Proof.
  apply (findall_one_group ALARM_PATTERN b msg
           (fun g => g <> [] /\ ~ In ">"%char g)).
  intros u gs S. destruct (alarm_groups _ _ S) as (g & -> & H). now exists g.
Qed.

Lemma X2_alarm_message_shape_witness :
  ("E5 Door Open" : text) <> [] /\ ~ In ">"%char ("E5 Door Open" : text).
Proof.
  apply (X2_alarm_message_shape alarm_then_warning "E5 Door Open").
  vm_compute. left. reflexivity.
Defined.

(** X3: a warning code taken from the buffer is W0x in some letter case
    followed by at least one hexadecimal digit, and nothing else. *)
Theorem X3_warning_code_shape (b code : text) :
  In code (findall WARNING_PATTERN b) ->
  exists prefix digits,
    code = prefix ++ digits /\ lower prefix = "w0x"
    /\ digits <> [] /\ forallb is_hex digits = true.
Proof.
  apply (findall_one_group WARNING_PATTERN b code
           (fun g => exists prefix digits,
                       g = prefix ++ digits /\ lower prefix = "w0x"
                       /\ digits <> [] /\ forallb is_hex digits = true)).
  intros u gs S. destruct (warning_groups _ _ S) as (prefix & digits & -> & H).
  eexists. split; [reflexivity|]. now exists prefix, digits.
Qed.

Lemma X3_warning_code_shape_witness :
  exists prefix digits,
    ("W0x1F" : text) = prefix ++ digits /\ lower prefix = "w0x"
    /\ digits <> [] /\ forallb is_hex digits = true.
Proof.
  apply (X3_warning_code_shape alarm_then_warning "W0x1F").
  vm_compute. left. reflexivity.
Defined.

(** ** What the card pass leaves *)

Lemma finditer_from_nil_pos (p : pattern) (s : text) :
  forall pos pos' skip,
    finditer_from p pos skip s = [] -> finditer_from p pos' skip s = [].
Proof.
  induction s as [|c s IH]; intros pos pos' skip; simpl; [reflexivity|].
  destruct skip as [|n]; [|apply IH].
  destruct (match_here p (c :: s)) as [[len gs]|]; [discriminate|apply IH].
Qed.

(** A text without a match has no match in any of its ends. *)
Lemma finditer_nil_suffix (p : pattern) (a b : text) :
  finditer p (a ++ b) = [] -> finditer p b = [].
Proof.
  unfold finditer. induction a as [|c a IH]; simpl; [trivial|].
  destruct (match_here p (c :: a ++ b)) as [[len gs]|]; [discriminate|].
  intros H. apply IH. revert H. apply finditer_from_nil_pos.
Qed.

Lemma finditer_nil_skipn (p : pattern) (n : nat) (s : text) :
  finditer p s = [] -> finditer p (skipn n s) = [].
Proof.
  intros H. apply (finditer_nil_suffix p (firstn n s)).
  now rewrite firstn_skipn.
Qed.

(** Nothing matches after the end of the last match of a scan. *)
Lemma finditer_from_tail (p : pattern) :
  consumes (expr p) = true ->
  forall s pos skip,
    skip <= List.length s ->
    match rev (finditer_from p pos skip s) with
    | [] => finditer p (skipn skip s) = []
    | m :: _ => pos <= m_end m /\ finditer p (skipn (m_end m - pos) s) = []
    end.
Proof.
  intros C. induction s as [|c s IH]; intros pos skip L.
  - simpl in L. assert (skip = 0) as -> by lia. reflexivity.
  - assert (Step : forall n,
              n <= List.length s ->
              match rev (finditer_from p (S pos) n s) with
              | [] => finditer p (skipn n s) = []
              | m :: _ =>
                  pos <= m_end m
                  /\ finditer p (skipn (m_end m - pos) (c :: s)) = []
              end).
    { intros n Ln. specialize (IH (S pos) n Ln).
      destruct (rev (finditer_from p (S pos) n s)) as [|m r]; [exact IH|].
      destruct IH as [Hm Hf]. split; [lia|].
      replace (m_end m - pos) with (S (m_end m - S pos)) by lia. exact Hf. }
    simpl finditer_from. destruct skip as [|n].
    + destruct (match_here p (c :: s)) as [[len gs]|] eqn:E.
      * pose proof (match_here_consumes _ _ _ _ C E) as Hpos.
        pose proof (match_here_length _ _ _ _ E) as Hlen. simpl in Hlen.
        destruct len as [|n]; [lia|]. simpl rev.
        specialize (Step n ltac:(lia)). rewrite Nat.sub_0_r.
        destruct (rev (finditer_from p (S pos) n s)) as [|m r]; simpl.
        -- split; [lia|].
           replace (pos + S n - pos) with (S n) by lia. exact Step.
        -- exact Step.
      * specialize (Step 0 (Nat.le_0_l _)).
        destruct (rev (finditer_from p (S pos) 0 s)) as [|m r]; [|exact Step].
        unfold finditer in *. simpl in *. rewrite E.
        revert Step. apply finditer_from_nil_pos.
    + simpl in L. specialize (Step n ltac:(lia)).
      destruct (rev (finditer_from p (S pos) n s)) as [|m r]; exact Step.
Qed.

Lemma tail_after_last_card_clean (b : text) :
  finditer CARD_PATTERN (tail_after_last_card b) = [].
Proof.
  unfold tail_after_last_card.
  pose proof (finditer_from_tail CARD_PATTERN eq_refl b 0 0 (Nat.le_0_l _)) as H.
  change (finditer_from CARD_PATTERN 0 0 b) with (finditer CARD_PATTERN b) in H.
  destruct (rev (finditer CARD_PATTERN b)) as [|m r] eqn:R.
  - exact H.
  - destruct H as [_ H]. now rewrite Nat.sub_0_r in H.
Qed.

(** X4: the buffer that a read cycle leaves contains no card token: each
    card is reported in the cycle in which its token is complete and is not
    found again, so parsing the buffer once more returns no card. *)
Theorem X4_no_card_is_left (W : world) (config : Config) (w : monitor) :
  let w' := fst (classify W config w) in
  finditer CARD_PATTERN (text_buffer w') = []
  /\ parse_cards_from_buffer (text_buffer w') = [].
Proof.
  cbv zeta. destruct (classify_spec W config w) as (w' & E & _ & Hb & _).
  rewrite E. cbn [fst].
  assert (H : finditer CARD_PATTERN (text_buffer w') = []).
  { rewrite Hb. cbv zeta. unfold buffer_after_passes.
    destruct (2000 <? _)%nat.
    - apply finditer_nil_skipn, tail_after_last_card_clean.
    - apply tail_after_last_card_clean. }
  split; [exact H|]. now rewrite parse_cards_map, H.
Qed.

(** ** Text that matches nothing *)

(** X5: a buffer of at most 2000 characters in which none of the four
    patterns matches goes through a read cycle untouched: nothing is
    queued, nothing is posted, and the buffer is kept whole for the next
    chunk to complete it. *)
Theorem X5_unmatched_text_accumulates (W : world) (config : Config)
                                      (w : monitor) :
  no_token (text_buffer w) -> List.length (text_buffer w) <= 2000 ->
  classify W config w = (w, Ok tt).
Proof.
  intros (Ha & Hw & Hf & Hc) L.
  unfold classify, four_passes, bind, exec.
  assert (A : alarm_pass w = w)
    by (unfold alarm_pass, findall; now rewrite Ha).
  rewrite A.
  assert (B : warning_pass w = w)
    by (unfold warning_pass, findall; now rewrite Hw).
  rewrite B.
  assert (F : failed_pass w = w)
    by (unfold failed_pass, findall; now rewrite Hf).
  rewrite F.
  unfold card_pass. rewrite parse_cards_map, Hc. simpl.
  unfold limit_buffer.
  destruct (2000 <? List.length (text_buffer w))%nat eqn:T; [|reflexivity].
  apply Nat.ltb_lt in T. lia.
Qed.

Lemma X5_unmatched_text_accumulates_witness :
  classify calm_world default_Config (holding " [Game]<Card:4")
  = (holding " [Game]<Card:4", Ok tt).
Proof.
  apply (X5_unmatched_text_accumulates calm_world default_Config
           (holding " [Game]<Card:4")).
  - unfold no_token. split; [|split; [|split]]; vm_compute; reflexivity.
  - simpl. lia.
Defined.

(** ** Posts and notifications *)

Lemma card_loop_posts (W : world) (config : Config) (cards : list text) :
  forall w,
    posted (fst (for_each cards (card_body W config) w))
    = posted w
      ++ map (fun card =>
                post_request W (ip config) (port config) (url config) card w)
             cards.
Proof.
  induction cards as [|c cards IH]; intros w; simpl.
  - now rewrite app_nil_r.
  - unfold bind at 1. unfold card_body at 1. unfold bind at 1.
    rewrite send_card_http_eq. cbv zeta. unfold exec at 1.
    rewrite IH. simpl. rewrite <- app_assoc. reflexivity.
Qed.

Lemma removal_passes_posted (w : monitor) :
  posted (failed_pass (warning_pass (alarm_pass w))) = posted w
  /\ now (failed_pass (warning_pass (alarm_pass w))) = now w.
Proof.
  rewrite failed_pass_eq, warning_pass_eq, alarm_pass_eq. simpl. auto.
Qed.

Lemma notified_cards_app (a b : list notification) :
  notified_cards (a ++ b) = notified_cards a ++ notified_cards b.
Proof. apply flat_map_app. Qed.

Lemma notified_cards_of_cards (cards : list text) :
  notified_cards (map (fun c => on_card c true) cards) = cards.
Proof. induction cards as [|c cards IH]; simpl; [|rewrite IH]; reflexivity. Qed.

Lemma notified_cards_none (ns : list notification) :
  Forall (fun n => match n with on_card _ true => False | _ => True end) ns ->
  notified_cards ns = [].
Proof.
  induction 1 as [|n ns H F IH]; simpl; [reflexivity|].
  rewrite IH. destruct n as [| |card [|]|msg]; simpl; tauto.
Qed.

Lemma removal_notes_no_card (b : text) :
  notified_cards
    (flat_map alarm_notes (findall ALARM_PATTERN b)
     ++ flat_map (fun c => [on_error ("Warning: " ++ c)])
                 (findall WARNING_PATTERN (after_alarms b))
     ++ flat_map (fun _ => [on_card "FAIL: Unreadable" false])
                 (findall FAILED_READ_PATTERN (after_warnings b)))
  = [].
Proof.
  apply notified_cards_none. rewrite !Forall_app. repeat split.
  - apply Forall_flat_map, Forall_forall. intros m _. unfold alarm_notes.
    destruct (mentions_failed_read m); repeat constructor.
  - apply Forall_flat_map, Forall_forall. intros m _. repeat constructor.
  - apply Forall_flat_map, Forall_forall. intros m _. repeat constructor.
Qed.

(** X6: in a read cycle one request is posted for each parsed card and for
    nothing else, each to the configured URL with the card in its body, and
    the posts go out in the order in which the cards are then notified:
    the order of their tokens in the buffer.  Every posted card is one of
    the fifty-two codes. *)
Theorem X6_posts_follow_the_cards (W : world) (config : Config) (w : monitor) :
  exists w' new_posts new_notes,
    classify W config w = (w', Ok tt)
    /\ posted w' = posted w ++ new_posts
    /\ scheduled w' = scheduled w ++ new_notes
    /\ map posted_card new_posts = notified_cards new_notes
    /\ notified_cards new_notes
       = parse_cards_from_buffer (after_failed (text_buffer w))
    /\ Forall (fun r =>
                 req_url r = full_url (ip config) (port config) (url config)
                 /\ In (posted_card r) DECK)
              new_posts.
Proof.
  set (cards := parse_cards_from_buffer (after_failed (text_buffer w))).
  set (w3 := failed_pass (warning_pass (alarm_pass w))).
  assert (B3 : text_buffer w3 = after_failed (text_buffer w))
    by (unfold w3; rewrite failed_pass_eq, warning_pass_eq, alarm_pass_eq;
        reflexivity).
  destruct (classify_spec W config w) as (w' & E & Hs & _).
  assert (P : posted w'
              = posted w
                ++ map (fun card =>
                          post_request W (ip config) (port config) (url config)
                                       card w3)
                       cards).
  { pose proof (f_equal (fun x => posted (fst x)) E) as Q. cbn [fst] in Q.
    rewrite <- Q. unfold classify, four_passes, bind at 1 2 3 4, exec at 1 2 3.
    fold w3. unfold card_pass. rewrite B3. fold cards.
    destruct cards as [|c cards'] eqn:Ec.
    - simpl. unfold limit_buffer. destruct (2000 <? _)%nat; simpl;
        rewrite app_nil_r; unfold w3; apply removal_passes_posted.
    - unfold bind at 1 2. unfold last_item.
      destruct (rev (finditer CARD_PATTERN (after_failed (text_buffer w))))
        as [|m r] eqn:R.
      + apply (f_equal (@rev Match)) in R. rewrite rev_involutive in R.
        unfold cards in Ec. rewrite parse_cards_map, R in Ec. discriminate.
      + unfold ret at 1. unfold exec at 1.
        match goal with |- context [for_each ?cs ?f ?w1] =>
          pose proof (card_loop_posts W config cs w1) as L;
          destruct (card_loop_spec W config cs w1) as (w4 & E4 & _)
        end.
        rewrite E4 in L |- *. cbn [fst] in L. unfold exec, limit_buffer.
        destruct (2000 <? _)%nat; simpl; rewrite L; simpl; unfold w3;
          now destruct (removal_passes_posted w) as [-> _]. }
  eexists w', _, _. split; [exact E|]. split; [exact P|]. split; [exact Hs|].
  assert (N : notified_cards (notes_of_pass (text_buffer w)) = cards).
  { unfold notes_of_pass. rewrite !app_assoc, notified_cards_app.
    rewrite <- !app_assoc, removal_notes_no_card. simpl.
    apply notified_cards_of_cards. }
  split; [|split].
  - rewrite N, map_map. simpl. apply map_id.
  - exact N.
  - apply Forall_forall. intros r H. apply in_map_iff in H.
    destruct H as (card & <- & H). split; [reflexivity|]. simpl.
    unfold cards in H. rewrite parse_cards_map in H. apply in_map_iff in H.
    destruct H as (m & <- & H).
    now apply (card_of_match_in_deck (after_failed (text_buffer w))).
Qed.

(** ** The buffer between two iterations *)

Lemma sub_from_Forall (P : ascii -> Prop) (p : pattern) (s : text) :
  forall skip, Forall P s -> Forall P (sub_from p [] skip s).
Proof.
  induction s as [|c s IH]; intros skip H; simpl; [constructor|].
  inversion H as [|c' s' Hc Hs]; subst.
  destruct skip as [|n]; [|now apply IH].
  destruct (match_here p (c :: s)) as [[[|n] gs]|]; simpl;
    try constructor; auto.
Qed.

Lemma skipn_Forall (P : ascii -> Prop) (n : nat) (s : text) :
  Forall P s -> Forall P (skipn n s).
Proof.
  intros H. rewrite <- (firstn_skipn n s) in H.
  now apply Forall_app in H.
Qed.

Lemma passes_Forall (P : ascii -> Prop) (b : text) :
  Forall P b -> Forall P (buffer_after_passes b).
Proof.
  intros H. unfold buffer_after_passes, tail_after_last_card.
  assert (F : Forall P (after_failed b))
    by (unfold after_failed, after_warnings, after_alarms, sub;
        now repeat apply sub_from_Forall).
  destruct (rev _); [exact F|now apply skipn_Forall].
Qed.

Lemma decode_ascii (chunk : list ascii) :
  Forall (fun c => code c < 128) (decode_ascii_ignore chunk).
Proof.
  unfold decode_ascii_ignore. apply Forall_forall. intros c H.
  apply filter_In in H. destruct H as [_ H]. now apply Nat.ltb_lt.
Qed.

(** Whatever the buffer was, a classification leaves one that is bounded
    and free of card tokens, and that is ASCII when it was. *)
Lemma classify_buffer_ok (W : world) (config : Config) (w : monitor) :
  Forall (fun c => code c < 128) (text_buffer w) ->
  buffer_ok (text_buffer (fst (classify W config w))).
Proof.
  intros A. destruct (classify_spec W config w) as (w' & E & _ & Hb & _).
  rewrite E. cbn [fst]. rewrite Hb. cbv zeta.
  pose proof (passes_Forall _ _ A) as A'.
  pose proof (tail_after_last_card_clean (after_failed (text_buffer w))) as C.
  fold (buffer_after_passes (text_buffer w)) in C.
  destruct (2000 <? _)%nat eqn:T; repeat split.
  - apply Nat.ltb_lt in T. rewrite last_chars_length; lia.
  - now apply skipn_Forall.
  - now apply finditer_nil_skipn.
  - now apply Nat.ltb_ge in T.
  - exact A'.
  - exact C.
Qed.

Lemma read_cycle_buffer_ok (W : world) (config : Config) (w w' : monitor) :
  read_cycle W config w = (w', Ok tt) ->
  buffer_ok (text_buffer w) -> buffer_ok (text_buffer w').
Proof.
  unfold read_cycle, bind, in_waiting. intros H B.
  destruct (ser_in_waiting W (now w)) as [n|e]; [|discriminate].
  destruct (0 <? n)%nat.
  - unfold read in H. destruct (ser_read W (now w) n) as [chunk|e]; [|discriminate].
    unfold exec at 1 in H.
    match type of H with context [classify W config ?w1] =>
      pose proof (classify_buffer_ok W config w1) as K;
      destruct (classify W config w1) as [w2 [[]|e]]
    end; [|discriminate].
    injection H as <-. simpl in *. apply K.
    apply Forall_app. split; [apply B|apply decode_ascii].
  - injection H as <-. exact B.
Qed.

Lemma read_block_buffer_ok (W : world) (config : Config) (w : monitor) :
  buffer_ok (text_buffer w) ->
  buffer_ok (text_buffer (fst (read_block W config w))).
Proof.
  intros B. pose proof (read_block_cases W config w) as H.
  destruct (read_cycle W config w) as [w' [[]|e]] eqn:E.
  - rewrite H. cbn [fst]. now apply (read_cycle_buffer_ok W config w).
  - apply read_cycle_raise_unchanged in E. subst w'. rewrite H. cbn [fst].
    destruct (is_SerialException e); [|exact B].
    destruct w as [[h|] b q l t n cl]; exact B.
Qed.

Lemma buffer_ok_nil : buffer_ok [].
Proof. repeat split; [simpl; lia|constructor]. Qed.

Lemma iteration_buffer_ok (W : world) (config : Config) (port_name : text)
                          (w : monitor) :
  buffer_ok (text_buffer w) ->
  buffer_ok (text_buffer (fst (iteration W config port_name w))).
Proof.
  intros B. unfold iteration, bind.
  destruct (needs_open w).
  - rewrite connect_cases. destruct (serial_Serial W (now w)) as [[]|e].
    + pose proof (read_block_buffer_ok W config (after_open w) buffer_ok_nil) as K.
      destruct (read_block W config (after_open w)) as [w' r] eqn:E.
      destruct (read_block_ok W config (after_open w)) as (w2 & E2 & _).
      rewrite E in E2. injection E2 as -> ->. exact K.
    + exact B.
  - unfold ret. now apply read_block_buffer_ok.
Qed.

(** X7: at every point of a run, however long and whatever arrives, the
    buffer between two iterations has at most 2000 characters, all of them
    ASCII, and holds no complete card token; the same holds from any state
    whose buffer is such. *)
Theorem X7_buffer_invariant (W : world) (config : Config) (port_name : text) :
  (forall fuel w,
      buffer_ok (text_buffer w) ->
      buffer_ok (text_buffer (state_of (run_loop W config port_name fuel w))))
  /\ (forall fuel,
        let b := text_buffer (state_of (run W config port_name fuel)) in
        List.length b <= 2000
        /\ Forall (fun c => code c < 128) b
        /\ finditer CARD_PATTERN b = []).
Proof.
  assert (G : forall fuel w,
             buffer_ok (text_buffer w) ->
             buffer_ok (text_buffer
                          (state_of (run_loop W config port_name fuel w)))).
  { induction fuel as [|fuel IH]; intros w B; simpl.
    - destruct (stop_is_set W w); simpl; [|exact B].
      unfold cleanup, close. now destruct (ser w).
    - destruct (stop_is_set W w); simpl.
      + unfold cleanup, close. now destruct (ser w).
      + pose proof (iteration_buffer_ok W config port_name w B) as K.
        destruct (iteration_ok W config port_name w) as (w' & E & _).
        rewrite E in K |- *. now apply IH. }
  split; [exact G|].
  intros fuel. apply (G fuel initial buffer_ok_nil).
Qed.

(** ** Opening the port *)

(** X8: while the port cannot be opened and nobody stops the thread, every
    iteration makes one attempt, queues one error notification and sleeps
    the retry delay: after [k] iterations the thread has tried [k] times in
    [k] times 2.5 s and is still trying; the delay never grows and the
    attempts never end.  Buffer, handle and posts are untouched. *)
Theorem X8_retry_at_fixed_delay
    (W : world) (config : Config) (port_name : text) (k : nat) :
  stop_time W = None ->
  (forall t, exists e, serial_Serial W t = Raise e) ->
  forall w,
    needs_open w = true ->
    exists w' errors,
      run_loop W config port_name k w = Running w'
      /\ opened w' = opened w + k
      /\ now w' = (now w + Z.of_nat k * RETRY_DELAY)%Z
      /\ scheduled w' = scheduled w ++ errors
      /\ List.length errors = k
      /\ forallb is_on_error errors = true
      /\ text_buffer w' = text_buffer w
      /\ ser w' = ser w
      /\ posted w' = posted w.
Proof.
  intros HS HF. induction k as [|k IH]; intros w Hopen.
  - exists w, []. simpl. unfold stop_is_set. rewrite HS, app_nil_r.
    repeat split; lia.
  - destruct (HF (now w)) as [e He].
    assert (Hopen' : needs_open (after_open_error port_name e w) = true)
      by exact Hopen.
    destruct (IH _ Hopen') as (w' & errors & R & Ho & Hn & Hq & Hl & Hf & Hb & Hh & Hp).
    exists w', (on_error (if is_SerialException e
                          then open_error_message port_name e
                          else exn_str e) :: errors).
    split.
    + simpl. unfold stop_is_set at 1. rewrite HS.
      unfold iteration, bind. rewrite Hopen, connect_cases, He. unfold ret.
      exact R.
    + simpl in *. rewrite Ho, Hn, Hq, Hl, Hf, <- app_assoc.
      repeat split; trivial; unfold RETRY_DELAY; lia.
Qed.

Lemma X8_retry_at_fixed_delay_witness :
  exists w' errors,
    run_loop absent_shoe_world default_Config DEVICE 3 initial = Running w'
    /\ opened w' = opened initial + 3
    /\ now w' = (now initial + Z.of_nat 3 * RETRY_DELAY)%Z
    /\ scheduled w' = scheduled initial ++ errors
    /\ List.length errors = 3
    /\ forallb is_on_error errors = true
    /\ text_buffer w' = text_buffer initial
    /\ ser w' = ser initial
    /\ posted w' = posted initial.
Proof.
  apply (X8_retry_at_fixed_delay absent_shoe_world default_Config DEVICE 3).
  - reflexivity.
  - intros t. eexists. reflexivity.
  - reflexivity.
Defined.

Lemma read_block_scheduled (W : world) (config : Config) (w : monitor) :
  exists rest, scheduled (fst (read_block W config w)) = scheduled w ++ rest.
Proof.
  pose proof (read_block_cases W config w) as H.
  destruct (read_cycle W config w) as [w' [[]|e]] eqn:E.
  - rewrite H. cbn [fst]. revert E.
    unfold read_cycle, bind, in_waiting.
    destruct (ser_in_waiting W (now w)) as [n|e]; [|discriminate].
    destruct (0 <? n)%nat.
    + unfold read. destruct (ser_read W (now w) n) as [chunk|e]; [|discriminate].
      unfold exec at 1.
      match goal with |- context [classify W config ?w1] =>
        destruct (classify_spec W config w1) as (w2 & E2 & Hs & _)
      end.
      rewrite E2. intros K. injection K as <-.
      eexists. change (scheduled (sleep POLL_DELAY w2)) with (scheduled w2).
      exact Hs.
    + intros K. injection K as <-. exists []. simpl. now rewrite app_nil_r.
  - apply read_cycle_raise_unchanged in E. subst w'. rewrite H. cbn [fst].
    destruct (is_SerialException e).
    + exists [on_disconnected]. now destruct w as [[h|] b q l t n cl].
    + exists []. simpl. now rewrite app_nil_r.
Qed.

(** X9: the iteration that opens the port does not look at what the buffer
    held before: whatever text was left from an earlier connection, the
    iteration ends in the same state, and the first thing it queues is the
    connected notification. *)
Theorem X9_connect_resets_the_buffer
    (W : world) (config : Config) (port_name : text) (w : monitor) :
  needs_open w = true -> serial_Serial W (now w) = Ok tt ->
  (forall old, iteration W config port_name (set_buffer old w)
               = iteration W config port_name w)
  /\ (exists rest,
         scheduled (fst (iteration W config port_name w))
         = scheduled w ++ on_connected :: rest).
Proof.
  intros Hopen He. split.
  - intros old. unfold iteration, bind.
    change (needs_open (set_buffer old w)) with (needs_open w).
    rewrite Hopen, !connect_cases.
    change (now (set_buffer old w)) with (now w). rewrite He.
    now destruct w as [h b q l t n cl].
  - unfold iteration, bind. rewrite Hopen, connect_cases, He.
    destruct (read_block_scheduled W config (after_open w)) as [rest H].
    exists rest. rewrite H. simpl. now rewrite <- app_assoc.
Qed.

Lemma X9_connect_resets_the_buffer_witness :
  (forall old, iteration calm_world default_Config DEVICE (set_buffer old initial)
               = iteration calm_world default_Config DEVICE initial)
  /\ (exists rest,
         scheduled (fst (iteration calm_world default_Config DEVICE initial))
         = scheduled initial ++ on_connected :: rest).
Proof.
  apply (X9_connect_resets_the_buffer calm_world default_Config DEVICE initial);
    reflexivity.
Defined.

(** X10: when an attempt to open the port fails and the next one, a retry
    delay later, succeeds on a shoe that has nothing to say, the two
    iterations queue exactly one error notification followed by one
    connected notification; the thread then holds the open handle and an
    empty buffer, having slept the retry delay and one polling interval. *)
Theorem X10_failure_then_success
    (W : world) (config : Config) (port_name : text) (w : monitor) (e : exn) :
  stop_time W = None ->
  needs_open w = true ->
  serial_Serial W (now w) = Raise e ->
  serial_Serial W (now w + RETRY_DELAY)%Z = Ok tt ->
  ser_in_waiting W (now w + RETRY_DELAY)%Z = Ok 0 ->
  exists w',
    run_loop W config port_name 2 w = Running w'
    /\ scheduled w'
       = scheduled w
         ++ [on_error (if is_SerialException e
                       then open_error_message port_name e
                       else exn_str e);
             on_connected]
    /\ text_buffer w' = []
    /\ ser w' = Some (mkSerial true)
    /\ opened w' = opened w + 2
    /\ now w' = (now w + RETRY_DELAY + POLL_DELAY)%Z.
Proof.
  intros HS Hopen He1 He2 Hw.
  eexists. split.
  - simpl. unfold stop_is_set. rewrite HS.
    unfold iteration at 1, bind. rewrite Hopen, connect_cases, He1. unfold ret.
    unfold iteration, bind.
    change (needs_open (after_open_error port_name e w)) with (needs_open w).
    rewrite Hopen, connect_cases.
    change (now (after_open_error port_name e w)) with (now w + RETRY_DELAY)%Z.
    rewrite He2.
    unfold read_block, try_except, read_cycle, bind, in_waiting.
    change (now (after_open (after_open_error port_name e w)))
      with (now w + RETRY_DELAY)%Z.
    rewrite Hw. simpl. reflexivity.
  - simpl. rewrite <- app_assoc. repeat split. lia.
Qed.

Lemma X10_failure_then_success_witness :
  exists w',
    run_loop late_shoe_world default_Config DEVICE 2 initial = Running w'
    /\ scheduled w'
       = scheduled initial
         ++ [on_error
               (if is_SerialException
                     (SerialException
                        "[Errno 13] Permission denied: '/dev/ttyUSB0'")
                then open_error_message DEVICE
                       (SerialException
                          "[Errno 13] Permission denied: '/dev/ttyUSB0'")
                else exn_str
                       (SerialException
                          "[Errno 13] Permission denied: '/dev/ttyUSB0'"));
             on_connected]
    /\ text_buffer w' = []
    /\ ser w' = Some (mkSerial true)
    /\ opened w' = opened initial + 2
    /\ now w' = (now initial + RETRY_DELAY + POLL_DELAY)%Z.
Proof.
  apply (X10_failure_then_success late_shoe_world default_Config DEVICE initial
           (SerialException "[Errno 13] Permission denied: '/dev/ttyUSB0'"));
    reflexivity.
Defined.

(** ** Warnings and failed reads *)

Lemma flat_map_singleton (A B : Type) (f : A -> B) (l : list A) :
  flat_map (fun x => [f x]) l = map f l.
Proof. induction l as [|x l IH]; simpl; [|rewrite IH]; reflexivity. Qed.

Lemma map_const_repeat (A B : Type) (y : B) (l : list A) :
  map (fun _ => y) l = repeat y (List.length l).
Proof. induction l as [|x l IH]; simpl; [|rewrite IH]; reflexivity. Qed.

(** X11: the warning pass queues one "Warning: code" error notification for
    each warning code in the buffer, in order, and the failed-read pass one
    "FAIL: Unreadable" card notification with [False] for each failed-read
    token; each pass takes exactly the characters of its matches out of the
    buffer and leaves handle, clock and posts alone. *)
Theorem X11_warnings_and_failed_reads (w : monitor) :
  (scheduled (warning_pass w)
   = scheduled w
     ++ map (fun c => on_error ("Warning: " ++ c))
            (findall WARNING_PATTERN (text_buffer w))
   /\ List.length (text_buffer (warning_pass w))
      + matched_length (finditer WARNING_PATTERN (text_buffer w))
      = List.length (text_buffer w))
  /\ (scheduled (failed_pass w)
      = scheduled w
        ++ repeat (on_card "FAIL: Unreadable" false)
                  (List.length (finditer FAILED_READ_PATTERN (text_buffer w)))
      /\ List.length (text_buffer (failed_pass w))
         + matched_length (finditer FAILED_READ_PATTERN (text_buffer w))
         = List.length (text_buffer w))
  /\ (ser (warning_pass w) = ser w /\ now (warning_pass w) = now w
      /\ posted (warning_pass w) = posted w)
  /\ (ser (failed_pass w) = ser w /\ now (failed_pass w) = now w
      /\ posted (failed_pass w) = posted w).
Proof.
  rewrite warning_pass_eq, failed_pass_eq. simpl.
  rewrite !flat_map_singleton. repeat split.
  - apply (sub_length WARNING_PATTERN).
  - unfold findall. now rewrite map_const_repeat, length_map.
  - apply (sub_length FAILED_READ_PATTERN).
Qed.

(** ** What the observer shows *)

Lemma deck_codes_are_not_failures :
  forallb (fun card => negb (startswith "FAIL:" card) && negb (text_eqb card []))
          DECK = true.
Proof. vm_compute. reflexivity. Qed.

Lemma deliver_expected (a : ShoeMonitorApp.t) (n : notification) :
  expected_note n ->
  ShoeMonitorApp.history (deliver a n)
  = ShoeMonitorApp.history a ++ entries_of [n].
Proof.
  destruct n as [| |card [|]|msg]; intros H.
  - simpl. now rewrite app_nil_r.
  - simpl. now rewrite app_nil_r.
  - pose proof deck_codes_are_not_failures as F.
    rewrite forallb_forall in F. specialize (F card H).
    apply andb_true_iff in F. destruct F as [F1 F2].
    apply negb_true_iff in F1.
    unfold deliver, ShoeMonitorApp.on_card_received.
    rewrite F1, F2. reflexivity.
  - unfold expected_note in H.
    unfold deliver, ShoeMonitorApp.on_card_received. rewrite H. reflexivity.
  - simpl. now rewrite app_nil_r.
Qed.

Lemma deliver_all_expected (ns : list notification) :
  Forall expected_note ns ->
  forall a,
    ShoeMonitorApp.history (deliver_all ns a)
    = ShoeMonitorApp.history a ++ entries_of ns.
Proof.
  unfold deliver_all. induction 1 as [|n ns H F IH]; intros a; simpl fold_left.
  - simpl. now rewrite app_nil_r.
  - rewrite IH, (deliver_expected a n H). unfold entries_of. simpl.
    now rewrite app_nil_r, <- app_assoc.
Qed.

Lemma notes_of_pass_expected (b : text) : Forall expected_note (notes_of_pass b).
Proof.
  unfold notes_of_pass. rewrite !Forall_app. repeat split.
  - apply Forall_flat_map, Forall_forall. intros m _. unfold alarm_notes.
    destruct (mentions_failed_read m); repeat constructor.
  - apply Forall_flat_map, Forall_forall. intros m _. repeat constructor.
  - apply Forall_flat_map, Forall_forall. intros m _. repeat constructor.
  - apply Forall_forall. intros n H. apply in_map_iff in H.
    destruct H as (card & <- & H). simpl.
    rewrite parse_cards_map in H. apply in_map_iff in H.
    destruct H as (m & <- & H).
    now apply (card_of_match_in_deck (after_failed b)).
Qed.

Lemma read_block_expected (W : world) (config : Config) (w : monitor) :
  Forall expected_note (scheduled w) ->
  Forall expected_note (scheduled (fst (read_block W config w))).
Proof.
  intros B. pose proof (read_block_cases W config w) as H.
  destruct (read_cycle W config w) as [w' [[]|e]] eqn:E.
  - rewrite H. cbn [fst]. revert E.
    unfold read_cycle, bind, in_waiting.
    destruct (ser_in_waiting W (now w)) as [n|e]; [|discriminate].
    destruct (0 <? n)%nat.
    + unfold read. destruct (ser_read W (now w) n) as [chunk|e]; [|discriminate].
      unfold exec at 1.
      match goal with |- context [classify W config ?w1] =>
        destruct (classify_spec W config w1) as (w2 & E2 & Hs & _)
      end.
      rewrite E2. intros K. injection K as <-.
      change (scheduled (sleep POLL_DELAY w2)) with (scheduled w2).
      rewrite Hs. apply Forall_app. split; [exact B|apply notes_of_pass_expected].
    + intros K. injection K as <-. exact B.
  - apply read_cycle_raise_unchanged in E. subst w'. rewrite H. cbn [fst].
    destruct (is_SerialException e); [|exact B].
    destruct w as [[h|] b q l t n cl]; simpl in *;
      apply Forall_app; split; trivial; repeat constructor.
Qed.

Lemma iteration_expected (W : world) (config : Config) (port_name : text)
                         (w : monitor) :
  Forall expected_note (scheduled w) ->
  Forall expected_note (scheduled (fst (iteration W config port_name w))).
Proof.
  intros B. unfold iteration, bind.
  destruct (needs_open w).
  - rewrite connect_cases. destruct (serial_Serial W (now w)) as [[]|e].
    + assert (B' : Forall expected_note (scheduled (after_open w)))
        by (simpl; apply Forall_app; split; trivial; repeat constructor).
      pose proof (read_block_expected W config (after_open w) B') as K.
      destruct (read_block_ok W config (after_open w)) as (w2 & E2 & _).
      rewrite E2 in K |- *. exact K.
    + simpl. apply Forall_app. split; trivial. repeat constructor.
  - unfold ret. now apply read_block_expected.
Qed.

Lemma run_loop_expected (W : world) (config : Config) (port_name : text) :
  forall fuel w,
    Forall expected_note (scheduled w) ->
    Forall expected_note
           (scheduled (state_of (run_loop W config port_name fuel w))).
Proof.
  induction fuel as [|fuel IH]; intros w B; simpl.
  - destruct (stop_is_set W w); simpl; [|exact B].
    unfold cleanup, close. now destruct (ser w).
  - destruct (stop_is_set W w); simpl.
    + unfold cleanup, close. now destruct (ser w).
    + pose proof (iteration_expected W config port_name w B) as K.
      destruct (iteration_ok W config port_name w) as (w' & E & _).
      rewrite E in K |- *. now apply IH.
Qed.

(** X12: when the callbacks scheduled by a run of the monitor are run in
    the order in which they were scheduled, the history grows by one
    entry for each card notification: a green [OK] for a card that was read
    and a red [FAIL] for a failed read.  The third symbol of
    [on_card_received], [X], is never shown: a card code is never empty and
    never begins with FAIL:. *)
Theorem X12_history_symbols
    (W : world) (config : Config) (port_name : text) (fuel : nat)
    (a : ShoeMonitorApp.t) :
  let ns := scheduled (state_of (run W config port_name fuel)) in
  ShoeMonitorApp.history (deliver_all ns a)
  = ShoeMonitorApp.history a ++ entries_of ns
  /\ Forall (fun e => ShoeMonitorApp.symbol e <> "[X]") (entries_of ns).
Proof.
  cbv zeta. split.
  - apply deliver_all_expected. unfold run. apply run_loop_expected. constructor.
  - unfold entries_of. apply Forall_flat_map, Forall_forall. intros n _.
    destruct n as [| |card [|]|msg]; repeat constructor; discriminate.
Qed.

Lemma set_connected_ok (connected : bool) (message : text)
                       (s : StatusIndicator.t) :
  List.length message <= 37 ->
  message <> "Connected (/dev/ttyUSB0 @9600)" ->
  let s' := StatusIndicator.set_connected connected message s in
  List.length (StatusIndicator.label_text s') <= 37
  /\ (StatusIndicator.dot_color s' = DOT_GREEN
      <-> StatusIndicator.label_text s' = "Connected (/dev/ttyUSB0 @9600)").
Proof.
  intros L N. destruct connected; simpl.
  - split; [vm_compute; lia|split; reflexivity].
  - destruct message as [|c m].
    + split; [simpl; lia|]. split; discriminate.
    + split; [exact L|]. split; [discriminate|]. intros E. now destruct N.
Qed.

Lemma render_history_mirror (a : ShoeMonitorApp.t) :
  ShoeMonitorApp.history_container (ShoeMonitorApp.render_history a)
  = map (fun e => ShoeMonitorApp.mkLabel (ShoeMonitorApp.symbol e)
                                         (ShoeMonitorApp.color e))
        (ShoeMonitorApp.history a).
Proof.
  unfold ShoeMonitorApp.render_history. simpl.
  rewrite (fold_left_snoc _ _
             (fun e => ShoeMonitorApp.mkLabel (ShoeMonitorApp.symbol e)
                                              (ShoeMonitorApp.color e))).
  reflexivity.
Qed.

Lemma deliver_ok (a : ShoeMonitorApp.t) (n : notification) :
  app_ok a -> app_ok (deliver a n).
Proof.
  intros (M & L & D). destruct n as [| |card success|msg]; simpl.
  - split; [exact M|].
    apply (set_connected_ok true [] (ShoeMonitorApp.status_indicator a));
      [simpl; lia|discriminate].
  - split; [exact M|].
    apply (set_connected_ok false "Disconnected (retrying...)"
             (ShoeMonitorApp.status_indicator a)); [simpl; lia|discriminate].
  - unfold ShoeMonitorApp.on_card_received. cbv zeta.
    split; [|split; [exact L|exact D]].
    rewrite render_history_mirror. reflexivity.
  - split; [exact M|].
    apply (set_connected_ok false ("Error: " ++ firstn 30 msg)
             (ShoeMonitorApp.status_indicator a)).
    + rewrite length_app, length_firstn.
      change (List.length (list_ascii_of_string "Error: ")) with 7. lia.
    + discriminate.
Qed.

(** X13: whatever notifications arrive, in whatever order, and whatever
    is clicked, the grid of the history shows one label for each entry of
    the history, with its symbol and colour, the status text has at most 37
    characters (an error message is cut to its first 30), and the dot is
    green exactly when the text is the connected text. *)
Theorem X13_observer_invariant (ns : list notification) (a : ShoeMonitorApp.t)
                               (fs : filesystem) :
  (forall config, app_ok (ShoeMonitorApp.init config))
  /\ (app_ok a -> app_ok (deliver_all ns a))
  /\ (app_ok a -> app_ok (ShoeMonitorApp.clear_history a))
  /\ (app_ok a -> app_ok (ShoeMonitorApp.toggle_monitoring a))
  /\ (app_ok a -> app_ok (fst (ShoeMonitorApp.save_configuration a fs)))
  /\ (forall message,
        StatusIndicator.label_text
          (ShoeMonitorApp.status_indicator (ShoeMonitorApp.on_error message a))
        = "Error: " ++ firstn 30 message).
Proof.
  repeat apply conj.
  - intros config. repeat split; try discriminate. simpl. lia.
  - revert a. unfold deliver_all.
    induction ns as [|n ns IH]; intros a H; simpl; [exact H|].
    apply IH. now apply deliver_ok.
  - intros (_ & L & D). repeat split; trivial; apply D.
  - intros (M & L & D). unfold ShoeMonitorApp.toggle_monitoring.
    destruct (ShoeMonitorApp.is_monitoring a); cbn [negb].
    + split; [exact M|].
      apply (set_connected_ok false "Stopped"
               (ShoeMonitorApp.status_indicator a)); [simpl; lia|discriminate].
    + destruct (ShoeMonitorApp.checked_inputs a); repeat split; trivial;
        apply D.
  - intros (M & L & D). unfold ShoeMonitorApp.save_configuration.
    destruct (ShoeMonitorApp.checked_inputs a); repeat split; trivial; apply D.
  - intros message. reflexivity.
Qed.

(** ** The configuration file *)

Lemma text_eqb_refl (a : text) : text_eqb a a = true.
Proof. unfold text_eqb. now destruct (list_eq_dec ascii_dec a a). Qed.

Lemma text_eqb_neq (a b : text) : a <> b -> text_eqb a b = false.
Proof. unfold text_eqb. intros H. now destruct (list_eq_dec ascii_dec a b). Qed.

Lemma temp_path_differs (filepath : text) : filepath ++ ".tmp" <> filepath.
Proof.
  intros H. apply (f_equal (@List.length ascii)) in H.
  rewrite length_app in H. simpl in H. lia.
Qed.

(** The two ways [save_config] can end. *)
Lemma save_config_cases (config : Config) (filepath : text) (fs : filesystem) :
  let temp_path := filepath ++ ".tmp" in
  (open_w_fails fs temp_path = false
   /\ dump_fails fs temp_path = None
   /\ replace_fails fs temp_path filepath = false
   /\ save_config config filepath fs
      = (os_replace temp_path filepath (write_json temp_path (asdict config) fs),
         true))
  \/ (snd (save_config config filepath fs) = false
      /\ (open_w_fails fs temp_path = true
          \/ dump_fails fs temp_path <> None
          \/ replace_fails fs temp_path filepath = true)
      /\ (fst (save_config config filepath fs) = fs
          \/ exists f,
               fst (save_config config filepath fs) = write_file temp_path f fs)).
Proof.
  cbv zeta. unfold save_config.
  destruct (open_w_fails fs (filepath ++ ".tmp")); [right; auto|].
  destruct (dump_fails fs (filepath ++ ".tmp")) as [f|].
  - right. cbn [fst snd]. split; [reflexivity|].
    split; [right; left; discriminate|]. right. now exists f.
  - cbn [replace_fails write_json write_file].
    destruct (replace_fails fs (filepath ++ ".tmp") filepath); [right|left];
      auto.
    cbn [fst snd]. split; [reflexivity|]. split; [auto|].
    right. now exists (JObject (asdict config)).
Qed.

Lemma saved_file (config : Config) (filepath : text) (fs : filesystem) :
  let temp_path := filepath ++ ".tmp" in
  let fs' := os_replace temp_path filepath
               (write_json temp_path (asdict config) fs) in
  files fs' filepath = Some (JObject (asdict config))
  /\ files fs' temp_path = None
  /\ (forall q, q <> filepath -> q <> temp_path -> files fs' q = files fs q).
Proof.
  cbv zeta. pose proof (temp_path_differs filepath) as N.
  cbn [files os_replace write_json write_file].
  rewrite !text_eqb_refl, (text_eqb_neq _ _ N). repeat split.
  intros q H1 H2. now rewrite !text_eqb_neq.
Qed.

(** X14: [save_config] either puts the whole new configuration at the path
    and leaves no temporary file, returning [True], or returns [False] with
    the file at the path exactly as it was; it returns [True] exactly when
    the temporary file can be opened, is written and closed without an
    error, and can be moved to the path; it touches no path but the file
    and its .tmp neighbour. *)
Theorem X14_save_config_is_atomic (config : Config) (filepath : text)
                                  (fs : filesystem) :
  let fs' := fst (save_config config filepath fs) in
  let ok := snd (save_config config filepath fs) in
  (ok = true ->
   files fs' filepath = Some (JObject (asdict config))
   /\ files fs' (filepath ++ ".tmp") = None)
  /\ (ok = false -> files fs' filepath = files fs filepath)
  /\ (ok = true <->
      open_w_fails fs (filepath ++ ".tmp") = false
      /\ dump_fails fs (filepath ++ ".tmp") = None
      /\ replace_fails fs (filepath ++ ".tmp") filepath = false)
  /\ (forall q, q <> filepath -> q <> filepath ++ ".tmp" ->
                files fs' q = files fs q).
Proof.
  cbv zeta.
  pose proof (temp_path_differs filepath) as N.
  assert (N' : filepath <> filepath ++ ".tmp") by (intros E; now apply N).
  pose proof (saved_file config filepath fs) as K. cbv zeta in K.
  destruct K as (S1 & S2 & S3).
  destruct (save_config_cases config filepath fs)
    as [(Ew & Ed & Er & E)|(E & Hf & [F|(f & F)])]; rewrite ?E, ?F;
    cbn [fst snd].
  - repeat split; auto; discriminate.
  - repeat split; try discriminate; auto.
    intros (H1 & H2 & H3). destruct Hf as [Hf|[Hf|Hf]]; congruence.
  - repeat split; try discriminate.
    + intros _. cbn [files write_file]. now rewrite (text_eqb_neq _ _ N').
    + intros (H1 & H2 & H3). destruct Hf as [Hf|[Hf|Hf]]; congruence.
    + intros q H1 H2. cbn [files write_file]. now rewrite text_eqb_neq.
Qed.

(** X15: a configuration that [save_config] has saved is what
    [load_config] returns from the same path, field for field, and loading
    leaves the file system as it is. *)
Theorem X15_save_then_load (config : Config) (filepath : text)
                           (fs fs' : filesystem) :
  save_config config filepath fs = (fs', true) ->
  open_r_fails fs filepath = false ->
  load_config filepath fs' = (fs', instance config).
Proof.
  intros S R.
  destruct (save_config_cases config filepath fs)
    as [(_ & _ & _ & E)|(E & _)].
  - rewrite E in S. apply (f_equal fst) in S. cbn [fst] in S. subst fs'.
    pose proof (saved_file config filepath fs) as K. cbv zeta in K.
    destruct K as (F & _).
    unfold load_config. rewrite F.
    cbn [open_r_fails os_replace write_json write_file].
    rewrite R. reflexivity.
  - rewrite S in E. discriminate.
Qed.

Lemma X15_save_then_load_witness :
  load_config "shoe.json" (fst (save_config table_7 "shoe.json" (disk None)))
  = (fst (save_config table_7 "shoe.json" (disk None)), instance table_7).
Proof.
  apply (X15_save_then_load table_7 "shoe.json" (disk None)); reflexivity.
Defined.

Lemma fall_back_writes (filepath : text) (fs : filesystem) :
  open_w_fails fs (filepath ++ ".tmp") = false ->
  dump_fails fs (filepath ++ ".tmp") = None ->
  replace_fails fs (filepath ++ ".tmp") filepath = false ->
  files (fst (save_config default_Config filepath fs)) filepath
  = Some (JObject (asdict default_Config)).
Proof.
  intros Ew Ed Er.
  destruct (save_config_cases default_Config filepath fs)
    as [(_ & _ & _ & E)|(_ & [H|[H|H]] & _)]; try congruence.
  rewrite E. cbn [fst].
  pose proof (saved_file default_Config filepath fs) as K. cbv zeta in K.
  apply K.
Qed.

Lemma unknown_key_rejected (data : list (text * json)) (key : text) (v : json) :
  In (key, v) data -> ~ In key FIELDS -> Config_kwargs data = None.
Proof.
  intros H N. unfold Config_kwargs.
  destruct (forallb _ data) eqn:F; [|reflexivity].
  rewrite forallb_forall in F. specialize (F _ H). cbn [fst] in F.
  apply mem_In in F. contradiction.
Qed.

(** X16: when there is no file at the path, or it cannot be read, or it is
    not JSON, or not a JSON object, or an object with a member that is not
    a field of [Config], [load_config] returns the default configuration
    and saves it: if the temporary file can be opened, written and moved
    to the path, whatever was at the path is replaced by the defaults. *)
Theorem X16_load_falls_back (filepath : text) (fs : filesystem) :
  files fs filepath = None
  \/ open_r_fails fs filepath = true
  \/ files fs filepath = Some Garbage
  \/ files fs filepath = Some JNotObject
  \/ (exists data key v,
         files fs filepath = Some (JObject data)
         /\ In (key, v) data /\ ~ In key FIELDS) ->
  snd (load_config filepath fs) = instance default_Config
  /\ fst (load_config filepath fs) = fst (save_config default_Config filepath fs)
  /\ (open_w_fails fs (filepath ++ ".tmp") = false ->
      dump_fails fs (filepath ++ ".tmp") = None ->
      replace_fails fs (filepath ++ ".tmp") filepath = false ->
      files (fst (load_config filepath fs)) filepath
      = Some (JObject (asdict default_Config)))
  /\ (snd (save_config default_Config filepath fs) = false ->
      files (fst (load_config filepath fs)) filepath = files fs filepath).
Proof.
  intros H.
  assert (E : load_config filepath fs
              = (fst (save_config default_Config filepath fs),
                 instance default_Config)).
  { unfold load_config.
    destruct H as [H|[H|[H|[H|(data & key & v & H & I & N)]]]].
    - now rewrite H.
    - rewrite H. now destruct (files fs filepath).
    - rewrite H. now destruct (open_r_fails fs filepath).
    - rewrite H. now destruct (open_r_fails fs filepath).
    - rewrite H, (unknown_key_rejected _ _ _ I N).
      now destruct (open_r_fails fs filepath). }
  rewrite E. cbn [fst snd].
  split; [reflexivity|]. split; [reflexivity|].
  split; [apply fall_back_writes|].
  intros F. pose proof (temp_path_differs filepath) as N.
  destruct (save_config_cases default_Config filepath fs)
    as [(_ & _ & _ & S)|(_ & _ & [S|(f & S)])].
  - rewrite S in F. discriminate F.
  - now rewrite S.
  - rewrite S. cbn [files write_file].
    rewrite text_eqb_neq; [reflexivity|]. intros K. now apply N.
Qed.

Lemma X16_load_falls_back_witness :
  snd (load_config "shoe.json"
         (disk (Some (JObject [("ip" : text, JStr "10.0.0.7");
                               ("baud" : text, JInt 9600)]))))
  = instance default_Config
  /\ fst (load_config "shoe.json"
            (disk (Some (JObject [("ip" : text, JStr "10.0.0.7");
                                  ("baud" : text, JInt 9600)]))))
     = fst (save_config default_Config "shoe.json"
              (disk (Some (JObject [("ip" : text, JStr "10.0.0.7");
                                    ("baud" : text, JInt 9600)]))))
  /\ (open_w_fails
        (disk (Some (JObject [("ip" : text, JStr "10.0.0.7");
                              ("baud" : text, JInt 9600)])))
        ("shoe.json" ++ ".tmp") = false ->
      dump_fails
        (disk (Some (JObject [("ip" : text, JStr "10.0.0.7");
                              ("baud" : text, JInt 9600)])))
        ("shoe.json" ++ ".tmp") = None ->
      replace_fails
        (disk (Some (JObject [("ip" : text, JStr "10.0.0.7");
                              ("baud" : text, JInt 9600)])))
        ("shoe.json" ++ ".tmp") "shoe.json" = false ->
      files (fst (load_config "shoe.json"
                    (disk (Some (JObject [("ip" : text, JStr "10.0.0.7");
                                          ("baud" : text, JInt 9600)])))))
            "shoe.json"
      = Some (JObject (asdict default_Config)))
  /\ (snd (save_config default_Config "shoe.json"
              (disk (Some (JObject [("ip" : text, JStr "10.0.0.7");
                                    ("baud" : text, JInt 9600)]))))
      = false ->
      files (fst (load_config "shoe.json"
                    (disk (Some (JObject [("ip" : text, JStr "10.0.0.7");
                                          ("baud" : text, JInt 9600)])))))
            "shoe.json"
      = files (disk (Some (JObject [("ip" : text, JStr "10.0.0.7");
                                    ("baud" : text, JInt 9600)])))
              "shoe.json").
Proof.
  apply (X16_load_falls_back "shoe.json"
           (disk (Some (JObject [("ip" : text, JStr "10.0.0.7");
                                 ("baud" : text, JInt 9600)])))).
  right. right. right. right.
  exists [("ip" : text, JStr "10.0.0.7"); ("baud" : text, JInt 9600)],
         ("baud" : text), (JInt 9600).
  split; [reflexivity|]. split; [simpl; tauto|].
  vm_compute. intros [H|[H|[H|H]]]; try discriminate H; exact H.
Defined.

Lemma find_app_pairs (f : text * json -> bool) (a b : list (text * json)) :
  find f (a ++ b) = match find f a with
                    | Some x => Some x
                    | None => find f b
                    end.
Proof.
  induction a as [|x a IH]; simpl; [reflexivity|].
  now destruct (f x).
Qed.

Lemma find_none_key (key : text) (data : list (text * json)) :
  (forall v, ~ In (key, v) data) ->
  find (fun kv => text_eqb (fst kv) key) data = None.
Proof.
  induction data as [|[k v] data IH]; intros H; simpl; [reflexivity|].
  destruct (text_eqb k key) eqn:E.
  - apply text_eqb_eq in E. subst k. destruct (H v). now left.
  - apply IH. intros v' I. apply (H v'). now right.
Qed.

Lemma dict_get_absent (key : text) (default : json) (data : list (text * json)) :
  (forall v, ~ In (key, v) data) -> dict_get key default data = default.
Proof.
  intros H. unfold dict_get. rewrite find_none_key; [reflexivity|].
  intros v I. apply (H v). now apply in_rev.
Qed.

Lemma dict_get_last (key : text) (default v : json)
                    (before after : list (text * json)) :
  (forall v', ~ In (key, v') after) ->
  dict_get key default (before ++ (key, v) :: after) = v.
Proof.
  intros H. unfold dict_get.
  rewrite rev_app_distr. simpl rev. rewrite <- app_assoc, find_app_pairs.
  rewrite find_none_key.
  - simpl. now rewrite text_eqb_refl.
  - intros v' I. apply (H v'). now apply in_rev.
Qed.

(** X17: from a file that is a JSON object with no member but ip, port and
    url, [load_config] builds the configuration without touching the file
    system: a field that the file does not name gets its default, a field
    that it names gets the value of the last member of that name, of
    whatever type that value is. *)
Theorem X17_load_fills_in_defaults
    (filepath : text) (fs : filesystem) (data : list (text * json)) :
  files fs filepath = Some (JObject data) ->
  open_r_fails fs filepath = false ->
  (forall kv, In kv data -> In (fst kv) FIELDS) ->
  exists config,
    load_config filepath fs = (fs, config)
    /\ forall key,
         In key FIELDS ->
         ((forall v, ~ In (key, v) data) ->
          field_of key config = field_of key (instance default_Config))
         /\ (forall before v after,
               data = before ++ (key, v) :: after ->
               (forall v', ~ In (key, v') after) ->
               field_of key config = v).
Proof.
  intros F R K.
  assert (C : Config_kwargs data
              = Some (mkConfigObject
                        (dict_get "ip" (JStr (ip default_Config)) data)
                        (dict_get "port" (JInt (port default_Config)) data)
                        (dict_get "url" (JStr (url default_Config)) data))).
  { unfold Config_kwargs.
    replace (forallb (fun kv => mem (fst kv) FIELDS) data) with true;
      [reflexivity|].
    symmetry. apply forallb_forall. intros kv I. apply mem_In. now apply K. }
  eexists. split.
  - unfold load_config. rewrite F, R, C. reflexivity.
  - intros key I.
    assert (E : key = "ip" \/ key = "port" \/ key = "url")
      by (simpl in I; intuition).
    destruct E as [ -> | [ -> | -> ] ]; split.
    + intros A. apply (dict_get_absent "ip" _ _ A).
    + intros before v after -> A. apply (dict_get_last "ip" _ _ _ _ A).
    + intros A. apply (dict_get_absent "port" _ _ A).
    + intros before v after -> A. apply (dict_get_last "port" _ _ _ _ A).
    + intros A. apply (dict_get_absent "url" _ _ A).
    + intros before v after -> A. apply (dict_get_last "url" _ _ _ _ A).
Qed.

Lemma X17_load_fills_in_defaults_witness :
  exists config,
    load_config "shoe.json" (disk (Some (JObject port_twice)))
    = (disk (Some (JObject port_twice)), config)
    /\ forall key,
         In key FIELDS ->
         ((forall v, ~ In (key, v) port_twice) ->
          field_of key config = field_of key (instance default_Config))
         /\ (forall before v after,
               port_twice = before ++ (key, v) :: after ->
               (forall v', ~ In (key, v') after) ->
               field_of key config = v).
Proof.
  apply (X17_load_fills_in_defaults "shoe.json"
           (disk (Some (JObject port_twice))) port_twice).
  - reflexivity.
  - reflexivity.
  - intros kv [H|[H|H]]; try subst kv; simpl; tauto.
Defined.

(** ** The controls of the application *)

Lemma lstrip_space_clean (s : text) : clean_head (lstrip_space s).
Proof.
  induction s as [|c s IH]; simpl; [exact I|].
  destruct (isspace c) eqn:E; [exact IH|exact E].
Qed.

Lemma lstrip_space_id (s : text) : clean_head s -> lstrip_space s = s.
Proof. destruct s as [|c s]; simpl; [reflexivity|]. now intros ->. Qed.

Lemma lstrip_space_suffix (s : text) : exists sp, s = sp ++ lstrip_space s.
Proof.
  induction s as [|c s [sp IH]]; simpl.
  - now exists [].
  - destruct (isspace c).
    + exists (c :: sp). simpl. now rewrite <- IH.
    + now exists [].
Qed.

Lemma clean_head_prefix (a b : text) : clean_head (a ++ b) -> clean_head a.
Proof. destruct a; simpl; auto. Qed.

Lemma strip_clean_head (s : text) : clean_head (strip s).
Proof.
  unfold strip.
  destruct (lstrip_space_suffix (rev (lstrip_space s))) as [sp H].
  apply (f_equal (@rev ascii)) in H. rewrite rev_involutive, rev_app_distr in H.
  apply (clean_head_prefix _ (rev sp)). rewrite <- H. apply lstrip_space_clean.
Qed.

(** Stripping twice is stripping once. *)
Lemma strip_idempotent (s : text) : strip (strip s) = strip s.
Proof.
  unfold strip at 1. rewrite (lstrip_space_id _ (strip_clean_head s)).
  unfold strip. rewrite rev_involutive.
  rewrite (lstrip_space_id _ (lstrip_space_clean _)). reflexivity.
Qed.

Lemma text_eqb_nil (s : text) : text_eqb s [] = false <-> s <> [].
Proof.
  unfold text_eqb. destruct (list_eq_dec ascii_dec s []); split; congruence.
Qed.

Lemma checked_inputs_accepted (a : ShoeMonitorApp.t) (config : Config) :
  ShoeMonitorApp.checked_inputs a = Some config <->
  inputs_accepted a (port config) /\ config = config_of_inputs a (port config).
Proof.
  unfold ShoeMonitorApp.checked_inputs, inputs_accepted, config_of_inputs.
  cbv zeta.
  destruct (text_eqb (strip (ShoeMonitorApp.text_of (ShoeMonitorApp.ip_input a)))
                     []) eqn:E1.
  { split; [discriminate|]. intros [(N & _) _].
    apply text_eqb_nil in N. congruence. }
  destruct (text_eqb (strip (ShoeMonitorApp.text_of
                               (ShoeMonitorApp.port_input a))) []) eqn:E2.
  { split; [discriminate|]. intros [(_ & N & _) _].
    apply text_eqb_nil in N. congruence. }
  destruct (text_eqb (strip (ShoeMonitorApp.text_of (ShoeMonitorApp.url_input a)))
                     []) eqn:E3.
  { split; [discriminate|]. intros [(_ & _ & N & _) _].
    apply text_eqb_nil in N. congruence. }
  apply text_eqb_nil in E1, E2, E3. cbn [orb].
  destruct (int_of_str _) as [p|] eqn:Ei.
  - destruct ((1 <=? p) && (p <=? 65535))%Z eqn:R; cbn [negb].
    + apply andb_true_iff in R. destruct R as [R1 R2].
      apply Z.leb_le in R1, R2. split.
      * intros H. injection H as <-. cbn [port]. repeat split; trivial.
      * intros [(_ & _ & _ & Hp & _) ->]. cbn [port] in Hp. congruence.
    + split; [discriminate|]. intros [(_ & _ & _ & Hp & Hr) _].
      injection Hp as ->. apply andb_false_iff in R.
      destruct R as [R|R]; [apply Z.leb_gt in R|apply Z.leb_gt in R]; lia.
  - split; [discriminate|]. intros [(_ & _ & _ & Hp & _) _]. discriminate.
Qed.

Lemma accepted_is_valid (a : ShoeMonitorApp.t) (p : Z) :
  inputs_accepted a p -> valid_config (config_of_inputs a p).
Proof.
  intros (N1 & _ & N3 & _ & R). unfold valid_config, config_of_inputs.
  cbn [ip port url]. repeat split; trivial; try lia; apply strip_idempotent.
Qed.

(** X18: Start begins monitoring exactly when, once stripped of white
    space, the address, the port and the path are not empty and the port
    is a decimal integer from 1 to 65535; the thread is then given the
    stripped address and path and that port, and the inputs are locked.
    In every other case the click changes nothing at all. *)
Theorem X18_start_checks_the_inputs (a : ShoeMonitorApp.t) :
  ShoeMonitorApp.is_monitoring a = false ->
  let a' := ShoeMonitorApp.toggle_monitoring a in
  (ShoeMonitorApp.is_monitoring a' = true <-> exists port, inputs_accepted a port)
  /\ (forall port,
        inputs_accepted a port ->
        ShoeMonitorApp.app_config a' = instance (config_of_inputs a port)
        /\ valid_config (config_of_inputs a port)
        /\ ShoeMonitorApp.monitor a'
           = Some (ShoeMonitorApp.mkSerialMonitor "/dev/ttyUSB0" 9600 2)
        /\ ShoeMonitorApp.disabled (ShoeMonitorApp.ip_input a') = true
        /\ ShoeMonitorApp.disabled (ShoeMonitorApp.port_input a') = true
        /\ ShoeMonitorApp.disabled (ShoeMonitorApp.url_input a') = true
        /\ ShoeMonitorApp.save_btn_disabled a' = true)
  /\ ((forall port, ~ inputs_accepted a port) -> a' = a).
Proof.
  intros M. cbv zeta. unfold ShoeMonitorApp.toggle_monitoring. rewrite M.
  cbn [negb].
  destruct (ShoeMonitorApp.checked_inputs a) as [config|] eqn:C.
  - apply checked_inputs_accepted in C. destruct C as [A E].
    split; [|split].
    + split; [intros _; now exists (port config)|reflexivity].
    + intros p A'.
      assert (p = port config) as ->.
      { destruct A as (_ & _ & _ & H & _), A' as (_ & _ & _ & H' & _).
        congruence. }
      rewrite <- E. split; [reflexivity|].
      split; [rewrite E; now apply accepted_is_valid|]. repeat split.
    + intros N. destruct (N _ A).
  - split; [|split].
    + split; [congruence|]. intros [p A].
      assert (H : ShoeMonitorApp.checked_inputs a = Some (config_of_inputs a p))
        by (apply checked_inputs_accepted; split; [exact A|reflexivity]).
      congruence.
    + intros p A.
      assert (H : ShoeMonitorApp.checked_inputs a = Some (config_of_inputs a p))
        by (apply checked_inputs_accepted; split; [exact A|reflexivity]).
      congruence.
    + reflexivity.
Qed.

Lemma X18_start_checks_the_inputs_witness :
  (ShoeMonitorApp.is_monitoring (ShoeMonitorApp.toggle_monitoring typed_in) = true
   <-> exists port, inputs_accepted typed_in port)
  /\ (forall port,
        inputs_accepted typed_in port ->
        ShoeMonitorApp.app_config (ShoeMonitorApp.toggle_monitoring typed_in)
        = instance (config_of_inputs typed_in port)
        /\ valid_config (config_of_inputs typed_in port)
        /\ ShoeMonitorApp.monitor (ShoeMonitorApp.toggle_monitoring typed_in)
           = Some (ShoeMonitorApp.mkSerialMonitor "/dev/ttyUSB0" 9600 2)
        /\ ShoeMonitorApp.disabled
             (ShoeMonitorApp.ip_input (ShoeMonitorApp.toggle_monitoring typed_in))
           = true
        /\ ShoeMonitorApp.disabled
             (ShoeMonitorApp.port_input
                (ShoeMonitorApp.toggle_monitoring typed_in)) = true
        /\ ShoeMonitorApp.disabled
             (ShoeMonitorApp.url_input (ShoeMonitorApp.toggle_monitoring typed_in))
           = true
        /\ ShoeMonitorApp.save_btn_disabled
             (ShoeMonitorApp.toggle_monitoring typed_in) = true)
  /\ ((forall port, ~ inputs_accepted typed_in port) ->
      ShoeMonitorApp.toggle_monitoring typed_in = typed_in).
Proof.
  apply (X18_start_checks_the_inputs typed_in). reflexivity.
Defined.

Lemma checked_inputs_valid (a : ShoeMonitorApp.t) (config : Config) :
  ShoeMonitorApp.checked_inputs a = Some config -> valid_config config.
Proof.
  intros C. apply checked_inputs_accepted in C. destruct C as [A ->].
  now apply accepted_is_valid.
Qed.

Lemma deliver_controls (a : ShoeMonitorApp.t) (n : notification) :
  controls_ok a -> controls_ok (deliver a n).
Proof. intros H. destruct n; exact H. Qed.

(** X19: between any two events (clicks on Start/Stop or Save, notifications
    from the monitor, clearing of the history) the controls agree with each
    other: a monitor exists exactly while [is_monitoring] is set, the three
    inputs and the Save button are disabled exactly then, the button reads
    Stop exactly then, and while monitoring the configuration that the
    thread reads holds a port from 1 to 65535 and a stripped, non-empty
    address and path. *)
Theorem X19_controls_invariant (a : ShoeMonitorApp.t) (ns : list notification)
                               (fs : filesystem) :
  (forall config, controls_ok (ShoeMonitorApp.init config))
  /\ (controls_ok a -> controls_ok (ShoeMonitorApp.toggle_monitoring a))
  /\ (controls_ok a -> controls_ok (fst (ShoeMonitorApp.save_configuration a fs)))
  /\ (controls_ok a -> controls_ok (deliver_all ns a))
  /\ (controls_ok a -> controls_ok (ShoeMonitorApp.clear_history a)).
Proof.
  repeat apply conj.
  - intros config. unfold controls_ok. cbn.
    repeat split; try discriminate; try congruence.
  - intros (H1 & H2 & H3 & H4 & H5 & H6 & H7).
    unfold ShoeMonitorApp.toggle_monitoring.
    destruct (ShoeMonitorApp.is_monitoring a) eqn:M; cbn [negb].
    + unfold controls_ok. cbn. repeat split; try discriminate; try congruence.
    + destruct (ShoeMonitorApp.checked_inputs a) as [config|] eqn:C.
      * unfold controls_ok. cbn. repeat split; try discriminate.
        intros _. exists config. split; [reflexivity|].
        now apply (checked_inputs_valid a).
      * unfold controls_ok. rewrite M. repeat split; trivial.
        -- apply H1.
        -- apply H1.
  - intros (H1 & H2 & H3 & H4 & H5 & H6 & H7).
    unfold ShoeMonitorApp.save_configuration.
    destruct (ShoeMonitorApp.checked_inputs a) as [config|] eqn:C; cbn [fst].
    + unfold controls_ok. cbn. repeat split; trivial; try apply H1.
      intros _. exists config. split; [reflexivity|].
      now apply (checked_inputs_valid a).
    + repeat split; trivial; apply H1.
  - revert a. unfold deliver_all.
    induction ns as [|n ns IH]; intros a H; simpl; [exact H|].
    apply IH. now apply deliver_controls.
  - intros H. exact H.
Qed.

(** X20: Save with inputs that pass the check puts the configuration they
    give into the application and, when the temporary file can be opened,
    written and moved to shoe.json, a later [load_config] returns that same
    configuration; when one of the three fails, shoe.json is as before.
    With inputs that do not pass, application and file system are as
    before. *)
Theorem X20_saved_inputs_load_back (a : ShoeMonitorApp.t) (fs : filesystem) :
  let a' := fst (ShoeMonitorApp.save_configuration a fs) in
  let fs' := snd (ShoeMonitorApp.save_configuration a fs) in
  (forall port,
      inputs_accepted a port ->
      ShoeMonitorApp.app_config a' = instance (config_of_inputs a port)
      /\ (open_w_fails fs ("shoe.json" ++ ".tmp") = false ->
          dump_fails fs ("shoe.json" ++ ".tmp") = None ->
          replace_fails fs ("shoe.json" ++ ".tmp") "shoe.json" = false ->
          open_r_fails fs "shoe.json" = false ->
          load_config "shoe.json" fs' = (fs', ShoeMonitorApp.app_config a'))
      /\ (open_w_fails fs ("shoe.json" ++ ".tmp") = true
          \/ dump_fails fs ("shoe.json" ++ ".tmp") <> None
          \/ replace_fails fs ("shoe.json" ++ ".tmp") "shoe.json" = true ->
          files fs' "shoe.json" = files fs "shoe.json"))
  /\ ((forall port, ~ inputs_accepted a port) -> a' = a /\ fs' = fs).
Proof.
  cbv zeta. unfold ShoeMonitorApp.save_configuration.
  destruct (ShoeMonitorApp.checked_inputs a) as [config|] eqn:C; cbn [fst snd].
  - apply checked_inputs_accepted in C. destruct C as [A E]. split.
    + intros p A'.
      assert (p = port config) as ->.
      { destruct A as (_ & _ & _ & H & _), A' as (_ & _ & _ & H' & _).
        congruence. }
      rewrite <- E. split; [reflexivity|]. split.
      * intros Ew Ed Er R.
        destruct (save_config_cases config "shoe.json" fs)
          as [(_ & _ & _ & S)|(_ & [H|[H|H]] & _)]; try congruence.
        rewrite S. cbn [fst].
        pose proof (saved_file config "shoe.json" fs) as K. cbv zeta in K.
        destruct K as (F & _).
        unfold load_config. rewrite F.
        cbn [open_r_fails os_replace write_json write_file].
        rewrite R. reflexivity.
      * intros H.
        destruct (save_config_cases config "shoe.json" fs)
          as [(Ew & Ed & Er & _)|(_ & _ & [F|(f & F)])].
        -- destruct H as [H|[H|H]]; congruence.
        -- now rewrite F.
        -- rewrite F. cbn [files write_file].
           rewrite text_eqb_neq; [reflexivity|].
           intros K. now apply (temp_path_differs "shoe.json").
    + intros N. destruct (N _ A).
  - split; [|auto]. intros p A.
    assert (H : ShoeMonitorApp.checked_inputs a = Some (config_of_inputs a p))
      by (apply checked_inputs_accepted; split; [exact A|reflexivity]).
    congruence.
Qed.

(** ** Tokens that arrive in pieces *)

Lemma read_cycle_data (W : world) (config : Config) (w : monitor)
                      (n : nat) (chunk : list ascii) :
  ser_in_waiting W (now w) = Ok n -> 0 < n ->
  ser_read W (now w) n = Ok chunk ->
  read_cycle W config w
  = (sleep POLL_DELAY
       (fst (classify W config
               (set_buffer (text_buffer w ++ decode_ascii_ignore chunk) w))),
     Ok tt).
Proof.
  intros Hn Hpos Hr. unfold read_cycle, bind, in_waiting. rewrite Hn.
  apply Nat.ltb_lt in Hpos. rewrite Hpos. unfold read. rewrite Hr.
  unfold exec at 1.
  match goal with |- context [classify W config ?w1] =>
    destruct (classify_spec W config w1) as (w2 & E & _)
  end.
  rewrite E. reflexivity.
Qed.

Lemma classify_no_token (W : world) (config : Config) (w : monitor) :
  no_token (text_buffer w) -> List.length (text_buffer w) <= 2000 ->
  classify W config w = (w, Ok tt).
Proof.
  intros (Ha & Hw & Hf & Hc) L.
  unfold classify, four_passes, bind, exec.
  assert (A : alarm_pass w = w)
    by (unfold alarm_pass, findall; now rewrite Ha).
  rewrite A.
  assert (B : warning_pass w = w)
    by (unfold warning_pass, findall; now rewrite Hw).
  rewrite B.
  assert (F : failed_pass w = w)
    by (unfold failed_pass, findall; now rewrite Hf).
  rewrite F.
  unfold card_pass. rewrite parse_cards_map, Hc. simpl.
  unfold limit_buffer.
  destruct (2000 <? List.length (text_buffer w))%nat eqn:T; [|reflexivity].
  apply Nat.ltb_lt in T. lia.
Qed.

(** X21: where a chunk ends does not matter as long as nothing in the
    buffer matches yet: when a first chunk leaves the buffer, of at most
    2000 characters, without a match of any pattern, reading it and then a
    second chunk queues the same notifications and leaves the same buffer
    as reading the two chunks as one.  A token cut in two by the serial
    link is reported once, when its second part arrives. *)
Theorem X21_chunk_boundaries_do_not_matter
    (W W' : world) (config : Config) (w : monitor)
    (n1 n2 n : nat) (chunk1 chunk2 : list ascii) :
  ser_in_waiting W (now w) = Ok n1 -> 0 < n1 ->
  ser_read W (now w) n1 = Ok chunk1 ->
  ser_in_waiting W (now w + POLL_DELAY)%Z = Ok n2 -> 0 < n2 ->
  ser_read W (now w + POLL_DELAY)%Z n2 = Ok chunk2 ->
  ser_in_waiting W' (now w) = Ok n -> 0 < n ->
  ser_read W' (now w) n = Ok (chunk1 ++ chunk2) ->
  no_token (text_buffer w ++ decode_ascii_ignore chunk1) ->
  List.length (text_buffer w ++ decode_ascii_ignore chunk1) <= 2000 ->
  exists w1 w2 w',
    read_cycle W config w = (w1, Ok tt)
    /\ read_cycle W config w1 = (w2, Ok tt)
    /\ read_cycle W' config w = (w', Ok tt)
    /\ scheduled w1 = scheduled w
    /\ scheduled w2 = scheduled w'
    /\ text_buffer w2 = text_buffer w'.
Proof.
  intros Hn1 P1 Hr1 Hn2 P2 Hr2 Hn P Hr NT L.
  pose proof (read_cycle_data W config w n1 chunk1 Hn1 P1 Hr1) as E1.
  rewrite (classify_no_token W config
             (set_buffer (text_buffer w ++ decode_ascii_ignore chunk1) w)
             NT L) in E1.
  cbn [fst] in E1.
  set (w1 := sleep POLL_DELAY
               (set_buffer (text_buffer w ++ decode_ascii_ignore chunk1) w))
    in *.
  pose proof (read_cycle_data W config w1 n2 chunk2 Hn2 P2 Hr2) as E2.
  pose proof (read_cycle_data W' config w n (chunk1 ++ chunk2) Hn P Hr) as E'.
  eexists w1, _, _. split; [exact E1|]. split; [exact E2|]. split; [exact E'|].
  split; [reflexivity|].
  match type of E2 with context [classify W config ?x] =>
    destruct (classify_spec W config x) as (a & Ea & Hsa & Hba & _) end.
  match type of E' with context [classify W' config ?x] =>
    destruct (classify_spec W' config x) as (b & Eb & Hsb & Hbb & _) end.
  rewrite Ea, Eb. cbn [fst].
  change (scheduled (sleep POLL_DELAY a)) with (scheduled a).
  change (scheduled (sleep POLL_DELAY b)) with (scheduled b).
  change (text_buffer (sleep POLL_DELAY a)) with (text_buffer a).
  change (text_buffer (sleep POLL_DELAY b)) with (text_buffer b).
  rewrite Hsa, Hsb, Hba, Hbb. unfold w1. cbn [text_buffer scheduled set_buffer sleep].
  unfold decode_ascii_ignore. rewrite filter_app, app_assoc. auto.
Qed.

Lemma X21_chunk_boundaries_do_not_matter_witness :
  exists w1 w2 w',
    read_cycle split_token_world default_Config (holding []) = (w1, Ok tt)
    /\ read_cycle split_token_world default_Config w1 = (w2, Ok tt)
    /\ read_cycle whole_token_world default_Config (holding []) = (w', Ok tt)
    /\ scheduled w1 = scheduled (holding [])
    /\ scheduled w2 = scheduled w'
    /\ text_buffer w2 = text_buffer w'.
Proof.
  apply (X21_chunk_boundaries_do_not_matter
           split_token_world whole_token_world default_Config (holding [])
           14 3 17 " [Game]<Card:4" "S> ").
  - reflexivity.
  - lia.
  - reflexivity.
  - reflexivity.
  - lia.
  - reflexivity.
  - reflexivity.
  - lia.
  - reflexivity.
  - unfold no_token. split; [|split; [|split]]; vm_compute; reflexivity.
  - simpl. lia.
Defined.

(** ** Stopping while connected *)

(** X22: when stop is requested while the thread is connected and polling
    a shoe that has nothing to say, the thread leaves the loop at the end of
    that poll, less than one polling interval (50 ms) after the request,
    without reading, queueing or opening anything; and however a run ends,
    the thread leaves with the handle closed or absent. *)
Theorem X22_stop_while_polling
    (W : world) (config : Config) (port_name : text)
    (w : monitor) (t_req : Z) (fuel : nat) :
  stop_time W = Some t_req ->
  needs_open w = false ->
  ser_in_waiting W (now w) = Ok 0 ->
  (now w < t_req <= now w + POLL_DELAY)%Z ->
  (exists w',
      run_loop W config port_name (S fuel) w = Exited w'
      /\ now w' = (now w + POLL_DELAY)%Z
      /\ (0 <= now w' - t_req < POLL_DELAY)%Z
      /\ needs_open w' = true
      /\ opened w' = opened w
      /\ scheduled w' = scheduled w
      /\ posted w' = posted w
      /\ text_buffer w' = text_buffer w)
  /\ (forall k v v', run_loop W config port_name k v = Exited v' ->
                     needs_open v' = true).
Proof.
  intros HT Hopen Hw Hreq. split.
  - exists (cleanup (sleep POLL_DELAY w)).
    assert (S0 : stop_is_set W w = false)
      by (unfold stop_is_set; rewrite HT; apply Z.leb_gt; lia).
    assert (S1 : stop_is_set W (sleep POLL_DELAY w) = true)
      by (unfold stop_is_set; rewrite HT; apply Z.leb_le; simpl; lia).
    assert (I : iteration W config port_name w = (sleep POLL_DELAY w, Ok tt)).
    { unfold iteration, bind. rewrite Hopen. unfold ret.
      unfold read_block, try_except, read_cycle, bind, in_waiting.
      rewrite Hw. reflexivity. }
    split.
    + simpl. rewrite S0, I. destruct fuel; simpl; now rewrite S1.
    + unfold cleanup, close, needs_open, POLL_DELAY in *.
      destruct w as [[h|] b q l t n cl]; simpl in *; repeat split; trivial; lia.
  - assert (C : forall v, needs_open (cleanup v) = true)
      by (intros [[h|] b q l t n cl]; reflexivity).
    induction k as [|k IH]; intros v v'; simpl;
      destruct (stop_is_set W v).
    + intros H. injection H as <-. apply C.
    + discriminate.
    + intros H. injection H as <-. apply C.
    + destruct (iteration_ok W config port_name v) as (v1 & E & _).
      rewrite E. apply IH.
Qed.

Lemma X22_stop_while_polling_witness :
  (exists w',
      run_loop stop_while_idle_world default_Config DEVICE 1 (holding [])
      = Exited w'
      /\ now w' = (now (holding []) + POLL_DELAY)%Z
      /\ (0 <= now w' - 20 < POLL_DELAY)%Z
      /\ needs_open w' = true
      /\ opened w' = opened (holding [])
      /\ scheduled w' = scheduled (holding [])
      /\ posted w' = posted (holding [])
      /\ text_buffer w' = text_buffer (holding []))
  /\ (forall k v v',
        run_loop stop_while_idle_world default_Config DEVICE k v = Exited v' ->
        needs_open v' = true).
Proof.
  apply (X22_stop_while_polling stop_while_idle_world default_Config DEVICE
           (holding []) 20%Z 0).
  - reflexivity.
  - reflexivity.
  - reflexivity.
  - vm_compute. split; [reflexivity|discriminate].
Defined.
